(** * VSL compiler: syntax tree passes, symbol binding and code generation

    A shallow embedding of the tree optimiser (tree.c: constant folding and
    unreachable-code removal), the name binder (symbols.c) and the x86-64
    generator (generator.c) of the VSL compiler, with the properties the
    design document states about them. *)

From Stdlib Require Import ZArith List Bool Lia.
From stdpp Require Import gmap strings list.

Local Open Scope Z_scope.

(** ** Fixed-width integers

    [int] is 32 bits wide and [int64_t] 64 bits wide; a conversion to a
    narrower signed type keeps the low bits (two's complement). *)

Definition wrap_signed (bits : Z) (v : Z) : Z :=
  (v + 2 ^ (bits - 1)) mod 2 ^ bits - 2 ^ (bits - 1).

Definition to_int (v : Z) : Z := wrap_signed 32 v.
Definition to_int64 (v : Z) : Z := wrap_signed 64 v.

Definition INT_MIN : Z := - 2 ^ 31.
Definition INT_MAX : Z := 2 ^ 31 - 1.
Definition INT64_MIN : Z := - 2 ^ 63.
Definition INT64_MAX : Z := 2 ^ 63 - 1.

Definition in_int (v : Z) : Prop := INT_MIN <= v <= INT_MAX.
Definition in_int64 (v : Z) : Prop := INT64_MIN <= v <= INT64_MAX.

Definition bool_to_Z (b : bool) : Z := if b then 1 else 0.

(** ** The syntax tree (vslc.h, nodetypes.h) *)

(** Modelled from the spec: the node kinds of nodetypes.h, which is not
    among the sources; the names are those the sources use. *)
Inductive node_type_t : Set :=
| LIST
| GLOBAL_DECLARATION
| ARRAY_INDEXING
| FUNCTION
| BLOCK
| RETURN_STATEMENT
| PRINT_STATEMENT
| ASSIGNMENT_STATEMENT
| IF_STATEMENT
| WHILE_STATEMENT
| BREAK_STATEMENT
| OPERATOR
| IDENTIFIER
| NUMBER_LITERAL
| STRING_LITERAL
| STRING_LIST_REFERENCE
| FUNCTION_CALL.

Definition node_type_eqb (a b : node_type_t) : bool :=
  match a, b with
  | LIST, LIST | GLOBAL_DECLARATION, GLOBAL_DECLARATION
  | ARRAY_INDEXING, ARRAY_INDEXING | FUNCTION, FUNCTION | BLOCK, BLOCK
  | RETURN_STATEMENT, RETURN_STATEMENT | PRINT_STATEMENT, PRINT_STATEMENT
  | ASSIGNMENT_STATEMENT, ASSIGNMENT_STATEMENT | IF_STATEMENT, IF_STATEMENT
  | WHILE_STATEMENT, WHILE_STATEMENT | BREAK_STATEMENT, BREAK_STATEMENT
  | OPERATOR, OPERATOR | IDENTIFIER, IDENTIFIER
  | NUMBER_LITERAL, NUMBER_LITERAL | STRING_LITERAL, STRING_LITERAL
  | STRING_LIST_REFERENCE, STRING_LIST_REFERENCE
  | FUNCTION_CALL, FUNCTION_CALL => true
  | _, _ => false
  end.

(** Modelled from the spec: the [data] union of [node_t], declared in a
    header that is not among the sources; one variant per member the sources
    read.  [no_data] is the zero-initialised union of a node that carries no
    payload. *)
Inductive node_data : Set :=
| no_data
| operator (op : string)
| identifier (id : string)
| number_literal (value : Z)
| string_literal (text : string)
| string_list_index (index : nat).

(** Modelled from the spec: the symbol kinds of the symbol table header,
    which is not among the sources. *)
Inductive symtype_t : Set :=
| SYMBOL_GLOBAL_VAR
| SYMBOL_GLOBAL_ARRAY
| SYMBOL_FUNCTION
| SYMBOL_PARAMETER
| SYMBOL_LOCAL_VAR.

Definition symtype_eqb (a b : symtype_t) : bool :=
  match a, b with
  | SYMBOL_GLOBAL_VAR, SYMBOL_GLOBAL_VAR
  | SYMBOL_GLOBAL_ARRAY, SYMBOL_GLOBAL_ARRAY
  | SYMBOL_FUNCTION, SYMBOL_FUNCTION
  | SYMBOL_PARAMETER, SYMBOL_PARAMETER
  | SYMBOL_LOCAL_VAR, SYMBOL_LOCAL_VAR => true
  | _, _ => false
  end.

(** Modelled from the spec: [symbol_t], declared in a header that is not
    among the sources, with the fields the sources read.  The C struct also
    holds a pointer back to the declaring node; the code embedded here
    follows that pointer for one thing only, the length of a function's
    parameter list ([FUNC_PARAM_COUNT]), so the record keeps that length in
    its place. *)
Record symbol_t : Set := mk_symbol {
  sym_type : symtype_t;
  sym_name : string;
  sequence_number : nat;
  sym_node_params : nat
}.

(** Modelled from the spec: [node_t], declared in a header that is not
    among the sources, with the fields the sources read.  A value of this
    type is a [node_t*]: either the null pointer or a node with its type,
    payload, bound symbol and ordered children. *)
#[warnings="-register-all"]
Inductive node_t : Set :=
| NULL
| Node (type : node_type_t) (data : node_data)
       (symbol : option symbol_t) (children : list node_t).

(** [node_create(type, n, ...)]: payload zeroed, no symbol. *)
Definition node_create (type : node_type_t) (children : list node_t) : node_t :=
  Node type no_data None children.

Definition with_number_literal (n : node_t) (v : Z) : node_t :=
  match n with
  | NULL => NULL
  | Node t _ s c => Node t (number_literal v) s c
  end.

(** Induction over trees, with the hypothesis for every child. *)
Section node_induction.
Variable P : node_t -> Prop.
Hypothesis P_NULL : P NULL.
Hypothesis P_Node : forall type data symbol children,
    Forall P children -> P (Node type data symbol children).

Fixpoint node_t_ind' (n : node_t) : P n :=
  match n with
  | NULL => P_NULL
  | Node type data symbol children =>
      P_Node type data symbol children
        ((fix all (l : list node_t) : Forall P l :=
            match l with
            | [] => @List.Forall_nil _ P
            | c :: r => @List.Forall_cons _ P c r (node_t_ind' c) (all r)
            end) children)
  end.
End node_induction.

(** ** Constant folding (tree.c) *)

Module Tree.

(** [operation_func] is a pointer to a function from two [int] to [int]:
    both operands arrive as [int]; the result is read back as an [int].  [None] stands for
    an operation C leaves undefined and the processor traps on. *)
Definition operation_func : Type := Z -> Z -> option Z.

Definition add : operation_func := fun a b => Some (to_int (a + b)).
Definition subtract : operation_func := fun a b => Some (to_int (a - b)).
Definition multiply : operation_func := fun a b => Some (to_int (a * b)).
Definition divide : operation_func := fun a b =>
  if (b =? 0) || ((a =? INT_MIN) && (b =? -1)) then None
  else Some (to_int (Z.quot a b)).
Definition equal : operation_func := fun a b => Some (bool_to_Z (a =? b)).
Definition not_equal : operation_func := fun a b => Some (bool_to_Z (negb (a =? b))).
Definition less_than : operation_func := fun a b => Some (bool_to_Z (a <? b)).
Definition less_than_or_equal : operation_func := fun a b => Some (bool_to_Z (a <=? b)).
Definition greater_than : operation_func := fun a b => Some (bool_to_Z (a >? b)).
Definition greater_than_or_equal : operation_func := fun a b => Some (bool_to_Z (a >=? b)).
Definition negate : operation_func := fun a _ => Some (to_int (- a)).
Definition not : operation_func := fun a _ => Some (bool_to_Z (a =? 0)).

Record operator_mapping_t : Type := mk_mapping {
  mapping_operator : string;
  n_operands : nat;
  func : operation_func
}.

Definition operator_to_func_table : list operator_mapping_t :=
  [ mk_mapping "+" 2 add;
    mk_mapping "-" 2 subtract;
    mk_mapping "*" 2 multiply;
    mk_mapping "/" 2 divide;
    mk_mapping "==" 2 equal;
    mk_mapping "!=" 2 not_equal;
    mk_mapping "<" 2 less_than;
    mk_mapping "<=" 2 less_than_or_equal;
    mk_mapping ">" 2 greater_than;
    mk_mapping ">=" 2 greater_than_or_equal;
    mk_mapping "-" 1 negate;
    mk_mapping "!" 1 not ].

Definition get_operator_func (op : string) (n : nat) : option operation_func :=
  match List.find (fun m => String.eqb (mapping_operator m) op && Nat.eqb (n_operands m) n)
                  operator_to_func_table with
  | Some m => Some (func m)
  | None => None
  end.

(** The first loop of [constant_fold_operator]: [Some true] when every
    child is a NUMBER_LITERAL, [Some false] at the first child of another
    type, [None] when a null child is dereferenced on the way. *)
Fixpoint all_number_literals (children : list node_t) : option bool :=
  match children with
  | [] => Some true
  | NULL :: _ => None
  | Node t _ _ _ :: rest =>
      if node_type_eqb t NUMBER_LITERAL then all_number_literals rest else Some false
  end.

(** [child->data.number_literal] *)
Definition number_literal_of (n : node_t) : option Z :=
  match n with
  | Node _ (number_literal v) _ _ => Some v
  | _ => None
  end.

(** All three folders return [None] where the C code reads through a null
    pointer, past the end of the child array, trips its [assert], or
    performs an undefined division. *)
Definition constant_fold_operator (node : node_t) : option node_t :=
  match node with
  | NULL => None
  | Node type data _ children =>
      if negb (node_type_eqb type OPERATOR) then None else
      match all_number_literals children with
      | None => None
      | Some false => Some node
      | Some true =>
          match data, children with
          | operator op, c0 :: rest =>
              match number_literal_of c0 with
              | None => None
              | Some value1 =>
                  match (match rest with
                         | [] => Some 0
                         | c1 :: _ => number_literal_of c1
                         end) with
                  | None => None
                  | Some value2 =>
                      match get_operator_func op (length children) with
                      | None => Some node
                      | Some f =>
                          match f (to_int value1) (to_int value2) with
                          | None => None
                          | Some new_value =>
                              Some (with_number_literal (node_create NUMBER_LITERAL []) new_value)
                          end
                      end
                  end
              end
          | _, _ => None
          end
      end
  end.

Definition constant_fold_if (node : node_t) : option node_t :=
  match node with
  | Node IF_STATEMENT _ _ (condition_node :: rest) =>
      match condition_node with
      | NULL => None
      | Node ctype cdata _ _ =>
          if negb (node_type_eqb ctype NUMBER_LITERAL) then Some node else
          match cdata with
          | number_literal condition =>
              if negb (condition =? 0) then
                match rest with
                | then_branch :: _ => Some then_branch
                | [] => None
                end
              else
                match rest with
                | _ :: else_branch :: _ => Some else_branch
                | _ => Some NULL
                end
          | _ => None
          end
      end
  | _ => None
  end.

Definition constant_fold_while (node : node_t) : option node_t :=
  match node with
  | Node WHILE_STATEMENT _ _ (condition_node :: _) =>
      match condition_node with
      | NULL => None
      | Node ctype cdata _ _ =>
          if negb (node_type_eqb ctype NUMBER_LITERAL) then Some node else
          match cdata with
          | number_literal condition =>
              if condition =? 0 then Some NULL else Some node
          | _ => None
          end
      end
  | _ => None
  end.

(** A loop that replaces each child by what [f] returns for it. *)
Fixpoint for_each_child (f : node_t -> option node_t) (children : list node_t)
    : option (list node_t) :=
  match children with
  | [] => Some []
  | child :: rest =>
      match f child with
      | None => None
      | Some child' =>
          match for_each_child f rest with
          | None => None
          | Some rest' => Some (child' :: rest')
          end
      end
  end.

Fixpoint constant_fold_subtree (node : node_t) : option node_t :=
  match node with
  | NULL => Some NULL
  | Node type data symbol children =>
      match for_each_child
              (fun child =>
                 match child with
                 | NULL => Some NULL
                 | Node _ _ _ _ => constant_fold_subtree child
                 end) children with
      | None => None
      | Some children' =>
          let node' := Node type data symbol children' in
          match type with
          | OPERATOR => constant_fold_operator node'
          | IF_STATEMENT => constant_fold_if node'
          | WHILE_STATEMENT => constant_fold_while node'
          | _ => Some node'
          end
      end
  end.

(** *** Unreachable-code removal

    The C function mutates the tree in place and returns a flag; here it
    returns the flag together with the tree it leaves behind.  [None]: the
    C code reads past the child array or through a null pointer. *)

(** The loop over the statements of a BLOCK.  At the first statement for
    which [ruc] answers true, [n_children] is cut to end there. *)
Fixpoint scan_statements (ruc : node_t -> option (bool * node_t))
    (statements : list node_t) : option (bool * list node_t) :=
  match statements with
  | [] => Some (false, [])
  | statement :: rest =>
      match ruc statement with
      | None => None
      | Some (true, statement') => Some (true, [statement'])
      | Some (false, statement') =>
          match scan_statements ruc rest with
          | None => None
          | Some (b, rest') => Some (b, statement' :: rest')
          end
      end
  end.

(** [node->children[node->n_children - 1]], worked on in place. *)
Fixpoint on_last_child {A : Type} (f : node_t -> option (A * node_t))
    (children : list node_t) : option (A * list node_t) :=
  match children with
  | [] => None
  | last_child :: [] =>
      match f last_child with
      | None => None
      | Some (a, last_child') => Some (a, [last_child'])
      end
  | child :: rest =>
      match on_last_child f rest with
      | None => None
      | Some (a, rest') => Some (a, child :: rest')
      end
  end.

Fixpoint remove_unreachable_code (node : node_t) : option (bool * node_t) :=
  match node with
  | NULL => Some (false, NULL)
  | Node type data symbol children =>
      match type with
      | RETURN_STATEMENT | BREAK_STATEMENT => Some (true, node)
      | IF_STATEMENT =>
          match children with
          | [condition; then_branch] =>
              match remove_unreachable_code then_branch with
              | None => None
              | Some (_, then') => Some (false, Node type data symbol [condition; then'])
              end
          | condition :: then_branch :: else_branch :: rest =>
              match remove_unreachable_code then_branch with
              | None => None
              | Some (then_interrupts, then') =>
                  match remove_unreachable_code else_branch with
                  | None => None
                  | Some (else_interrupts, else') =>
                      Some (then_interrupts && else_interrupts,
                            Node type data symbol (condition :: then' :: else' :: rest))
                  end
              end
          | _ => None
          end
      | WHILE_STATEMENT =>
          match children with
          | condition :: body :: rest =>
              match remove_unreachable_code body with
              | None => None
              | Some (_, body') => Some (false, Node type data symbol (condition :: body' :: rest))
              end
          | _ => None
          end
      | BLOCK =>
          match on_last_child
                  (fun statement_list =>
                     match statement_list with
                     | NULL => None
                     | Node ltype ldata lsymbol statements =>
                         match scan_statements remove_unreachable_code statements with
                         | None => None
                         | Some (b, statements') =>
                             Some (b, Node ltype ldata lsymbol statements')
                         end
                     end) children with
          | None => None
          | Some (b, children') => Some (b, Node type data symbol children')
          end
      | _ => Some (false, node)
      end
  end.

(** The block built around a body that may run off its end. *)
Definition zero_node : node_t := with_number_literal (node_create NUMBER_LITERAL []) 0.

Definition wrap_function_body (function_body : node_t) : node_t :=
  let return_node := node_create RETURN_STATEMENT [zero_node] in
  let statement_list := node_create LIST [function_body; return_node] in
  node_create BLOCK [statement_list].

(** One turn of the loop of [remove_unreachable_code_syntax_tree]. *)
Definition remove_unreachable_code_function (child : node_t) : option node_t :=
  match child with
  | NULL => None
  | Node type data symbol children =>
      if negb (node_type_eqb type FUNCTION) then Some child else
      match children with
      | name :: parameters :: function_body :: rest =>
          match remove_unreachable_code function_body with
          | None => None
          | Some (has_return, function_body') =>
              let new_function_body :=
                if has_return then function_body' else wrap_function_body function_body' in
              Some (Node type data symbol (name :: parameters :: new_function_body :: rest))
          end
      | _ => None
      end
  end.

Definition remove_unreachable_code_syntax_tree (root : node_t) : option node_t :=
  match root with
  | NULL => None
  | Node type data symbol children =>
      match for_each_child remove_unreachable_code_function children with
      | None => None
      | Some children' => Some (Node type data symbol children')
      end
  end.

End Tree.

(** ** Symbol tables and name binding (symbols.c) *)

Module Symbols.

(** Modelled from the spec: [symbol_hashmap_t] of the symbol table header,
    which is not among the sources; one scope map with its [backup] link to
    the map of the enclosing scope. *)
#[warnings="-register-all"]
Inductive symbol_hashmap_t : Type :=
| Hashmap (entries : gmap string symbol_t) (backup : option symbol_hashmap_t).

Definition entries (h : symbol_hashmap_t) : gmap string symbol_t :=
  match h with Hashmap e _ => e end.

Definition backup (h : symbol_hashmap_t) : option symbol_hashmap_t :=
  match h with Hashmap _ b => b end.

(** Modelled from the spec: [symbol_table_t] of the symbol table header,
    which is not among the sources; the symbols in insertion order and the
    current scope map. *)
Record symbol_table_t : Type := mk_table {
  symbols : list symbol_t;
  hashmap : symbol_hashmap_t
}.

(** [table->n_symbols] *)
Definition n_symbols (table : symbol_table_t) : nat := length (symbols table).

(** Modelled from the spec: the result of [symbol_table_insert]. *)
Inductive insert_result_t : Set := INSERT_OK | INSERT_COLLISION.

(** Modelled from the spec: [symbol_hashmap_init] of symbol_table.c, which
    is not among the sources; a fresh scope map is empty and has no
    fallback. *)
Definition symbol_hashmap_init : symbol_hashmap_t := Hashmap ∅ None.

(** Modelled from the spec: [symbol_table_init] of symbol_table.c, which is
    not among the sources; a fresh table has no symbols and one empty scope
    map. *)
Definition symbol_table_init : symbol_table_t := mk_table [] symbol_hashmap_init.

(** Modelled from the spec: [symbol_table_insert] of symbol_table.c, which
    is not among the sources.  A name already present in the table's
    current scope map (the fallback maps are not consulted) is a collision
    and leaves the table as it was; otherwise the symbol receives the next
    sequence number of the table, is appended to the table's symbol list
    and entered in the current scope map. *)
Definition symbol_table_insert (table : symbol_table_t) (symbol : symbol_t)
    : insert_result_t * symbol_table_t * symbol_t :=
  match entries (hashmap table) !! sym_name symbol with
  | Some _ => (INSERT_COLLISION, table, symbol)
  | None =>
      let symbol' := mk_symbol (sym_type symbol) (sym_name symbol)
                               (n_symbols table) (sym_node_params symbol) in
      (INSERT_OK,
       mk_table (symbols table ++ [symbol'])
                (Hashmap (<[sym_name symbol := symbol']> (entries (hashmap table)))
                         (backup (hashmap table))),
       symbol')
  end.

(** Modelled from the spec: [symbol_hashmap_lookup] of symbol_table.c, which
    is not among the sources.  The lookup walks the fallback links until the
    name is found or the chain ends. *)
Fixpoint symbol_hashmap_lookup (h : symbol_hashmap_t) (name : string) : option symbol_t :=
  match h with
  | Hashmap e b =>
      match e !! name with
      | Some symbol => Some symbol
      | None =>
          match b with
          | Some fallback => symbol_hashmap_lookup fallback name
          | None => None
          end
      end
  end.

(** [node->children[1]->n_children], what [FUNC_PARAM_COUNT] reads through
    a symbol's node. *)
Definition node_param_count (node : node_t) : nat :=
  match node with
  | Node _ _ _ (_ :: Node _ _ _ parameters :: _) => length parameters
  | _ => 0%nat
  end.

(** [create_symbol]: the new symbol, or [None] for the null pointer returned
    on a collision, and the table afterwards. *)
Definition create_symbol (symbol_node : node_t) (name : string)
    (symbol_type : symtype_t) (symbol_table : symbol_table_t)
    : option symbol_t * symbol_table_t :=
  let symbol := mk_symbol symbol_type name 0 (node_param_count symbol_node) in
  match symbol_table_insert symbol_table symbol with
  | (INSERT_COLLISION, table', _) => (None, table')
  | (INSERT_OK, table', symbol') => (Some symbol', table')
  end.

(** The ways binding stops the compiler: the three [exit(EXIT_FAILURE)]
    paths and a read through a null or dangling pointer. *)
Inductive fatal_t : Set :=
| WRONG_FORMAT
| COLLISION
| UNRESOLVED
| CRASH.

(** What a binding step returns: its result, or the reason the compiler
    stopped. *)
Inductive result (A : Type) : Type :=
| Ok (a : A)
| Fatal (e : fatal_t).
Arguments Ok {A} a.
Arguments Fatal {A} e.

#[global] Instance result_bind : MBind result := fun A B k r =>
  match r with
  | Ok a => k a
  | Fatal e => Fatal e
  end.

(** [node->data.identifier] *)
Definition identifier_of (node : node_t) : result string :=
  match node with
  | Node _ (identifier name) _ _ => Ok name
  | _ => Fatal CRASH
  end.

(** What binding reads and writes: the function's table and the global
    string list. *)
Record bind_state : Type := mk_state {
  local_symbols : symbol_table_t;
  string_list : list string
}.

(** [local_symbols->hashmap = h] *)
Definition set_hashmap (st : bind_state) (h : symbol_hashmap_t) : bind_state :=
  mk_state (mk_table (symbols (local_symbols st)) h) (string_list st).

(** [add_string]: the index of the string and the list afterwards. *)
Definition add_string (strings : list string) (s : string) : nat * list string :=
  (length strings, strings ++ [s]).

(** The inner declaration loop of a BLOCK: one list of IDENTIFIERs. *)
Fixpoint declare_identifiers (block : node_t) (table : symbol_table_t)
    (identifiers : list node_t) : result symbol_table_t :=
  match identifiers with
  | [] => Ok table
  | identifier_node :: rest =>
      name ← identifier_of identifier_node;
      match create_symbol block name SYMBOL_LOCAL_VAR table with
      | (None, _) => Fatal COLLISION
      | (Some _, table') => declare_identifiers block table' rest
      end
  end.

(** The outer declaration loop of a BLOCK: the list of declaration lists. *)
Fixpoint declare_lists (block : node_t) (table : symbol_table_t)
    (lists : list node_t) : result symbol_table_t :=
  match lists with
  | [] => Ok table
  | NULL :: _ => Fatal CRASH
  | Node _ _ _ identifiers :: rest =>
      table' ← declare_identifiers block table identifiers;
      declare_lists block table' rest
  end.

(** A loop that binds each child in turn. *)
Fixpoint bind_children (bind_one : bind_state -> node_t -> result (bind_state * node_t))
    (st : bind_state) (children : list node_t) : result (bind_state * list node_t) :=
  match children with
  | [] => Ok (st, [])
  | child :: rest =>
      '(st1, child') ← bind_one st child;
      '(st2, rest') ← bind_children bind_one st1 rest;
      Ok (st2, child' :: rest')
  end.

Fixpoint bind_names (st : bind_state) (node : node_t) {struct node}
    : result (bind_state * node_t) :=
  match node with
  | NULL => Ok (st, NULL)
  | Node type data symbol children =>
      let scope_hashmap := hashmap (local_symbols st) in
      match type with
      | BLOCK =>
          let new_hashmap := Hashmap ∅ (Some scope_hashmap) in
          let st0 := set_hashmap st new_hashmap in
          '(st', children') ←
            (match children with
            | [first_child; second_child] =>
                match first_child with
                | NULL => Fatal CRASH
                | Node _ _ _ identifier_lists =>
                    table' ← declare_lists node (local_symbols st0) identifier_lists;
                    '(st2, rest') ←
                      bind_children bind_names (mk_state table' (string_list st0))
                                    [second_child];
                    Ok (st2, first_child :: rest')
                end
            | _ => bind_children bind_names st0 children
            end);
          Ok (set_hashmap st' scope_hashmap, Node type data symbol children')
      | IDENTIFIER =>
          name ← identifier_of node;
          match symbol_hashmap_lookup scope_hashmap name with
          | None => Fatal UNRESOLVED
          | Some lookup_symbol => Ok (st, Node type data (Some lookup_symbol) children)
          end
      | STRING_LITERAL =>
          match data with
          | string_literal string =>
              let (index, strings') := add_string (string_list st) string in
              Ok (mk_state (local_symbols st) strings',
                  Node STRING_LIST_REFERENCE (string_list_index index) symbol children)
          | _ => Fatal CRASH
          end
      | _ =>
          '(st', children') ← bind_children bind_names st children;
          Ok (st', Node type data symbol children')
      end
  end.

(** The parameter loop of [create_tables]. *)
Fixpoint create_parameters (table : symbol_table_t) (parameters : list node_t)
    : result symbol_table_t :=
  match parameters with
  | [] => Ok table
  | NULL :: _ => Fatal CRASH
  | (Node type _ _ _ as parameter_node) :: rest =>
      if negb (node_type_eqb type IDENTIFIER) then Fatal WRONG_FORMAT else
      name ← identifier_of parameter_node;
      match create_symbol parameter_node name SYMBOL_PARAMETER table with
      | (None, _) => Fatal COLLISION
      | (Some _, table') => create_parameters table' rest
      end
  end.

(** The body of the loop of [create_tables] for one SYMBOL_FUNCTION symbol:
    [function_symtable] is the symbol's table, [function_node] its node. *)
Definition create_function_table (function_symtable : symbol_table_t)
    (strings : list string) (function_node : node_t)
    : result (bind_state * node_t) :=
  match function_node with
  | NULL => Fatal CRASH
  | Node type data symbol children =>
      match children with
      | name :: parameter_list_node :: block_node :: rest =>
          match parameter_list_node with
          | NULL => Fatal CRASH
          | Node _ _ _ parameters =>
              table ← create_parameters function_symtable parameters;
              '(st, block') ← bind_names (mk_state table strings) block_node;
              Ok (st, Node type data symbol (name :: parameter_list_node :: block' :: rest))
          end
      | [_; _] => Fatal WRONG_FORMAT
      | _ => Fatal CRASH
      end
  end.

(** The table [find_globals] makes for a function: empty, with the global
    scope map as the fallback of its scope map. *)
Definition function_symtable_init (global_symbols : symbol_table_t) : symbol_table_t :=
  mk_table [] (Hashmap ∅ (Some (hashmap global_symbols))).

End Symbols.

(** ** Code generation (generator.c) *)

Module Generator.

(** Modelled from the spec: the register names of emit.h, which is not
    among the sources, and string literals used as operands. *)
Inductive operand : Set :=
| RAX | RCX | RDX | RSI | RDI | R8 | R9 | RBP | RSP | RIP | AL
| literal (text : string).

(** An argument of a printf-style [EMIT] or [LABEL]. *)
Inductive emit_arg : Set :=
| arg_operand (o : operand)
| arg_int (v : Z)
| arg_string (s : string).

(** Modelled from the spec: the macros of emit.h, which is not among the
    sources.  One line of emitted assembly: an instruction macro with its
    operands, or [EMIT] / [LABEL] with their format string and arguments. *)
Inductive asm_line : Set :=
| EMIT (format : string) (args : list emit_arg)
| LABEL (format : string) (args : list emit_arg)
| PUSHQ (o : operand)
| POPQ (o : operand)
| MOVQ (src dst : operand)
| ADDQ (src dst : operand)
| SUBQ (src dst : operand)
| IMULQ (src dst : operand)
| CQO
| IDIVQ (o : operand)
| CMPQ (a b : operand)
| SETL (o : operand)
| SETLE (o : operand)
| SETG (o : operand)
| SETGE (o : operand)
| SETE (o : operand)
| SETNE (o : operand)
| MOVZBQ (src dst : operand)
| NEGQ (o : operand)
| RET.

Definition NUM_REGISTER_PARAMS : nat := 6.
Definition REGISTER_PARAMS : list operand := [RDI; RSI; RDX; RCX; R8; R9].

Definition FUNC_PARAM_COUNT (func : symbol_t) : nat := sym_node_params func.

Definition find_max (a b : nat) : nat := if (b <? a)%nat then a else b.
Definition find_min (a b : nat) : nat := if (a <? b)%nat then a else b.

(** [size_t] arithmetic is modulo 2^64; the result is stored in an [int]. *)
Definition to_size_t (v : Z) : Z := v mod 2 ^ 64.

Definition get_stack_offset (current_function : symbol_t) (sequence_number : nat) : Z :=
  let param_count := FUNC_PARAM_COUNT current_function in
  if (sequence_number <? param_count)%nat then
    if (5 <? sequence_number)%nat then
      to_int (to_size_t ((Z.of_nat sequence_number - 5) * 8 + 8))
    else
      to_int (to_size_t ((Z.of_nat sequence_number + 1) * (-8)))
  else
    let num_of_callee_pushed_params := find_max param_count NUM_REGISTER_PARAMS in
    to_int (to_size_t
      ((Z.of_nat num_of_callee_pushed_params
        + (Z.of_nat sequence_number - Z.of_nat param_count) + 1) * (-8))).

Definition identifier_of (node : node_t) : option string :=
  match node with
  | Node _ (identifier name) _ _ => Some name
  | _ => None
  end.

Definition operator_of (node : node_t) : option string :=
  match node with
  | Node _ (operator op) _ _ => Some op
  | _ => None
  end.

Definition symbol_of (node : node_t) : option symbol_t :=
  match node with
  | Node _ _ symbol _ => symbol
  | NULL => None
  end.

(** The argument loop of [generate_function_call]: last argument first. *)
Fixpoint generate_arguments (generate : node_t -> option (list asm_line))
    (arguments : list node_t) : option (list asm_line) :=
  match arguments with
  | [] => Some []
  | param_node :: rest =>
      rest_code ← generate_arguments generate rest;
      code ← generate param_node;
      Some (rest_code ++ code ++ [PUSHQ RAX])
  end.

(** [generate_function_call], over the expression generator it calls.
    [None]: a null or missing child, a call through an unbound identifier,
    or a failed [assert]. *)
Definition generate_function_call_with (generate : node_t -> option (list asm_line))
    (call : node_t) : option (list asm_line) :=
  match call with
  | Node _ _ _ (identifier_node :: parameter_list_node :: _) =>
      function_identifier_symbol ← symbol_of identifier_node;
      if negb (symtype_eqb (sym_type function_identifier_symbol) SYMBOL_FUNCTION) then None else
      let param_count := FUNC_PARAM_COUNT function_identifier_symbol in
      match parameter_list_node with
      | NULL => None
      | Node _ _ _ arguments =>
          argument_code ← generate_arguments generate arguments;
          let number_of_params_for_registers := find_min param_count NUM_REGISTER_PARAMS in
          Some (argument_code
                ++ map POPQ (take number_of_params_for_registers REGISTER_PARAMS)
                ++ [EMIT "call .%s" [arg_string (sym_name function_identifier_symbol)]])
      end
  | _ => None
  end.

(** The tail of a binary OPERATOR once both sides are evaluated. *)
Definition binary_operation (op : string) : option (list asm_line) :=
  if String.eqb op "+" then Some [ADDQ RCX RAX]
  else if String.eqb op "-" then Some [SUBQ RAX RCX; MOVQ RCX RAX]
  else if String.eqb op "*" then Some [IMULQ RCX RAX]
  else if String.eqb op "/" then Some [CQO; MOVQ RAX R8; MOVQ RCX RAX; IDIVQ R8]
  else
    set ← (if String.eqb op "<" then Some (SETL AL)
           else if String.eqb op "<=" then Some (SETLE AL)
           else if String.eqb op ">" then Some (SETG AL)
           else if String.eqb op ">=" then Some (SETGE AL)
           else if String.eqb op "==" then Some (SETE AL)
           else if String.eqb op "!=" then Some (SETNE AL)
           else None);
    Some [CMPQ RAX RCX; set; MOVZBQ AL RAX].

Definition unary_operation (op : string) : option (list asm_line) :=
  if String.eqb op "-" then Some [NEGQ RAX]
  else if String.eqb op "!" then
    Some [EMIT "test %s, %s" [arg_operand RAX; arg_operand RAX]; SETE AL; MOVZBQ AL RAX]
  else None.

Fixpoint generate_expression (current_function : symbol_t) (expression : node_t)
    {struct expression} : option (list asm_line) :=
  match expression with
  | NULL => Some []
  | Node type data symbol children =>
      match type with
      | NUMBER_LITERAL =>
          match data with
          | number_literal value =>
              Some [EMIT "movq $%d, %s" [arg_int (to_int value); arg_operand RAX]]
          | _ => None
          end
      | IDENTIFIER =>
          identifier_symbol ← symbol;
          if symtype_eqb (sym_type identifier_symbol) SYMBOL_GLOBAL_VAR then
            name ← identifier_of expression;
            Some [EMIT "movq .%s(%s), %s" [arg_string name; arg_operand RIP; arg_operand RAX]]
          else
            let offset := get_stack_offset current_function (sequence_number identifier_symbol) in
            Some [EMIT "movq %d(%s), %s" [arg_int offset; arg_operand RBP; arg_operand RAX]]
      | ARRAY_INDEXING =>
          match children with
          | array_identifier_node :: index_node :: _ =>
              index_code ← generate_expression current_function index_node;
              name ← identifier_of array_identifier_node;
              Some ([PUSHQ RCX] ++ index_code
                    ++ [EMIT "leaq .%s(%s), %s" [arg_string name; arg_operand RIP; arg_operand RCX];
                        EMIT "leaq (%s, %s, 8), %s" [arg_operand RCX; arg_operand RAX; arg_operand RCX];
                        EMIT "movq (%s), %s" [arg_operand RCX; arg_operand RAX];
                        POPQ RCX])
          | _ => None
          end
      | OPERATOR =>
          match children with
          | lhs :: rhs :: _ =>
              lhs_code ← generate_expression current_function lhs;
              rhs_code ← generate_expression current_function rhs;
              op ← operator_of expression;
              operation ← binary_operation op;
              Some (lhs_code ++ [PUSHQ RAX] ++ rhs_code ++ [POPQ RCX] ++ operation)
          | [operand_node] =>
              code ← generate_expression current_function operand_node;
              op ← operator_of expression;
              operation ← unary_operation op;
              Some (code ++ operation)
          | [] => None
          end
      | FUNCTION_CALL =>
          generate_function_call_with (generate_expression current_function) expression
      | _ => Some []
      end
  end.

Definition generate_function_call (current_function : symbol_t) (call : node_t)
    : option (list asm_line) :=
  generate_function_call_with (generate_expression current_function) call.

Definition generate_assignment_statement (current_function : symbol_t) (statement : node_t)
    : option (list asm_line) :=
  match statement with
  | Node _ _ _ (left_side :: right_side :: _) =>
      rhs_code ← generate_expression current_function right_side;
      match left_side with
      | NULL => None
      | Node ltype _ lsymbol lchildren =>
          if node_type_eqb ltype IDENTIFIER then
            identifier_symbol ← lsymbol;
            if symtype_eqb (sym_type identifier_symbol) SYMBOL_GLOBAL_VAR then
              Some (rhs_code
                    ++ [EMIT "movq %s, .%s(%s)"
                          [arg_operand RAX; arg_string (sym_name identifier_symbol); arg_operand RIP]])
            else
              let offset := get_stack_offset current_function (sequence_number identifier_symbol) in
              Some (rhs_code
                    ++ [EMIT "movq %s, %d(%s)" [arg_operand RAX; arg_int offset; arg_operand RBP]])
          else if negb (node_type_eqb ltype ARRAY_INDEXING) then None
          else
            match lchildren with
            | array_identifier_node :: index_node :: _ =>
                index_code ← generate_expression current_function index_node;
                array_identifier_symbol ← symbol_of array_identifier_node;
                Some (rhs_code ++ [PUSHQ RAX] ++ index_code
                      ++ [PUSHQ RAX;
                          EMIT "leaq .%s(%s), %s"
                            [arg_string (sym_name array_identifier_symbol); arg_operand RIP; arg_operand RCX];
                          POPQ RAX;
                          EMIT "leaq (%s, %s, 8), %s" [arg_operand RCX; arg_operand RAX; arg_operand RCX];
                          POPQ RAX;
                          EMIT "movq %s, (%s)" [arg_operand RAX; arg_operand RCX]])
            | _ => None
            end
      end
  | _ => None
  end.

(** The loop of [generate_print_statement] over the printed items. *)
Fixpoint generate_print_items (current_function : symbol_t) (items : list node_t)
    : option (list asm_line) :=
  match items with
  | [] => Some []
  | NULL :: _ => None
  | (Node type data _ _ as child_node) :: rest =>
      item_code ←
        (if node_type_eqb type STRING_LIST_REFERENCE then
           match data with
           | string_list_index index =>
               Some [EMIT "leaq strout(%s), %s" [arg_operand RIP; arg_operand RDI];
                     EMIT "leaq string%ld(%s), %s"
                       [arg_int (Z.of_nat index); arg_operand RIP; arg_operand RSI]]
           | _ => None
           end
         else
           code ← generate_expression current_function child_node;
           Some (code ++ [EMIT "leaq intout(%s), %s" [arg_operand RIP; arg_operand RDI];
                          MOVQ RAX RSI]));
      rest_code ← generate_print_items current_function rest;
      Some (item_code ++ [EMIT "call safe_printf" []] ++ rest_code)
  end.

Definition generate_print_statement (current_function : symbol_t) (statement : node_t)
    : option (list asm_line) :=
  match statement with
  | Node _ _ _ (Node _ _ _ items :: _) =>
      items_code ← generate_print_items current_function items;
      Some (items_code ++ [MOVQ (literal "$0x0A") RDI; EMIT "call putchar" []])
  | _ => None
  end.

Definition generate_return_statement (current_function : symbol_t) (statement : node_t)
    : option (list asm_line) :=
  match statement with
  | Node _ _ _ (expression :: _) =>
      code ← generate_expression current_function expression;
      Some (code ++ [EMIT "jmp .%s.epilogue" [arg_string (sym_name current_function)]])
  | _ => None
  end.

(** The loop at the end of [generate_statement]. *)
Fixpoint generate_children (generate : node_t -> option (list asm_line))
    (children : list node_t) : option (list asm_line) :=
  match children with
  | [] => Some []
  | child :: rest =>
      code ← generate child;
      rest_code ← generate_children generate rest;
      Some (code ++ rest_code)
  end.

Fixpoint generate_statement (current_function : symbol_t) (node : node_t)
    {struct node} : option (list asm_line) :=
  match node with
  | NULL => Some []
  | Node type _ _ children =>
      own_code ←
        match type with
        | ASSIGNMENT_STATEMENT => generate_assignment_statement current_function node
        | PRINT_STATEMENT => generate_print_statement current_function node
        | RETURN_STATEMENT => generate_return_statement current_function node
        | FUNCTION_CALL => generate_function_call current_function node
        | _ => Some []
        end;
      children_code ← generate_children (generate_statement current_function) children;
      Some (own_code ++ children_code)
  end.

(** The function prologue: label, frame set-up, the register parameters and
    one zeroed slot per local variable of the function's table. *)
Definition generate_prologue (function : symbol_t) (function_symbols : list symbol_t)
    : list asm_line :=
  let no_of_params_to_push := find_min NUM_REGISTER_PARAMS (FUNC_PARAM_COUNT function) in
  [LABEL ".%s" [arg_string (sym_name function)]; PUSHQ RBP; MOVQ RSP RBP]
  ++ map PUSHQ (take no_of_params_to_push REGISTER_PARAMS)
  ++ flat_map (fun symbol =>
                 if symtype_eqb (sym_type symbol) SYMBOL_LOCAL_VAR
                 then [PUSHQ (literal "$0")] else [])
              function_symbols.

(** [generate_function]: [function_node] is [function->node] and
    [function_symbols] the symbols of [function->function_symtable]. *)
Definition generate_function (function : symbol_t) (function_node : node_t)
    (function_symbols : list symbol_t) : option (list asm_line) :=
  body ← generate_statement function function_node;
  Some (generate_prologue function function_symbols
        ++ body
        ++ [LABEL ".%s.epilogue" [arg_string (sym_name function)];
            MOVQ RBP RSP; POPQ RBP; RET]).

End Generator.

(** ** List nodes (tree.c) *)

Module TreeList.

(** The doubling loop of [append_to_list_node], in [size_t] arithmetic.
    After 64 doublings the size has wrapped to 0 and stays there, so a loop
    that has not ended within [fuel] = 65 turns never ends: [None]. *)
Fixpoint allocation_size_loop (fuel : nat) (new_allocation_size min_allocation_size : Z)
    : option Z :=
  if new_allocation_size <? min_allocation_size then
    match fuel with
    | O => None
    | S fuel' =>
        allocation_size_loop fuel' (Generator.to_size_t (new_allocation_size * 2))
                             min_allocation_size
    end
  else Some new_allocation_size.

Definition allocation_size (min_allocation_size : Z) : option Z :=
  allocation_size_loop 65 1 min_allocation_size.

(** The size of a pointer to a node, on the x86-64 target of the
    generator. *)
Definition sizeof_node_pointer : Z := 8.

(** [append_to_list_node]: the list node afterwards and the number of
    bytes [realloc] is asked for, the product with the pointer size being
    taken in [size_t]; [realloc] is taken to succeed.  [None]: the [assert]
    fails, the list node is null, the loop does not end, or the element is
    stored past the end of the allocation. *)
Definition append_to_list_node (list_node element : node_t) : option (node_t * Z) :=
  match list_node with
  | NULL => None
  | Node type data symbol children =>
      if negb (node_type_eqb type LIST) then None else
      let n_children := Z.of_nat (length children) in
      let min_allocation_size := Generator.to_size_t (n_children + 1) in
      new_allocation_size ← allocation_size min_allocation_size;
      let allocation := Generator.to_size_t (new_allocation_size * sizeof_node_pointer) in
      if (n_children + 1) * sizeof_node_pointer <=? allocation
      then Some (Node type data symbol (children ++ [element]), allocation)
      else None
  end.

End TreeList.

(** ** The global table and the driver of the binder (symbols.c) *)

Module Globals.
Import Symbols.

(** What [find_globals] leaves behind: the global table and, for every
    symbol of the table in order, where its [node] pointer leads, given as
    the index of the child of the root the node belongs to. *)
Record globals_t : Type := mk_globals {
  global_symbols : symbol_table_t;
  symbol_nodes : list nat
}.

(** The loop over one global declaration list; [index] is the position of
    the GLOBAL_DECLARATION among the children of the root. *)
Fixpoint declare_globals (index : nat) (globals : globals_t) (declarations : list node_t)
    : result globals_t :=
  match declarations with
  | [] => Ok globals
  | NULL :: _ => Fatal CRASH
  | (Node type _ _ children as declaration_list_child) :: rest =>
      if node_type_eqb type IDENTIFIER then
        name ← identifier_of declaration_list_child;
        match create_symbol declaration_list_child name SYMBOL_GLOBAL_VAR
                            (global_symbols globals) with
        | (None, _) => Fatal COLLISION
        | (Some _, table') =>
            declare_globals index (mk_globals table' (symbol_nodes globals ++ [index])) rest
        end
      else if node_type_eqb type ARRAY_INDEXING then
        match children with
        | [] => Fatal CRASH
        | array_identifier_node :: _ =>
            name ← identifier_of array_identifier_node;
            match create_symbol declaration_list_child name SYMBOL_GLOBAL_ARRAY
                                (global_symbols globals) with
            | (None, _) => Fatal COLLISION
            | (Some _, table') =>
                declare_globals index (mk_globals table' (symbol_nodes globals ++ [index])) rest
            end
        end
      else declare_globals index globals rest
  end.

(** The loop of [find_globals] over the children of the root, from child
    number [index] on. *)
Fixpoint find_globals_loop (index : nat) (globals : globals_t) (children : list node_t)
    : result globals_t :=
  match children with
  | [] => Ok globals
  | NULL :: _ => Fatal CRASH
  | (Node type _ _ node_children as global_child_node) :: rest =>
      match type with
      | GLOBAL_DECLARATION =>
          match node_children with
          | [] => Fatal WRONG_FORMAT
          | NULL :: _ => Fatal CRASH
          | Node _ _ _ declarations :: _ =>
              globals' ← declare_globals index globals declarations;
              find_globals_loop (S index) globals' rest
          end
      | FUNCTION =>
          match node_children with
          | [] => Fatal WRONG_FORMAT
          | function_identifier_node :: _ =>
              name ← identifier_of function_identifier_node;
              match create_symbol global_child_node name SYMBOL_FUNCTION
                                  (global_symbols globals) with
              | (None, _) => Fatal COLLISION
              | (Some _, table') =>
                  find_globals_loop (S index)
                    (mk_globals table' (symbol_nodes globals ++ [index])) rest
              end
          end
      | _ => find_globals_loop (S index) globals rest
      end
  end.

(** [find_globals]; the [assert] on the type of the root fails: CRASH. *)
Definition find_globals (root : node_t) : result globals_t :=
  match root with
  | NULL => Fatal CRASH
  | Node type _ _ children =>
      if negb (node_type_eqb type LIST) then Fatal CRASH
      else find_globals_loop 0 (mk_globals symbol_table_init []) children
  end.

(** The loop of [create_tables] over the global symbols.  Every function's
    table falls back on the one global scope map, which by now holds every
    global of the program. *)
Fixpoint create_tables_loop (globals : symbol_table_t) (entries : list (symbol_t * nat))
    (strings : list string) (children : list node_t)
    : result (list string * list node_t) :=
  match entries with
  | [] => Ok (strings, children)
  | (symbol, index) :: rest =>
      if symtype_eqb (sym_type symbol) SYMBOL_FUNCTION then
        match children !! index with
        | None => Fatal CRASH
        | Some function_node =>
            '(st, function_node') ←
              create_function_table (function_symtable_init globals) strings function_node;
            create_tables_loop globals rest (string_list st)
                               (<[index := function_node']> children)
        end
      else create_tables_loop globals rest strings children
  end.

(** [create_tables]: the global table, the string list, and the root with
    its function bodies bound. *)
Definition create_tables (root : node_t) : result (symbol_table_t * list string * node_t) :=
  globals ← find_globals root;
  match root with
  | NULL => Fatal CRASH
  | Node type data symbol children =>
      '(strings, children') ←
        create_tables_loop (global_symbols globals)
          (combine (symbols (global_symbols globals)) (symbol_nodes globals)) [] children;
      Ok (global_symbols globals, strings, Node type data symbol children')
  end.

(** The size of a pointer to a string, on the x86-64 target of the
    generator. *)
Definition sizeof_string_pointer : Z := 8.

(** The string list with its allocation: the strings stored so far
    ([string_list_len] is their number), [string_list_capacity], and the
    number of bytes the array [string_list] points to was last resized to
    (0 for the null pointer the list starts as). *)
Record string_list_t : Type := mk_string_list {
  stored_strings : list string;
  string_list_capacity : Z;
  string_list_bytes : Z
}.

(** [add_string] with the allocation: the index of the string and the list
    afterwards.  The products with the pointer size are taken in [size_t];
    [realloc] is taken to succeed.  [None]: the string is written past the
    end of the allocation. *)
Definition add_string_allocated (strings : string_list_t) (s : string)
    : option (nat * string_list_t) :=
  let string_list_len := Z.of_nat (length (stored_strings strings)) in
  let resize :=
    Generator.to_size_t (string_list_len + 1) >=? string_list_capacity strings in
  let capacity :=
    if resize then Generator.to_size_t (string_list_capacity strings * 2 + 8)
    else string_list_capacity strings in
  let bytes :=
    if resize then Generator.to_size_t (capacity * sizeof_string_pointer)
    else string_list_bytes strings in
  if (string_list_len + 1) * sizeof_string_pointer <=? bytes
  then Some (length (stored_strings strings),
             mk_string_list (stored_strings strings ++ [s]) capacity bytes)
  else None.

(** One call of [add_string] for each of [new_strings]. *)
Fixpoint add_strings (strings : string_list_t) (new_strings : list string) : option string_list_t :=
  match new_strings with
  | [] => Some strings
  | s :: rest =>
      match add_string_allocated strings s with
      | Some (_, strings') => add_strings strings' rest
      | None => None
      end
  end.

End Globals.

(** ** The program around the functions (generator.c) *)

Module Program.
Import Generator.

(** Modelled from the spec: the macros of emit.h, which is not among the
    sources, that the program around the functions uses beside those of
    [Generator.asm_line]. *)
Inductive program_line : Type :=
| Asm (line : asm_line)
| DIRECTIVE (format : string) (args : list emit_arg)
| JNE (label : string)
| ANDQ (src dst : operand).

(** Modelled from the spec: the section names and the symbol declarations
    of emit.h, which differ between Linux and macOS; kept by name. *)
Definition ASM_STRING_SECTION : emit_arg := arg_string "ASM_STRING_SECTION".
Definition ASM_BSS_SECTION : emit_arg := arg_string "ASM_BSS_SECTION".
Definition ASM_DECLARE_SYMBOLS : emit_arg := arg_string "ASM_DECLARE_SYMBOLS".

(** The double quote of the C format strings. *)
Definition quote : string := String (Ascii.ascii_of_nat 34) EmptyString.

(** The loop of [generate_stringtable], from string number [i] on. *)
Fixpoint generate_strings (i : nat) (string_list : list string) : list program_line :=
  match string_list with
  | [] => []
  | s :: rest =>
      DIRECTIVE "string%ld: .asciz %s" [arg_int (Z.of_nat i); arg_string s]
      :: generate_strings (S i) rest
  end.

Definition generate_stringtable (string_list : list string) : list program_line :=
  [ DIRECTIVE ".section %s" [ASM_STRING_SECTION];
    DIRECTIVE ("intout: .asciz " ++ quote ++ "%s" ++ quote) [arg_string "%ld"];
    DIRECTIVE ("strout: .asciz " ++ quote ++ "%s" ++ quote) [arg_string "%s"];
    DIRECTIVE ("errout: .asciz " ++ quote ++ "%s" ++ quote)
              [arg_string "Wrong number of arguments"] ]
  ++ generate_strings 0 string_list.

Definition generate_safe_printf : list program_line :=
  [ Asm (LABEL "safe_printf" []);
    Asm (PUSHQ RBP);
    Asm (MOVQ RSP RBP);
    ANDQ (literal "$-16") RSP;
    Asm (EMIT "call printf" []);
    Asm (MOVQ RBP RSP);
    Asm (POPQ RBP);
    Asm RET ].

(** [generate_main]: [argc] is [RDI] and [argv] is [RSI]. *)
Definition generate_main (first : symbol_t) : list program_line :=
  let argc := RDI in
  let argv := RSI in
  let expected_args := FUNC_PARAM_COUNT first in
  [ Asm (LABEL "main" []);
    Asm (PUSHQ RBP);
    Asm (MOVQ RSP RBP);
    Asm (SUBQ (literal "$1") argc);
    Asm (EMIT "cmpq $%ld, %s" [arg_int (Z.of_nat expected_args); arg_operand argc]);
    JNE "ABORT" ]
  ++ (if Nat.eqb expected_args 0 then []
      else
        [ Asm (EMIT "addq $%ld, %s"
                 [arg_int (to_size_t (Z.of_nat expected_args * 8)); arg_operand argv]);
          Asm (MOVQ argc RCX);
          Asm (LABEL "PARSE_ARGV" []);
          Asm (PUSHQ argv);
          Asm (PUSHQ RCX);
          Asm (EMIT "movq (%s), %s" [arg_operand argv; arg_operand RDI]);
          Asm (MOVQ (literal "$0") RSI);
          Asm (MOVQ (literal "$10") RDX);
          Asm (EMIT "call strtol" []);
          Asm (POPQ RCX);
          Asm (POPQ argv);
          Asm (PUSHQ RAX);
          Asm (SUBQ (literal "$8") argv);
          Asm (EMIT "loop PARSE_ARGV" []) ]
        ++ map (fun register => Asm (POPQ register))
               (take (Nat.min expected_args NUM_REGISTER_PARAMS) REGISTER_PARAMS))
  ++ [ Asm (EMIT "call .%s" [arg_string (sym_name first)]);
       Asm (MOVQ RAX RDI);
       Asm (EMIT "call exit" []);
       Asm (LABEL "ABORT" []);
       Asm (EMIT "leaq errout(%s), %s" [arg_operand RIP; arg_operand RDI]);
       Asm (EMIT "call puts" []);
       Asm (MOVQ (literal "$1") RDI);
       Asm (EMIT "call exit" []) ]
  ++ generate_safe_printf
  ++ [ DIRECTIVE "%s" [ASM_DECLARE_SYMBOLS] ].

Section program.

(** What the pointers of a global symbol lead to: [symbol->node] and the
    symbols of [symbol->function_symtable]. *)
Variable node_of : symbol_t -> node_t.
Variable symtable_of : symbol_t -> list symbol_t.

(** The loop of [generate_global_variables].  [None]: an array whose node
    has no second child, or one that holds no number. *)
Fixpoint generate_global_symbols (global_symbols : list symbol_t) : option (list program_line) :=
  match global_symbols with
  | [] => Some []
  | symbol :: rest =>
      if symtype_eqb (sym_type symbol) SYMBOL_FUNCTION then generate_global_symbols rest
      else
        no_of_bytes ←
          (if symtype_eqb (sym_type symbol) SYMBOL_GLOBAL_ARRAY then
             match node_of symbol with
             | Node _ _ _ (_ :: Node _ (number_literal no_of_elements) _ _ :: _) =>
                 Some (to_size_t (no_of_elements * 8))
             | _ => None
             end
           else Some 8);
        rest_code ← generate_global_symbols rest;
        Some (DIRECTIVE ".%s: .zero %ld" [arg_string (sym_name symbol); arg_int no_of_bytes]
              :: rest_code)
  end.

Definition generate_global_variables (global_symbols : list symbol_t)
    : option (list program_line) :=
  code ← generate_global_symbols global_symbols;
  Some ([DIRECTIVE ".section %s" [ASM_BSS_SECTION]; DIRECTIVE ".align 8" []] ++ code).

(** The loop of [generate_program] over the global symbols: the code of
    the functions, and [main_function] afterwards. *)
Fixpoint generate_functions (global_symbols : list symbol_t) (main_function : option symbol_t)
    : option (list asm_line * option symbol_t) :=
  match global_symbols with
  | [] => Some ([], main_function)
  | symbol :: rest =>
      if symtype_eqb (sym_type symbol) SYMBOL_FUNCTION then
        let main_function' :=
          match main_function with
          | None => Some symbol
          | Some _ => main_function
          end in
        code ← generate_function symbol (node_of symbol) (symtable_of symbol);
        '(rest_code, main_function'') ← generate_functions rest main_function';
        Some (code ++ rest_code, main_function'')
      else generate_functions rest main_function
  end.

(** [generate_program]; [None] also when the [assert] on [main_function]
    fails. *)
Definition generate_program (string_list : list string) (global_symbols : list symbol_t)
    : option (list program_line) :=
  globals_code ← generate_global_variables global_symbols;
  '(functions_code, main_function) ← generate_functions global_symbols None;
  first ← main_function;
  Some (generate_stringtable string_list
        ++ globals_code
        ++ [DIRECTIVE ".text" []]
        ++ map Asm functions_code
        ++ generate_main first).

End program.

End Program.

(** * Properties *)

(** ** Specification vocabulary for the tree passes *)

Module TreeSpec.
Import Tree.

(** A NUMBER_LITERAL leaf as [node_create] and the parser make it. *)
Definition lit (v : Z) : node_t := Node NUMBER_LITERAL (number_literal v) None [].

(** The operators on 64-bit integers, as the design document lists them:
    add, subtract, multiply, divide truncating toward zero, the relational
    operators yielding 0 or 1, unary negate and logical not. *)
Definition int64_operation (op : string) (arity : nat) (a b : Z) : option Z :=
  match arity with
  | 2%nat =>
      if String.eqb op "+" then Some (to_int64 (a + b))
      else if String.eqb op "-" then Some (to_int64 (a - b))
      else if String.eqb op "*" then Some (to_int64 (a * b))
      else if String.eqb op "/" then Some (to_int64 (Z.quot a b))
      else if String.eqb op "==" then Some (bool_to_Z (a =? b))
      else if String.eqb op "!=" then Some (bool_to_Z (negb (a =? b)))
      else if String.eqb op "<" then Some (bool_to_Z (a <? b))
      else if String.eqb op "<=" then Some (bool_to_Z (a <=? b))
      else if String.eqb op ">" then Some (bool_to_Z (a >? b))
      else if String.eqb op ">=" then Some (bool_to_Z (a >=? b))
      else None
  | 1%nat =>
      if String.eqb op "-" then Some (to_int64 (- a))
      else if String.eqb op "!" then Some (bool_to_Z (a =? 0))
      else None
  | _ => None
  end.

(** Does [f] hold of the last child? *)
Fixpoint last_child_satisfies (f : node_t -> bool) (children : list node_t) : bool :=
  match children with
  | [] => false
  | last_child :: [] => f last_child
  | _ :: rest => last_child_satisfies f rest
  end.

(** Rebuild the child list with [f] applied to the last child. *)
Fixpoint map_last_child (f : node_t -> node_t) (children : list node_t) : list node_t :=
  match children with
  | [] => []
  | last_child :: [] => [f last_child]
  | child :: rest => child :: map_last_child f rest
  end.

(** The statements of a statement list, empty for the null pointer. *)
Definition statements_of (statement_list : node_t) : list node_t :=
  match statement_list with
  | NULL => []
  | Node _ _ _ statements => statements
  end.

(** "Guaranteed to divert control", in the words of the design document:
    return and break always; an if with both branches when both branches
    divert; an if with only a then-branch never; a while never; a block when
    one of its statements diverts. *)
Fixpoint diverts (node : node_t) : bool :=
  match node with
  | NULL => false
  | Node type _ _ children =>
      match type with
      | RETURN_STATEMENT | BREAK_STATEMENT => true
      | IF_STATEMENT =>
          match children with
          | [_; _] => false
          | _ :: then_branch :: else_branch :: _ => diverts then_branch && diverts else_branch
          | _ => false
          end
      | WHILE_STATEMENT => false
      | BLOCK =>
          last_child_satisfies
            (fun statement_list =>
               match statement_list with
               | NULL => false
               | Node _ _ _ statements => existsb diverts statements
               end) children
      | _ => false
      end
  end.

(** A statement list cut after its first diverting statement, every
    statement kept being cleaned in turn. *)
Fixpoint keep_reachable (clean : node_t -> node_t) (statements : list node_t)
    : list node_t :=
  match statements with
  | [] => []
  | statement :: rest =>
      if diverts statement then [clean statement]
      else clean statement :: keep_reachable clean rest
  end.

(** The tree with its dead code removed: in every block reached through
    blocks, if branches and while bodies, the statements after the first
    diverting one are gone. *)
Fixpoint cleaned (node : node_t) : node_t :=
  match node with
  | NULL => NULL
  | Node type data symbol children =>
      match type with
      | IF_STATEMENT =>
          match children with
          | [condition; then_branch] =>
              Node type data symbol [condition; cleaned then_branch]
          | condition :: then_branch :: else_branch :: rest =>
              Node type data symbol
                   (condition :: cleaned then_branch :: cleaned else_branch :: rest)
          | _ => node
          end
      | WHILE_STATEMENT =>
          match children with
          | condition :: body :: rest => Node type data symbol (condition :: cleaned body :: rest)
          | _ => node
          end
      | BLOCK =>
          Node type data symbol
               (map_last_child
                  (fun statement_list =>
                     match statement_list with
                     | NULL => NULL
                     | Node ltype ldata lsymbol statements =>
                         Node ltype ldata lsymbol (keep_reachable cleaned statements)
                     end) children)
      | _ => node
      end
  end.

(** The shape the pass relies on: an if has a condition and one or two
    branches, a while a condition and a body, a block a statement list as
    its last child; the same holds below them. *)
Fixpoint statement_shape (node : node_t) : bool :=
  match node with
  | NULL => true
  | Node type _ _ children =>
      match type with
      | IF_STATEMENT =>
          match children with
          | [_; then_branch] => statement_shape then_branch
          | _ :: then_branch :: else_branch :: _ =>
              statement_shape then_branch && statement_shape else_branch
          | _ => false
          end
      | WHILE_STATEMENT =>
          match children with
          | _ :: body :: _ => statement_shape body
          | _ => false
          end
      | BLOCK =>
          last_child_satisfies
            (fun statement_list =>
               match statement_list with
               | NULL => false
               | Node _ _ _ statements => forallb statement_shape statements
               end) children
      | _ => true
      end
  end.

(** Control flow, with every condition taken as unknown.
    [may_fall_through]: some path through the statement reaches the point
    after it. *)
Fixpoint may_fall_through (node : node_t) : bool :=
  match node with
  | NULL => true
  | Node type _ _ children =>
      match type with
      | RETURN_STATEMENT | BREAK_STATEMENT => false
      | IF_STATEMENT =>
          match children with
          | [_; _] => true
          | _ :: then_branch :: else_branch :: _ =>
              may_fall_through then_branch || may_fall_through else_branch
          | _ => true
          end
      | BLOCK =>
          negb (last_child_satisfies
                  (fun statement_list =>
                     match statement_list with
                     | NULL => false
                     | Node _ _ _ statements =>
                         negb (forallb may_fall_through statements)
                     end) children)
      | _ => true
      end
  end.

(** [may_break_sequence]: some path runs the statements in order up to a
    break. *)
Fixpoint may_break_sequence (may_break : node_t -> bool) (statements : list node_t) : bool :=
  match statements with
  | [] => false
  | statement :: rest =>
      may_break statement || (may_fall_through statement && may_break_sequence may_break rest)
  end.

(** [may_break]: some path through the statement ends at a break that no
    loop inside the statement encloses. *)
Fixpoint may_break (node : node_t) : bool :=
  match node with
  | NULL => false
  | Node type _ _ children =>
      match type with
      | BREAK_STATEMENT => true
      | IF_STATEMENT =>
          match children with
          | [_; then_branch] => may_break then_branch
          | _ :: then_branch :: else_branch :: _ => may_break then_branch || may_break else_branch
          | _ => false
          end
      | BLOCK =>
          last_child_satisfies
            (fun statement_list =>
               match statement_list with
               | NULL => false
               | Node _ _ _ statements => may_break_sequence may_break statements
               end) children
      | _ => false
      end
  end.

(** Every control-flow path through the statement ends at a return. *)
Definition always_returns (node : node_t) : bool :=
  negb (may_fall_through node) && negb (may_break node).

(** The expression [4294967296 + 1]. *)
Definition wide_sum : node_t :=
  Node OPERATOR (operator "+") None [lit 4294967296; lit 1].

(** The pass on [node] returns, with [diverts] as its answer and [cleaned]
    as the tree it leaves. *)
Definition refines (node : node_t) : Prop :=
  statement_shape node = true ->
  remove_unreachable_code node = Some (diverts node, cleaned node).

(** Cleaning changes neither whether a statement diverts nor whether it
    may break. *)
Definition cleaning_facts (node : node_t) : Prop :=
  diverts (cleaned node) = diverts node /\ may_break (cleaned node) = may_break node.

(** The block [{ return 1; print 2; }] of the design document. *)
Definition return_then_print : node_t :=
  node_create BLOCK
    [node_create LIST
       [node_create RETURN_STATEMENT [lit 1];
        node_create PRINT_STATEMENT [node_create LIST [lit 2]]]].

(** The body [{ break }], and a function [f] with that body. *)
Definition break_body : node_t :=
  node_create BLOCK [node_create LIST [node_create BREAK_STATEMENT []]].

Definition break_function : node_t :=
  node_create FUNCTION [Node IDENTIFIER (identifier "f") None []; node_create LIST []; break_body].

(** A function whose body prints and runs off its end. *)
Definition print_body : node_t :=
  node_create BLOCK [node_create LIST [node_create PRINT_STATEMENT [node_create LIST [lit 2]]]].

End TreeSpec.

(** ** Specification vocabulary for binding *)

Module SymbolsSpec.
Import Symbols.

(** [node->children], empty for the null pointer. *)
Definition children_of (node : node_t) : list node_t :=
  match node with
  | NULL => []
  | Node _ _ _ children => children
  end.

(** The names carried by a list of IDENTIFIER nodes. *)
Fixpoint names_of (identifiers : list node_t) : list string :=
  match identifiers with
  | [] => []
  | Node _ (identifier name) _ _ :: rest => name :: names_of rest
  | _ :: rest => names_of rest
  end.

(** The names a block declares, in declaration order: its first child is a
    list of lists of identifiers. *)
Definition declaration_names (identifier_lists : list node_t) : list string :=
  flat_map (fun identifier_list => names_of (children_of identifier_list)) identifier_lists.

(** The local variables of a function body in declaration order: the
    declarations of a block come before those of the blocks nested in it,
    and sibling blocks follow one another. *)
Fixpoint declared_locals (node : node_t) : list string :=
  match node with
  | NULL => []
  | Node type _ _ children =>
      match type with
      | BLOCK =>
          match children with
          | [first_child; second_child] =>
              declaration_names (children_of first_child) ++ declared_locals second_child
          | _ => flat_map declared_locals children
          end
      | IDENTIFIER | STRING_LITERAL => []
      | _ => flat_map declared_locals children
      end
  end.

(** A block that declares the names [names] in one declaration list and
    whose only statement is [statement]. *)
Definition block_declaring (names : list string) (statement : node_t) : node_t :=
  node_create BLOCK
    [ node_create LIST
        [ node_create LIST (map (fun name => Node IDENTIFIER (identifier name) None []) names) ];
      node_create LIST [statement] ].

(** A use of the name [name], before and after binding. *)
Definition identifier_use (name : string) (symbol : option symbol_t) : node_t :=
  Node IDENTIFIER (identifier name) symbol [].

(** [extends type table table' names]: [table'] is [table] with one new
    symbol of kind [type] per name, in order, numbered onwards from the
    size of [table]. *)
Definition extends (type : symtype_t) (table table' : list symbol_t) (names : list string) : Prop :=
  exists new,
    table' = table ++ new
    /\ map sym_name new = names
    /\ map sequence_number new = seq (length table) (length new)
    /\ Forall (fun s => sym_type s = type) new.

(** Binding [node] adds the local variables it declares, in declaration
    order, and nothing else. *)
Definition binds_in_order (node : node_t) : Prop :=
  forall st st' node',
    bind_names st node = Ok (st', node') ->
    extends SYMBOL_LOCAL_VAR (symbols (local_symbols st)) (symbols (local_symbols st'))
            (declared_locals node).

(** A function [f(a, b)] whose body holds two sibling blocks, each
    declaring a local variable [x]. *)
Definition sibling_blocks_function : node_t :=
  node_create FUNCTION
    [ Node IDENTIFIER (identifier "f") None [];
      node_create LIST [Node IDENTIFIER (identifier "a") None [];
                        Node IDENTIFIER (identifier "b") None []];
      node_create BLOCK
        [ node_create LIST
            [ block_declaring ["x"] (node_create RETURN_STATEMENT [identifier_use "x" None]);
              block_declaring ["x"] (node_create RETURN_STATEMENT [identifier_use "x" None]) ] ] ].

(** Declarations as the parser builds them: lists of nodes that carry an
    identifier. *)
Definition is_identifier_node (node : node_t) : bool :=
  match node with
  | Node _ (identifier _) _ _ => true
  | _ => false
  end.

Definition is_identifier_list (node : node_t) : bool :=
  match node with
  | NULL => false
  | Node _ _ _ identifiers => forallb is_identifier_node identifiers
  end.

(** [names] can be declared in the scope map [scope]: they are distinct and
    none of them is in the map yet. *)
Definition declarable (scope : gmap string symbol_t) (names : list string) : Prop :=
  NoDup names /\ forall name, name ∈ names -> scope !! name = None.

(** [scope'] holds the names of [scope] and [names], and no others. *)
Definition declared (scope scope' : gmap string symbol_t) (names : list string) : Prop :=
  forall name, is_Some (scope' !! name) <-> is_Some (scope !! name) \/ name ∈ names.

(** [f(x) { { var x; return x }; return x }]: the use inside the inner
    block is bound to the local variable (sequence number 1), the use after
    it to the parameter (sequence number 0). *)
Definition shadowing_function : node_t :=
  node_create FUNCTION
    [ Node IDENTIFIER (identifier "f") None [];
      node_create LIST [Node IDENTIFIER (identifier "x") None []];
      node_create BLOCK
        [ node_create LIST
            [ block_declaring ["x"] (node_create RETURN_STATEMENT [identifier_use "x" None]);
              node_create RETURN_STATEMENT [identifier_use "x" None] ] ] ].

End SymbolsSpec.

(** ** Specification vocabulary for the generator *)

Module GeneratorSpec.
Import Generator.

(** The quadwords a code sequence pushes once [%rbp] holds the frame
    pointer, each with the offset from [%rbp] at which it lands.  [rsp] is
    the offset of the stack pointer from the frame pointer, [None] before
    the frame pointer is set. *)
Fixpoint frame_slots (code : list asm_line) (rsp : option Z) : list (operand * Z) :=
  match code with
  | [] => []
  | MOVQ RSP RBP :: rest => frame_slots rest (Some 0)
  | PUSHQ o :: rest =>
      match rsp with
      | Some r => (o, r - 8) :: frame_slots rest (Some (r - 8))
      | None => frame_slots rest None
      end
  | _ :: rest => frame_slots rest rsp
  end.

(** The slots filled by [pushq $0]. *)
Definition is_zero_push (slot : operand * Z) : bool :=
  match fst slot with
  | literal text => String.eqb text "$0"
  | _ => false
  end.

(** The symbols the prologue pushes a zero for. *)
Definition is_local (symbol : symbol_t) : bool :=
  symtype_eqb (sym_type symbol) SYMBOL_LOCAL_VAR.

(** The position of the first [n] in [l]. *)
Fixpoint index_of (n : nat) (l : list nat) : option nat :=
  match l with
  | [] => None
  | m :: rest => if Nat.eqb m n then Some 0%nat else S <$> index_of n rest
  end.

(** The frame slot of the local variable with the given sequence number:
    the prologue pushes one zero per local variable in table order, so the
    i-th local variable of the table owns the i-th zero pushed. *)
Definition local_slot (function : symbol_t) (function_symbols : list symbol_t)
    (number : nat) : option Z :=
  let zero_slots :=
    map snd (List.filter is_zero_push (frame_slots (generate_prologue function function_symbols) None)) in
  i ← index_of number (map sequence_number (List.filter is_local function_symbols));
  zero_slots !! i.

(** How many times the emitted code calls the function labelled [name]. *)
Definition is_call_to (name : string) (line : asm_line) : bool :=
  match line with
  | EMIT format [arg_string target] => String.eqb format "call .%s" && String.eqb target name
  | _ => false
  end.

Definition count_calls (name : string) (code : list asm_line) : nat :=
  length (List.filter (is_call_to name) code).

(** The slots of a run of pushes that starts with the stack pointer at
    offset [rsp] from the frame pointer. *)
Fixpoint slots_from (operands : list operand) (rsp : Z) : list (operand * Z) :=
  match operands with
  | [] => []
  | o :: rest => (o, rsp - 8) :: slots_from rest (rsp - 8)
  end.

(** An operand that is a register, not a literal. *)
Definition is_register (o : operand) : bool :=
  match o with
  | literal _ => false
  | _ => true
  end.

(** A table as binding leaves it: the parameters, then the local
    variables, numbered along the list. *)
Definition table_of (parameters locals : list symbol_t) : Prop :=
  Forall (fun s => sym_type s = SYMBOL_PARAMETER) parameters
  /\ Forall (fun s => sym_type s = SYMBOL_LOCAL_VAR) locals
  /\ map sequence_number (parameters ++ locals)
     = seq 0 (length parameters + length locals).

(** A function [f] without parameters and its one local variable [x]. *)
Definition function_without_parameters : symbol_t := mk_symbol SYMBOL_FUNCTION "f" 0 0.

Definition its_local : symbol_t := mk_symbol SYMBOL_LOCAL_VAR "x" 0 0.

(** A global variable [x] and a function [g] without parameters. *)
Definition global_x : symbol_t := mk_symbol SYMBOL_GLOBAL_VAR "x" 0 0.

Definition function_g : symbol_t := mk_symbol SYMBOL_FUNCTION "g" 1 0.

(** The call [g()]. *)
Definition call_g : node_t :=
  node_create FUNCTION_CALL
    [Node IDENTIFIER (identifier "g") (Some function_g) []; node_create LIST []].

(** The statement [x := g()], with [x] a global variable. *)
Definition assign_call : node_t :=
  node_create ASSIGNMENT_STATEMENT
    [Node IDENTIFIER (identifier "x") (Some global_x) []; call_g].

End GeneratorSpec.

Module FoldSpec.
Import Tree TreeSpec.

(** Is the first child a node of type NUMBER_LITERAL? *)
Definition literal_condition (children : list node_t) : bool :=
  match children with
  | Node NUMBER_LITERAL _ _ _ :: _ => true
  | _ => false
  end.

(** Is the first child the number literal 0? *)
Definition zero_condition (children : list node_t) : bool :=
  match children with
  | Node NUMBER_LITERAL (number_literal value) _ _ :: _ => value =? 0
  | _ => false
  end.

(** Somewhere in the tree there is an if whose condition is a number
    literal, or a while whose condition is the literal 0. *)
Fixpoint has_constant_branch (node : node_t) : bool :=
  match node with
  | NULL => false
  | Node type _ _ children =>
      match type with
      | IF_STATEMENT => literal_condition children
      | WHILE_STATEMENT => zero_condition children
      | _ => false
      end
      || existsb has_constant_branch children
  end.

(** Facts about a folded tree, proved together. *)
Definition folded_facts (node : node_t) : Prop :=
  forall node',
    constant_fold_subtree node = Some node' ->
    constant_fold_subtree node' = Some node' /\ has_constant_branch node' = false.

End FoldSpec.

Module ReachSpec.
Import Tree TreeSpec.

(** No statement of the list but the last one diverts. *)
Fixpoint only_last_diverts (statements : list node_t) : bool :=
  match statements with
  | [] => true
  | _ :: [] => true
  | statement :: rest => negb (diverts statement) && only_last_diverts rest
  end.

(** No block reached through blocks, if branches and while bodies holds a
    statement behind a diverting one. *)
Fixpoint no_dead_code (node : node_t) : bool :=
  match node with
  | NULL => true
  | Node type _ _ children =>
      match type with
      | IF_STATEMENT =>
          match children with
          | [_; then_branch] => no_dead_code then_branch
          | _ :: then_branch :: else_branch :: _ =>
              no_dead_code then_branch && no_dead_code else_branch
          | _ => true
          end
      | WHILE_STATEMENT =>
          match children with
          | _ :: body :: _ => no_dead_code body
          | _ => true
          end
      | BLOCK =>
          negb (last_child_satisfies
                  (fun statement_list =>
                     match statement_list with
                     | NULL => false
                     | Node _ _ _ statements =>
                         negb (only_last_diverts statements
                               && forallb no_dead_code statements)
                     end) children)
      | _ => true
      end
  end.

(** The children of the root that the pass works on: each is a node, and
    each FUNCTION has a body of the shape the pass relies on. *)
Definition function_shape (child : node_t) : bool :=
  match child with
  | NULL => false
  | Node FUNCTION _ _ (_ :: _ :: function_body :: _) => statement_shape function_body
  | Node FUNCTION _ _ _ => false
  | Node _ _ _ _ => true
  end.

(** The body of a FUNCTION child diverts. *)
Definition function_returns (child : node_t) : bool :=
  match child with
  | Node FUNCTION _ _ (_ :: _ :: function_body :: _) => diverts function_body
  | _ => true
  end.

Definition clean_facts (node : node_t) : Prop :=
  cleaned (cleaned node) = cleaned node
  /\ no_dead_code (cleaned node) = true
  /\ (statement_shape node = true -> statement_shape (cleaned node) = true).

End ReachSpec.

Module BindSpec.
Import Symbols SymbolsSpec.

(** The string literals binding meets, in the order it meets them. *)
Fixpoint string_literals (node : node_t) : list string :=
  match node with
  | NULL => []
  | Node type data _ children =>
      match type with
      | BLOCK =>
          match children with
          | [_; second_child] => string_literals second_child
          | _ => flat_map string_literals children
          end
      | IDENTIFIER => []
      | STRING_LITERAL =>
          match data with
          | string_literal text => [text]
          | _ => []
          end
      | _ => flat_map string_literals children
      end
  end.

(** The tree as the parser hands it over: no identifier carries a symbol
    and no node refers to the string list yet. *)
Fixpoint unbound (node : node_t) : bool :=
  match node with
  | NULL => true
  | Node type _ symbol children =>
      match type with
      | IDENTIFIER => match symbol with None => true | Some _ => false end
      | STRING_LIST_REFERENCE => false
      | _ => true
      end
      && forallb unbound children
  end.

(** Binding undone: identifiers lose their symbol and every reference to
    the string list becomes the string literal found at its index. *)
Fixpoint unbind (strings : list string) (node : node_t) : node_t :=
  match node with
  | NULL => NULL
  | Node type data symbol children =>
      let children' := map (unbind strings) children in
      match type with
      | IDENTIFIER => Node type data None children'
      | STRING_LIST_REFERENCE =>
          match data with
          | string_list_index index =>
              match strings !! index with
              | Some text => Node STRING_LITERAL (string_literal text) symbol children'
              | None => Node type data symbol children'
              end
          | _ => Node type data symbol children'
          end
      | _ => Node type data symbol children'
      end
  end.

(** Every identifier binding has passed carries a symbol, and the symbol
    bears the identifier's name. *)
Fixpoint uses_bound (node : node_t) : bool :=
  match node with
  | NULL => true
  | Node type data symbol children =>
      match type with
      | BLOCK =>
          match children with
          | [_; second_child] => uses_bound second_child
          | _ => forallb uses_bound children
          end
      | IDENTIFIER =>
          match data, symbol with
          | identifier name, Some s => String.eqb (sym_name s) name
          | _, _ => false
          end
      | STRING_LITERAL | STRING_LIST_REFERENCE => true
      | _ => forallb uses_bound children
      end
  end.

(** Every symbol found through the scope chain under a name bears that
    name. *)
Definition consistent (h : symbol_hashmap_t) : Prop :=
  forall name symbol, symbol_hashmap_lookup h name = Some symbol -> sym_name symbol = name.

Definition balanced (node : node_t) : Prop :=
  forall st st' node',
    bind_names st node = Ok (st', node') ->
    hashmap (local_symbols st') = hashmap (local_symbols st).

Definition pools_in_order (node : node_t) : Prop :=
  forall st st' node',
    bind_names st node = Ok (st', node') ->
    string_list st' = string_list st ++ string_literals node.

(** The print statement [print "hi", "bye", "hi"]. *)
Definition print_hi_bye_hi : node_t :=
  node_create PRINT_STATEMENT
    [node_create LIST
       [Node STRING_LITERAL (string_literal "hi") None [];
        Node STRING_LITERAL (string_literal "bye") None [];
        Node STRING_LITERAL (string_literal "hi") None []]].

Definition reads_back (node : node_t) : Prop :=
  forall st st' node' extra,
    unbound node = true ->
    bind_names st node = Ok (st', node') ->
    unbind (string_list st' ++ extra) node' = node.

Definition binds_uses (node : node_t) : Prop :=
  forall st st' node',
    consistent (hashmap (local_symbols st)) ->
    bind_names st node = Ok (st', node') ->
    uses_bound node' = true.

End BindSpec.

Module UseSpec.
Import Symbols SymbolsSpec BindSpec.

(** A tree without blocks whose identifier and string nodes carry the
    payload of their type: an expression, or a statement without blocks. *)
Fixpoint plain (node : node_t) : bool :=
  match node with
  | NULL => true
  | Node type data _ children =>
      match type with
      | BLOCK => false
      | IDENTIFIER => match data with identifier _ => true | _ => false end
      | STRING_LITERAL => match data with string_literal _ => true | _ => false end
      | _ => forallb plain children
      end
  end.

(** The names a plain tree uses, in the order binding meets them. *)
Fixpoint used_names (node : node_t) : list string :=
  match node with
  | NULL => []
  | Node type data _ children =>
      match type with
      | IDENTIFIER => match data with identifier name => [name] | _ => [] end
      | STRING_LITERAL => []
      | _ => flat_map used_names children
      end
  end.

(** The name resolves through the scope chain. *)
Definition visible (h : symbol_hashmap_t) (name : string) : bool :=
  match symbol_hashmap_lookup h name with
  | Some _ => true
  | None => false
  end.

Definition resolves (node : node_t) : Prop :=
  forall st,
    plain node = true ->
    if forallb (visible (hashmap (local_symbols st))) (used_names node)
    then exists node',
           bind_names st node
           = Ok (mk_state (local_symbols st) (string_list st ++ string_literals node), node')
    else bind_names st node = Fatal UNRESOLVED.

(** The statement [x := y + 1]. *)
Definition assign_sum : node_t :=
  node_create ASSIGNMENT_STATEMENT
    [identifier_use "x" None;
     Node OPERATOR (operator "+") None
       [identifier_use "y" None; Node NUMBER_LITERAL (number_literal 1) None []]].

End UseSpec.

Module GlobalsSpec.
Import Symbols SymbolsSpec Globals BindSpec.

(** The names a global declaration list declares: plain identifiers, and
    arrays by the identifier that is their first child. *)
Fixpoint global_declaration_names (declarations : list node_t) : list string :=
  match declarations with
  | [] => []
  | Node IDENTIFIER (identifier name) _ _ :: rest => name :: global_declaration_names rest
  | Node ARRAY_INDEXING _ _ (Node _ (identifier name) _ _ :: _) :: rest =>
      name :: global_declaration_names rest
  | _ :: rest => global_declaration_names rest
  end.

(** The global names of a program, in program order. *)
Fixpoint global_names (children : list node_t) : list string :=
  match children with
  | [] => []
  | Node GLOBAL_DECLARATION _ _ (Node _ _ _ declarations :: _) :: rest =>
      global_declaration_names declarations ++ global_names rest
  | Node FUNCTION _ _ (Node _ (identifier name) _ _ :: _) :: rest =>
      name :: global_names rest
  | _ :: rest => global_names rest
  end.

(** The body of a function node: its third child. *)
Definition function_body (function_node : node_t) : node_t :=
  match function_node with
  | Node _ _ _ (_ :: _ :: body :: _) => body
  | _ => NULL
  end.

Definition is_function (node : node_t) : bool :=
  match node with
  | Node FUNCTION _ _ _ => true
  | _ => false
  end.

(** The positions of the FUNCTION nodes among [children], counted from
    [index]. *)
Fixpoint function_positions (index : nat) (children : list node_t) : list nat :=
  match children with
  | [] => []
  | child :: rest =>
      (if is_function child then [index] else []) ++ function_positions (S index) rest
  end.

(** The nodes the function symbols of a list of global symbols point to. *)
Definition function_indices (entries : list (symbol_t * nat)) : list nat :=
  map snd (List.filter (fun entry => symtype_eqb (sym_type (fst entry)) SYMBOL_FUNCTION) entries).

Definition entries_of (globals : globals_t) : list (symbol_t * nat) :=
  combine (symbols (global_symbols globals)) (symbol_nodes globals).

(** What the loops of [find_globals] keep true of the global table. *)
Definition globals_ok (globals : globals_t) : Prop :=
  let table := global_symbols globals in
  length (symbol_nodes globals) = length (symbols table)
  /\ map sequence_number (symbols table) = seq 0 (length (symbols table))
  /\ NoDup (map sym_name (symbols table))
  /\ (forall name, name ∈ map sym_name (symbols table) ->
                   is_Some (entries (hashmap table) !! name))
  /\ consistent (hashmap table).

(** A program with a global variable, a global array and two functions;
    [main] calls [f], which is declared after it. *)
Definition two_function_program : node_t :=
  node_create LIST
    [ node_create GLOBAL_DECLARATION
        [ node_create LIST
            [ Node IDENTIFIER (identifier "x") None [];
              node_create ARRAY_INDEXING
                [ Node IDENTIFIER (identifier "a") None [];
                  Node NUMBER_LITERAL (number_literal 4) None [] ] ] ];
      node_create FUNCTION
        [ Node IDENTIFIER (identifier "main") None [];
          node_create LIST [];
          node_create BLOCK
            [ node_create LIST
                [ node_create RETURN_STATEMENT
                    [ node_create FUNCTION_CALL
                        [ identifier_use "f" None;
                          node_create LIST [identifier_use "x" None] ] ] ] ] ];
      node_create FUNCTION
        [ Node IDENTIFIER (identifier "f") None [];
          node_create LIST [Node IDENTIFIER (identifier "n") None []];
          node_create BLOCK
            [ node_create LIST
                [ node_create RETURN_STATEMENT [identifier_use "n" None] ] ] ] ].

End GlobalsSpec.

Module CodeSpec.
Import Generator.

(** What one line does to the stack, in quadwords pushed. *)
Definition stack_effect_of (line : asm_line) : Z :=
  match line with
  | PUSHQ _ => 1
  | POPQ _ => -1
  | _ => 0
  end.

(** The quadwords a code sequence pushes and does not pop again. *)
Fixpoint stack_effect (code : list asm_line) : Z :=
  match code with
  | [] => 0
  | line :: rest => stack_effect_of line + stack_effect rest
  end.

(** The parameter count [generate_function_call] reads through the symbol
    of the called identifier. *)
Definition callee_parameters (identifier_node : node_t) : nat :=
  match symbol_of identifier_node with
  | Some function_identifier_symbol => FUNC_PARAM_COUNT function_identifier_symbol
  | None => 0%nat
  end.

(** The arguments the calls of an expression push and never pop: a call
    pushes every argument and pops as many as the callee has parameters,
    six at most. *)
Fixpoint unpopped_arguments (expression : node_t) : Z :=
  match expression with
  | NULL => 0
  | Node type _ _ children =>
      match type with
      | ARRAY_INDEXING =>
          match children with
          | _ :: index_node :: _ => unpopped_arguments index_node
          | _ => 0
          end
      | OPERATOR =>
          match children with
          | lhs :: rhs :: _ => unpopped_arguments lhs + unpopped_arguments rhs
          | [operand_node] => unpopped_arguments operand_node
          | [] => 0
          end
      | FUNCTION_CALL =>
          match children with
          | identifier_node :: Node _ _ _ arguments :: _ =>
              fold_right (fun argument total => unpopped_arguments argument + total) 0 arguments
              + (Z.of_nat (length arguments)
                 - Z.of_nat (Nat.min (callee_parameters identifier_node) 6))
          | _ => 0
          end
      | _ => 0
      end
  end.

(** Every call of the expression passes as many arguments as the callee
    has parameters, and six at most. *)
Fixpoint calls_fit (expression : node_t) : bool :=
  match expression with
  | NULL => true
  | Node type _ _ children =>
      match type with
      | ARRAY_INDEXING =>
          match children with
          | _ :: index_node :: _ => calls_fit index_node
          | _ => true
          end
      | OPERATOR =>
          match children with
          | lhs :: rhs :: _ => calls_fit lhs && calls_fit rhs
          | [operand_node] => calls_fit operand_node
          | [] => true
          end
      | FUNCTION_CALL =>
          match children with
          | identifier_node :: Node _ _ _ arguments :: _ =>
              forallb calls_fit arguments
              && Nat.eqb (length arguments) (callee_parameters identifier_node)
              && Nat.leb (length arguments) 6
          | _ => true
          end
      | _ => true
      end
  end.

Definition is_label (line : asm_line) : bool :=
  match line with
  | LABEL _ _ => true
  | _ => false
  end.

Definition is_jump (line : asm_line) : bool :=
  match line with
  | EMIT format _ => String.prefix "jmp" format
  | _ => false
  end.

(** The line is the [EMIT] of the text [text], without arguments. *)
Definition is_emit (text : string) (line : asm_line) : bool :=
  match line with
  | EMIT format [] => String.eqb format text
  | _ => false
  end.

Definition count_emitted (text : string) (code : list asm_line) : nat :=
  length (List.filter (is_emit text) code).

(** The formats [generate_expression] and [generate_function_call] emit. *)
Definition expression_formats : list string :=
  [ "movq $%d, %s"; "movq .%s(%s), %s"; "movq %d(%s), %s"; "leaq .%s(%s), %s";
    "leaq (%s, %s, 8), %s"; "movq (%s), %s"; "test %s, %s"; "call .%s" ].

(** The formats the statements emit beside those of their expressions,
    the jump of a return apart. *)
Definition statement_formats : list string :=
  [ "movq %s, .%s(%s)"; "movq %s, %d(%s)"; "movq %s, (%s)"; "leaq strout(%s), %s";
    "leaq string%ld(%s), %s"; "leaq intout(%s), %s"; "call safe_printf"; "call putchar" ].

(** A line as the code of an expression has them. *)
Definition expression_line (line : asm_line) : bool :=
  match line with
  | LABEL _ _ | RET => false
  | EMIT format _ => existsb (String.eqb format) expression_formats
  | _ => true
  end.

(** A line as the body of the function called [name] has them: a line of
    an expression, one of a statement, or the jump to the function's own
    epilogue. *)
Definition body_line (name : string) (line : asm_line) : Prop :=
  expression_line line = true
  \/ (exists format args, line = EMIT format args
                          /\ existsb (String.eqb format) statement_formats = true)
  \/ line = EMIT "jmp .%s.epilogue" [arg_string name].

(** [return f(1) ; x := 2], the body of a function [f] with one
    parameter [x]. *)
Definition function_f : symbol_t := mk_symbol SYMBOL_FUNCTION "f" 0 1.

Definition parameter_x : symbol_t := mk_symbol SYMBOL_PARAMETER "x" 0 1.

Definition function_f_node : node_t :=
  node_create FUNCTION
    [ Node IDENTIFIER (identifier "f") None [];
      node_create LIST [Node IDENTIFIER (identifier "x") None []];
      node_create BLOCK
        [ node_create LIST
            [ node_create RETURN_STATEMENT
                [ node_create FUNCTION_CALL
                    [ Node IDENTIFIER (identifier "f") (Some function_f) [];
                      node_create LIST [Node NUMBER_LITERAL (number_literal 1) None []] ] ];
              node_create ASSIGNMENT_STATEMENT
                [ Node IDENTIFIER (identifier "x") (Some parameter_x) [];
                  Node NUMBER_LITERAL (number_literal 2) None [] ] ] ] ].

(** [print "a", x, 3] once bound, [x] being the parameter of [f]. *)
Definition print_three : node_t :=
  node_create PRINT_STATEMENT
    [ node_create LIST
        [ Node STRING_LIST_REFERENCE (string_list_index 0) None [];
          Node IDENTIFIER (identifier "x") (Some parameter_x) [];
          Node NUMBER_LITERAL (number_literal 3) None [] ] ].





(** [f(a, b, c, d, e, f, g)], seven arguments to a function of seven
    parameters, and [1 + h(2)]. *)
Definition function_of_seven : symbol_t := mk_symbol SYMBOL_FUNCTION "f" 0 7.

Definition call_with_seven : node_t :=
  node_create FUNCTION_CALL
    [ Node IDENTIFIER (identifier "f") (Some function_of_seven) [];
      node_create LIST
        (map (fun value => Node NUMBER_LITERAL (number_literal value) None [])
             [1; 2; 3; 4; 5; 6; 7]) ].

Definition sum_with_call : node_t :=
  Node OPERATOR (operator "+") None
    [ Node NUMBER_LITERAL (number_literal 1) None [];
      node_create FUNCTION_CALL
        [ Node IDENTIFIER (identifier "h") (Some (mk_symbol SYMBOL_FUNCTION "h" 1 1)) [];
          node_create LIST [Node NUMBER_LITERAL (number_literal 2) None []] ] ].

Definition expression_facts (current_function : symbol_t) (expression : node_t) : Prop :=
  forall code,
    generate_expression current_function expression = Some code ->
    stack_effect code = unpopped_arguments expression
    /\ Forall (fun line => expression_line line = true) code.

Definition fits_facts (expression : node_t) : Prop :=
  calls_fit expression = true -> unpopped_arguments expression = 0.

End CodeSpec.

Module ProgramSpec.
Import Generator Program CodeSpec.

Definition is_function_symbol (symbol : symbol_t) : bool :=
  symtype_eqb (sym_type symbol) SYMBOL_FUNCTION.

(** The globals of [var x  func f(x) ...]: a variable and the function
    [f] of [CodeSpec.function_f_node]. *)
Definition one_function_globals : list symbol_t :=
  [mk_symbol SYMBOL_GLOBAL_VAR "x" 0 0; mk_symbol SYMBOL_FUNCTION "f" 1 1].

Definition one_function_node_of (symbol : symbol_t) : node_t :=
  if is_function_symbol symbol then function_f_node
  else Node IDENTIFIER (identifier "x") None [].

Definition one_function_symtable_of (symbol : symbol_t) : list symbol_t :=
  if is_function_symbol symbol then [parameter_x] else [].

End ProgramSpec.

(** ** Constant folding *)

Module TreeFacts.
Import Tree TreeSpec.

Lemma to_int_small v : in_int v -> to_int v = v.
Proof.
  unfold in_int, INT_MIN, INT_MAX, to_int, wrap_signed. intros H.
  rewrite Z.mod_small; lia.
Qed.

Lemma to_int64_small v : in_int64 v -> to_int64 v = v.
Proof.
  unfold in_int64, INT64_MIN, INT64_MAX, to_int64, wrap_signed. intros H.
  rewrite Z.mod_small; lia.
Qed.

Lemma in_int_in_int64 v : in_int v -> in_int64 v.
Proof. unfold in_int, in_int64, INT_MIN, INT_MAX, INT64_MIN, INT64_MAX. lia. Qed.

Lemma bool_to_Z_in_int b : in_int (bool_to_Z b).
Proof. unfold in_int, INT_MIN, INT_MAX. destruct b; simpl; lia. Qed.

(** The examples of the design document. *)
Example fold_2_plus_3_times_4 :
  constant_fold_subtree
    (Node OPERATOR (operator "+") None
       [lit 2; Node OPERATOR (operator "*") None [lit 3; lit 4]])
  = Some (lit 14).
Proof. reflexivity. Qed.

Example fold_if_0_else (A B : node_t) :
  constant_fold_if (Node IF_STATEMENT no_data None [lit 0; A; B]) = Some B.
Proof. reflexivity. Qed.

Example fold_if_1_no_else (A : node_t) :
  constant_fold_if (Node IF_STATEMENT no_data None [lit 1; A]) = Some A.
Proof. reflexivity. Qed.

Example fold_while_0 (A : node_t) :
  constant_fold_while (Node WHILE_STATEMENT no_data None [lit 0; A]) = Some NULL.
Proof. reflexivity. Qed.

Example fold_while_1_break :
  let loop := Node WHILE_STATEMENT no_data None
                [lit 1; node_create BLOCK [node_create LIST [node_create BREAK_STATEMENT []]]] in
  constant_fold_subtree loop = Some loop.
Proof. reflexivity. Qed.

(** Within the range of [int], and where the 64-bit result fits an [int]
    too, folding a binary operator computes the 64-bit operation. *)
Lemma constant_fold_operator_int_range op a b r :
  in_int a -> in_int b ->
  int64_operation op 2 a b = Some r -> in_int r ->
  (op = "/"%string -> b <> 0) ->
  constant_fold_operator (Node OPERATOR (operator op) None [lit a; lit b]) = Some (lit r).
Proof.
  intros Ha Hb Hop Hr Hdiv.
  unfold int64_operation in Hop.
  repeat match type of Hop with
  | (if String.eqb op ?s then _ else _) = _ =>
      destruct (String.eqb op s) eqn:E;
      [ apply String.eqb_eq in E; subst op | clear E ]
  end; try discriminate;
  injection Hop as <-;
  unfold constant_fold_operator, get_operator_func; cbn;
  rewrite (to_int_small a Ha), (to_int_small b Hb);
  unfold lit, add, subtract, multiply, equal, not_equal, less_than, less_than_or_equal,
         greater_than, greater_than_or_equal;
  try reflexivity.
  - rewrite to_int64_small in Hr |- *.
    2,3: unfold in_int, in_int64, INT_MIN, INT_MAX, INT64_MIN, INT64_MAX in *; lia.
    rewrite to_int_small; auto.
  - rewrite to_int64_small in Hr |- *.
    2,3: unfold in_int, in_int64, INT_MIN, INT_MAX, INT64_MIN, INT64_MAX in *; lia.
    rewrite to_int_small; auto.
  - rewrite to_int64_small in Hr |- *.
    2,3: unfold in_int, in_int64, INT_MIN, INT_MAX, INT64_MIN, INT64_MAX in *; nia.
    rewrite to_int_small; auto.
  - assert (Hq : in_int64 (Z.quot a b)).
    { unfold in_int, in_int64, INT_MIN, INT_MAX, INT64_MIN, INT64_MAX in *.
      assert (b <> 0) as Hb0 by auto.
      assert (Z.abs (Z.quot a b) <= Z.abs a).
      { rewrite <- Z.quot_abs by exact Hb0.
        rewrite Z.quot_div_nonneg by lia.
        apply Z.div_le_upper_bound; nia. }
      lia. }
    rewrite to_int64_small in Hr |- * by exact Hq.
    unfold divide.
    assert (b <> 0) as Hb0 by auto.
    destruct (b =? 0) eqn:E0; [apply Z.eqb_eq in E0; contradiction|]. simpl.
    destruct ((a =? INT_MIN) && (b =? -1)) eqn:E1.
    + apply andb_true_iff in E1 as [E1 E2].
      apply Z.eqb_eq in E1, E2. subst a b.
      vm_compute in Hr. destruct Hr as [_ Hr]. destruct (Hr eq_refl).
    + rewrite to_int_small; auto.
Qed.

(** C2: folding an OPERATOR node whose children are all number literals
    should yield the literal of the 64-bit operation on the children's
    values.  The operands pass through [int] parameters: on
    [4294967296 + 1] the folder produces the literal 1, where the 64-bit
    sum is 4294967297. *)
Theorem constant_fold_operator_narrows_operands :
  in_int64 4294967296 /\ in_int64 1
  /\ constant_fold_operator wide_sum = Some (lit 1)
  /\ int64_operation "+" 2 4294967296 1 = Some 4294967297.
Proof.
  unfold in_int64, INT64_MIN, INT64_MAX.
  split; [lia|]. split; [lia|]. split; reflexivity.
Qed.

(** Operands that fit an [int] are not enough: the sum is taken in [int]
    as well, so [2147483647 + 1] folds to -2147483648. *)
Example fold_int_max_plus_1 :
  constant_fold_operator (Node OPERATOR (operator "+") None [lit 2147483647; lit 1])
  = Some (lit (-2147483648))
  /\ int64_operation "+" 2 2147483647 1 = Some 2147483648.
Proof. split; reflexivity. Qed.

(** C8: an if node whose condition is a number literal folds to its
    then-branch when the literal is nonzero, to its else-branch when the
    literal is zero and there is one, and to the null placeholder when the
    literal is zero and there is none; nothing of the untaken branch is
    kept. *)
Theorem constant_fold_if_literal :
  forall data symbol csymbol cchildren (condition : Z) (then_branch else_branch : node_t),
    let condition_node := Node NUMBER_LITERAL (number_literal condition) csymbol cchildren in
    constant_fold_if
      (Node IF_STATEMENT data symbol [condition_node; then_branch; else_branch])
    = Some (if condition =? 0 then else_branch else then_branch)
    /\
    constant_fold_if (Node IF_STATEMENT data symbol [condition_node; then_branch])
    = Some (if condition =? 0 then NULL else then_branch).
Proof.
  intros. unfold constant_fold_if, condition_node. simpl.
  destruct (condition =? 0); simpl; split; reflexivity.
Qed.

(** C9: a while node whose condition is a number literal is replaced by
    the null placeholder when the literal is zero, and is returned as it is
    when the literal is nonzero. *)
Theorem constant_fold_while_literal :
  forall data symbol csymbol cchildren (condition : Z) (rest : list node_t),
    let loop :=
      Node WHILE_STATEMENT data symbol
           (Node NUMBER_LITERAL (number_literal condition) csymbol cchildren :: rest) in
    constant_fold_while loop = Some (if condition =? 0 then NULL else loop).
Proof.
  intros. unfold loop, constant_fold_while. simpl.
  destruct (condition =? 0); reflexivity.
Qed.

(** What [constant_fold_subtree] does at an if or while node: it folds the
    children, then hands the node to the folder of its type. *)
Lemma for_each_child_fold children :
  for_each_child
    (fun child =>
       match child with
       | NULL => Some NULL
       | Node _ _ _ _ => constant_fold_subtree child
       end) children
  = for_each_child constant_fold_subtree children.
Proof.
  induction children as [|c r IH]; simpl; [reflexivity|].
  rewrite IH. destruct c; reflexivity.
Qed.

Lemma constant_fold_subtree_if data symbol children children' :
  for_each_child constant_fold_subtree children = Some children' ->
  constant_fold_subtree (Node IF_STATEMENT data symbol children)
  = constant_fold_if (Node IF_STATEMENT data symbol children').
Proof.
  intros H. simpl. rewrite for_each_child_fold, H. reflexivity.
Qed.

Lemma constant_fold_subtree_while data symbol children children' :
  for_each_child constant_fold_subtree children = Some children' ->
  constant_fold_subtree (Node WHILE_STATEMENT data symbol children)
  = constant_fold_while (Node WHILE_STATEMENT data symbol children').
Proof.
  intros H. simpl. rewrite for_each_child_fold, H. reflexivity.
Qed.

(** ** Unreachable-code removal *)

Lemma last_child_satisfies_app f pre x : last_child_satisfies f (pre ++ [x]) = f x.
Proof.
  induction pre as [|a pre IH]; simpl; [reflexivity|].
  destruct (pre ++ [x]) eqn:E; [destruct pre; discriminate|]. exact IH.
Qed.

Lemma map_last_child_app f pre x : map_last_child f (pre ++ [x]) = pre ++ [f x].
Proof.
  induction pre as [|a pre IH]; simpl; [reflexivity|].
  destruct (pre ++ [x]) eqn:E; [destruct pre; discriminate|]. rewrite IH. reflexivity.
Qed.

Lemma on_last_child_spec (f : node_t -> option (bool * node_t))
    (shape flag : node_t -> bool) (clean : node_t -> node_t) children :
  Forall (fun x => shape x = true -> f x = Some (flag x, clean x)) children ->
  last_child_satisfies shape children = true ->
  on_last_child f children
  = Some (last_child_satisfies flag children, map_last_child clean children).
Proof.
  induction children as [|a [|b r] IH]; intros Hf H.
  - discriminate.
  - inversion Hf as [|? ? Ha _]; subst. simpl in *. rewrite (Ha H). reflexivity.
  - change (last_child_satisfies shape (b :: r) = true) in H.
    inversion Hf as [|? ? _ Hr]; subst.
    specialize (IH Hr H).
    change (on_last_child f (a :: b :: r)) with
      (match on_last_child f (b :: r) with
       | None => None
       | Some (x, rest') => Some (x, a :: rest')
       end).
    rewrite IH. reflexivity.
Qed.

Lemma scan_statements_spec statements :
  Forall (fun n => statement_shape n = true ->
                   remove_unreachable_code n = Some (diverts n, cleaned n)) statements ->
  forallb statement_shape statements = true ->
  scan_statements remove_unreachable_code statements
  = Some (existsb diverts statements, keep_reachable cleaned statements).
Proof.
  induction 1 as [|s r Hs _ IH]; intros Hshape; simpl in *.
  - reflexivity.
  - apply andb_true_iff in Hshape as [H1 H2].
    rewrite (Hs H1). destruct (diverts s); simpl; [reflexivity|].
    rewrite (IH H2). reflexivity.
Qed.

Lemma refines_with_children node : refines node /\ Forall refines (statements_of node).
Proof.
  induction node as [|type data symbol children IH] using node_t_ind'.
  - split; [intros _; reflexivity | constructor].
  - split; [| simpl; eapply Forall_impl; [exact IH | intros x [Hx _]; exact Hx]].
    intros Hshape.
    destruct type; try reflexivity.
    + (* BLOCK *)
      simpl in Hshape |- *.
      erewrite on_last_child_spec with
        (shape := fun statement_list =>
                    match statement_list with
                    | NULL => false
                    | Node _ _ _ statements => forallb statement_shape statements
                    end)
        (flag := fun statement_list =>
                   match statement_list with
                   | NULL => false
                   | Node _ _ _ statements => existsb diverts statements
                   end)
        (clean := fun statement_list =>
                    match statement_list with
                    | NULL => NULL
                    | Node ltype ldata lsymbol statements =>
                        Node ltype ldata lsymbol (keep_reachable cleaned statements)
                    end); [reflexivity| |exact Hshape].
      eapply Forall_impl; [exact IH|].
      intros [|lt ld ls statements] [_ Hstatements] Hx; [discriminate|].
      rewrite scan_statements_spec; [reflexivity|exact Hstatements|exact Hx].
    + (* IF *)
      simpl in Hshape |- *.
      destruct children as [|c [|t [|e rest]]]; try discriminate.
      * inversion IH as [|? ? _ IH1]; subst. inversion IH1 as [|? ? [Ht _] _]; subst.
        rewrite (Ht Hshape). reflexivity.
      * inversion IH as [|? ? _ IH1]; subst. inversion IH1 as [|? ? [Ht _] IH2]; subst.
        inversion IH2 as [|? ? [He _] _]; subst.
        apply andb_true_iff in Hshape as [H1 H2].
        rewrite (Ht H1), (He H2). reflexivity.
    + (* WHILE *)
      simpl in Hshape |- *.
      destruct children as [|c [|b rest]]; try discriminate.
      inversion IH as [|? ? _ IH1]; subst. inversion IH1 as [|? ? [Hb _] _]; subst.
      rewrite (Hb Hshape). reflexivity.
Qed.

(** On a tree of the expected shape the pass returns, its flag is
    [diverts] and the tree it leaves is [cleaned]. *)
Lemma remove_unreachable_code_spec node :
  statement_shape node = true ->
  remove_unreachable_code node = Some (diverts node, cleaned node).
Proof. exact (proj1 (refines_with_children node)). Qed.

(** Induction that also reaches the statements of each child, which is what
    a pass needs at a BLOCK: its statements are the children of its last
    child. *)
Lemma node_statements_ind (P : node_t -> Prop) :
  P NULL ->
  (forall type data symbol children,
      Forall P children ->
      Forall (fun child => Forall P (statements_of child)) children ->
      P (Node type data symbol children)) ->
  forall node, P node.
Proof.
  intros HNULL HNode node.
  enough (H : P node /\ Forall P (statements_of node)) by exact (proj1 H).
  induction node as [|type data symbol children IH] using node_t_ind'.
  - split; [exact HNULL | constructor].
  - assert (Hc : Forall P children)
      by (eapply Forall_impl; [exact IH | intros x [Hx _]; exact Hx]).
    split; [| exact Hc].
    apply HNode; [exact Hc|].
    eapply Forall_impl; [exact IH | intros x [_ Hx]; exact Hx].
Qed.

Lemma last_child_satisfies_ext f g children :
  Forall (fun x => f x = g x) children ->
  last_child_satisfies f children = last_child_satisfies g children.
Proof.
  induction children as [|a [|b r] IH]; intros H.
  - reflexivity.
  - inversion H; subst. simpl. assumption.
  - inversion H; subst.
    change (last_child_satisfies f (b :: r) = last_child_satisfies g (b :: r)). auto.
Qed.

Lemma last_child_satisfies_map f clean children :
  last_child_satisfies f (map_last_child clean children)
  = last_child_satisfies (fun x => f (clean x)) children.
Proof.
  induction children as [|a [|b r] IH]; try reflexivity.
  change (map_last_child clean (a :: b :: r)) with (a :: map_last_child clean (b :: r)).
  change (last_child_satisfies (fun x => f (clean x)) (a :: b :: r))
    with (last_child_satisfies (fun x => f (clean x)) (b :: r)).
  rewrite <- IH.
  destruct (map_last_child clean (b :: r)) eqn:E; [|reflexivity].
  destruct r; discriminate.
Qed.

(** The pass's flag is exactly "cannot fall through". *)
Lemma may_fall_through_diverts node : may_fall_through node = negb (diverts node).
Proof.
  induction node as [|type data symbol children IH IHs] using node_statements_ind.
  - reflexivity.
  - destruct type; try reflexivity.
    + simpl. f_equal. apply last_child_satisfies_ext.
      eapply Forall_impl; [exact IHs|].
      intros [|lt ld ls statements] Hx; [reflexivity|]. simpl in Hx.
      induction Hx as [|s r Hs _ IHr]; simpl; [reflexivity|].
      rewrite Hs, negb_andb, negb_involutive, IHr. reflexivity.
    + simpl. destruct children as [|c [|t [|e rest]]]; try reflexivity.
      inversion IH as [|? ? _ IH1]; subst. inversion IH1 as [|? ? Ht IH2]; subst.
      inversion IH2 as [|? ? He _]; subst.
      rewrite Ht, He. rewrite negb_andb. reflexivity.
Qed.

Lemma cleaning_facts_statements statements :
  Forall cleaning_facts statements ->
  existsb diverts (keep_reachable cleaned statements) = existsb diverts statements
  /\ may_break_sequence may_break (keep_reachable cleaned statements)
     = may_break_sequence may_break statements.
Proof.
  induction 1 as [|s r (Hd & Hb) _ (IH1 & IH2)]; simpl.
  - auto.
  - destruct (diverts s) eqn:E; simpl.
    + rewrite Hd, Hb, !may_fall_through_diverts, Hd, !E. simpl.
      rewrite !orb_false_r. auto.
    + rewrite Hd, Hb, IH1, IH2, !may_fall_through_diverts, Hd, !E. auto.
Qed.

Lemma cleaning_preserves node : cleaning_facts node.
Proof.
  induction node as [|type data symbol children IH IHs] using node_statements_ind.
  - split; reflexivity.
  - destruct type; try (split; reflexivity).
    + (* BLOCK *)
      split; simpl; rewrite last_child_satisfies_map;
        apply last_child_satisfies_ext;
        (eapply Forall_impl; [exact IHs|]);
        intros [|lt ld ls statements] Hx; try reflexivity; simpl in Hx;
        apply cleaning_facts_statements in Hx; tauto.
    + (* IF *)
      destruct children as [|c [|t [|e rest]]]; try (split; reflexivity).
      * inversion IH as [|? ? _ IH1]; subst. inversion IH1 as [|? ? [Ht Ht'] _]; subst.
        split; simpl; auto.
      * inversion IH as [|? ? _ IH1]; subst. inversion IH1 as [|? ? [Ht Ht'] IH2]; subst.
        inversion IH2 as [|? ? [He He'] _]; subst.
        split; simpl; congruence.
    + (* WHILE *)
      destruct children as [|c [|b rest]]; split; reflexivity.
Qed.

Lemma keep_reachable_cases clean statements :
  exists kept,
    keep_reachable clean statements = map clean kept
    /\ ((existsb diverts statements = false
         /\ kept = statements
         /\ Forall (fun x => diverts x = false) statements)
        \/ (existsb diverts statements = true
            /\ exists before s after,
                 statements = before ++ s :: after
                 /\ Forall (fun x => diverts x = false) before
                 /\ diverts s = true
                 /\ kept = before ++ [s])).
Proof.
  induction statements as [|x r (kept & Hk & IH)]; simpl.
  - exists []. split; [reflexivity|]. left. auto.
  - destruct (diverts x) eqn:E; simpl.
    + exists [x]. split; [reflexivity|]. right. split; [reflexivity|].
      exists [], x, r. auto.
    + exists (x :: kept). split; [simpl; rewrite Hk; reflexivity|].
      destruct IH as [(H1 & H2 & H3) | (H1 & before & s & after & H2 & H3 & H4 & H5)].
      * left. subst kept. auto.
      * right. split; [exact H1|].
        exists (x :: before), s, after. subst. simpl. auto.
Qed.

(** C5: on every statement the pass answers true exactly when the
    statement is guaranteed to divert control ([diverts]: return and break
    always, an if with both branches when both divert, an if with one branch
    and a while never, a block when one of its statements diverts), and the
    tree it leaves is [cleaned].  For a block with statement list
    [statements] this means: when no statement diverts, the (cleaned)
    statements are all kept and the block does not divert; otherwise the list
    is cut after its first diverting statement, the statements behind it are
    gone, and the block diverts. *)
Theorem remove_unreachable_code_refines_diverts :
  forall node,
    statement_shape node = true ->
    remove_unreachable_code node = Some (diverts node, cleaned node)
    /\ (forall data symbol pre ltype ldata lsymbol statements,
           node = Node BLOCK data symbol (pre ++ [Node ltype ldata lsymbol statements]) ->
           exists kept,
             cleaned node
             = Node BLOCK data symbol (pre ++ [Node ltype ldata lsymbol (map cleaned kept)])
             /\ ((diverts node = false
                  /\ kept = statements
                  /\ Forall (fun x => diverts x = false) statements)
                 \/ (diverts node = true
                     /\ exists before s after,
                          statements = before ++ s :: after
                          /\ Forall (fun x => diverts x = false) before
                          /\ diverts s = true
                          /\ kept = before ++ [s]))).
Proof.
  intros node Hshape. split; [exact (remove_unreachable_code_spec node Hshape)|].
  intros data symbol pre ltype ldata lsymbol statements ->.
  destruct (keep_reachable_cases cleaned statements) as (kept & Hk & Hcases).
  exists kept. simpl.
  rewrite map_last_child_app, last_child_satisfies_app, Hk.
  split; [reflexivity | exact Hcases].
Qed.

Lemma remove_unreachable_code_refines_diverts_witness :
  statement_shape return_then_print = true
  /\ remove_unreachable_code return_then_print
     = Some (true, node_create BLOCK [node_create LIST [node_create RETURN_STATEMENT [lit 1]]]).
Proof.
  split; [reflexivity|].
  exact (proj1 (remove_unreachable_code_refines_diverts return_then_print eq_refl)).
Defined.

(** ** The implicit return *)

Lemma always_returns_wrapped body :
  may_break body = false -> always_returns (wrap_function_body body) = true.
Proof.
  intros Hb. unfold always_returns. simpl. rewrite Hb.
  destruct (may_fall_through body); reflexivity.
Qed.

(** C4: the function [f() { break }] is left as the pass finds it, although
    its body holds no return and its one path runs off the end of the
    function: the flag [remove_unreachable_code] returns is true for a break
    as for a return, and [remove_unreachable_code_syntax_tree] reads it as
    [has_return].  The body the comment on the pass calls for is the block
    of the body followed by [return 0]. *)
Theorem break_body_left_unwrapped :
  statement_shape break_body = true
  /\ always_returns break_body = false
  /\ remove_unreachable_code break_body = Some (true, break_body)
  /\ remove_unreachable_code_function break_function = Some break_function
  /\ remove_unreachable_code_syntax_tree (node_create LIST [break_function])
     = Some (node_create LIST [break_function])
  /\ remove_unreachable_code_function break_function
     <> Some (node_create FUNCTION
                [ Node IDENTIFIER (identifier "f") None []; node_create LIST [];
                  wrap_function_body break_body ]).
Proof.
  split; [reflexivity|]. split; [reflexivity|]. split; [reflexivity|].
  split; [reflexivity|]. split; [reflexivity|].
  vm_compute. discriminate.
Qed.

(** What the pass does to the body of a function, whatever the body: a body
    it reports as not diverting (no guaranteed return or break) is replaced
    by a new block holding the processed body followed by [return 0]; a body
    it reports as diverting is left unwrapped.  When no path through the
    original body ends at a break outside a loop, every control-flow path of
    the resulting body ends at an explicit return. *)
Theorem function_body_wrapped_unless_diverting :
  forall data symbol name parameters function_body rest,
    statement_shape function_body = true ->
    let new_function_body :=
      if diverts function_body then cleaned function_body
      else node_create BLOCK
             [node_create LIST
                [cleaned function_body; node_create RETURN_STATEMENT [lit 0]]] in
    remove_unreachable_code_function
      (Node FUNCTION data symbol (name :: parameters :: function_body :: rest))
    = Some (Node FUNCTION data symbol (name :: parameters :: new_function_body :: rest))
    /\ (may_break function_body = false -> always_returns new_function_body = true).
Proof.
  intros data symbol name parameters function_body rest Hshape new_function_body.
  split.
  - unfold remove_unreachable_code_function. simpl.
    rewrite (remove_unreachable_code_spec _ Hshape). reflexivity.
  - intros Hbreak. unfold new_function_body.
    destruct (cleaning_preserves function_body) as [Hd Hb].
    destruct (diverts function_body) eqn:E.
    + unfold always_returns.
      rewrite may_fall_through_diverts, Hd, Hb, Hbreak. reflexivity.
    + apply (always_returns_wrapped (cleaned function_body)). congruence.
Qed.

Lemma function_body_wrapped_unless_diverting_witness :
  statement_shape print_body = true
  /\ may_break print_body = false
  /\ remove_unreachable_code_function
       (node_create FUNCTION [Node IDENTIFIER (identifier "f") None []; node_create LIST []; print_body])
     = Some (node_create FUNCTION
               [Node IDENTIFIER (identifier "f") None []; node_create LIST [];
                node_create BLOCK
                  [node_create LIST [print_body; node_create RETURN_STATEMENT [lit 0]]]])
  /\ always_returns
       (node_create BLOCK
          [node_create LIST [print_body; node_create RETURN_STATEMENT [lit 0]]]) = true.
Proof.
  pose proof (function_body_wrapped_unless_diverting
                no_data None (Node IDENTIFIER (identifier "f") None [])
                (node_create LIST []) print_body [] eq_refl) as [H1 H2].
  split; [reflexivity|]. split; [reflexivity|].
  split; [exact H1 | exact (H2 eq_refl)].
Defined.

End TreeFacts.

(** ** Binding *)

Module SymbolsFacts.
Import Symbols SymbolsSpec.

Lemma create_symbol_fresh node name type table :
  entries (hashmap table) !! name = None ->
  let symbol := mk_symbol type name (n_symbols table) (node_param_count node) in
  create_symbol node name type table
  = (Some symbol,
     mk_table (symbols table ++ [symbol])
              (Hashmap (<[name := symbol]> (entries (hashmap table)))
                       (backup (hashmap table)))).
Proof.
  intros H. unfold create_symbol, symbol_table_insert. simpl. rewrite H. reflexivity.
Qed.

Lemma create_symbol_collision node name type table :
  is_Some (entries (hashmap table) !! name) ->
  create_symbol node name type table = (None, table).
Proof.
  intros [s H]. unfold create_symbol, symbol_table_insert. simpl. rewrite H. reflexivity.
Qed.

Lemma extends_refl type table : extends type table table [].
Proof. exists []. rewrite app_nil_r. repeat split; constructor. Qed.

Lemma extends_trans type t1 t2 t3 n1 n2 :
  extends type t1 t2 n1 -> extends type t2 t3 n2 -> extends type t1 t3 (n1 ++ n2).
Proof.
  intros (new1 & -> & H1 & H2 & H3) (new2 & -> & H4 & H5 & H6).
  exists (new1 ++ new2). rewrite app_assoc. split; [reflexivity|].
  rewrite !map_app, H1, H4, H2, H5, !length_app, seq_app.
  repeat split. apply Forall_app; auto.
Qed.

Lemma extends_one type table name number params :
  number = length table ->
  extends type table (table ++ [mk_symbol type name number params]) [name].
Proof.
  intros ->. eexists. split; [reflexivity|]. simpl. repeat split. repeat constructor.
Qed.

Lemma declare_identifiers_extends block identifiers : forall table table',
  declare_identifiers block table identifiers = Ok table' ->
  extends SYMBOL_LOCAL_VAR (symbols table) (symbols table') (names_of identifiers)
  /\ backup (hashmap table') = backup (hashmap table).
Proof.
  induction identifiers as [|i r IH]; intros table table' H; simpl in H.
  - injection H as <-. split; [apply extends_refl | reflexivity].
  - destruct i as [|t d s c]; [discriminate|].
    destruct d; try discriminate. simpl in H.
    destruct (entries (hashmap table) !! id) eqn:E.
    + rewrite create_symbol_collision in H by eauto. discriminate.
    + rewrite create_symbol_fresh in H by exact E.
      apply IH in H as [H1 H2]. simpl in *. split; [|exact H2].
      change (id :: names_of r) with ([id] ++ names_of r).
      eapply extends_trans; [|exact H1]. apply extends_one. reflexivity.
Qed.

Lemma declare_lists_extends block lists : forall table table',
  declare_lists block table lists = Ok table' ->
  extends SYMBOL_LOCAL_VAR (symbols table) (symbols table') (declaration_names lists)
  /\ backup (hashmap table') = backup (hashmap table).
Proof.
  induction lists as [|l r IH]; intros table table' H; simpl in H.
  - injection H as <-. split; [apply extends_refl | reflexivity].
  - destruct l as [|t d s identifiers]; [discriminate|].
    destruct (declare_identifiers block table identifiers) as [table1|] eqn:E; [|discriminate].
    simpl in H. apply declare_identifiers_extends in E as [E1 E2].
    apply IH in H as [H1 H2]. split; [|congruence].
    unfold declaration_names. simpl. eapply extends_trans; eauto.
Qed.

Lemma bind_children_extends children :
  Forall binds_in_order children ->
  forall st st' children',
    bind_children bind_names st children = Ok (st', children') ->
    extends SYMBOL_LOCAL_VAR (symbols (local_symbols st)) (symbols (local_symbols st'))
            (flat_map declared_locals children).
Proof.
  induction 1 as [|c r Hc _ IH]; intros st st' children' H; simpl in H.
  - injection H as <- <-. apply extends_refl.
  - destruct (bind_names st c) as [[st1 c']|] eqn:E1; [|discriminate]. simpl in H.
    destruct (bind_children bind_names st1 r) as [[st2 r']|] eqn:E2; [|discriminate].
    simpl in H. injection H as <- <-.
    simpl. eapply extends_trans; [exact (Hc _ _ _ E1) | exact (IH _ _ _ E2)].
Qed.

Lemma bind_names_extends node : binds_in_order node.
Proof.
  induction node as [|type data symbol children IH] using node_t_ind'; intros st st' node' H.
  - injection H as <- <-. apply extends_refl.
  - assert (Hdefault :
      forall st st' children',
        bind_children bind_names st children = Ok (st', children') ->
        extends SYMBOL_LOCAL_VAR (symbols (local_symbols st)) (symbols (local_symbols st'))
                (flat_map declared_locals children))
      by (apply bind_children_extends; exact IH).
    destruct type;
      try (simpl in H;
           destruct (bind_children bind_names st children) as [[st1 c1]|] eqn:E; [|discriminate];
           simpl in H; injection H as <- <-; exact (Hdefault _ _ _ E)).
    + (* BLOCK *)
      simpl in H.
      destruct children as [|a [|b [|c r]]].
      * simpl in H. injection H as <- <-. apply extends_refl.
      * match type of H with context [bind_children bind_names ?s ?l] =>
          destruct (bind_children bind_names s l) as [[st1 c1]|] eqn:E; [|discriminate] end.
        simpl in H. injection H as <- <-. exact (Hdefault _ _ _ E).
      * destruct a as [|ft fd fs identifier_lists]; [discriminate|].
        match type of H with context [declare_lists ?x ?t ?l] =>
          destruct (declare_lists x t l) as [table1|] eqn:E1; [|discriminate] end.
        simpl in H.
        match type of H with context [bind_names ?s b] =>
          destruct (bind_names s b) as [[st2 b']|] eqn:E2; [|discriminate] end.
        simpl in H. injection H as <- <-.
        apply declare_lists_extends in E1 as [E1 _].
        inversion IH as [|? ? _ IH1]; subst. inversion IH1 as [|? ? Hb _]; subst.
        apply Hb in E2. simpl in *.
        eapply extends_trans; eauto.
      * match type of H with context [bind_children bind_names ?s ?l] =>
          destruct (bind_children bind_names s l) as [[st1 c1]|] eqn:E; [|discriminate] end.
        simpl in H. injection H as <- <-. exact (Hdefault _ _ _ E).
    + (* IDENTIFIER *)
      simpl in H. destruct data; try discriminate. simpl in H.
      destruct (symbol_hashmap_lookup (hashmap (local_symbols st)) id); [|discriminate].
      injection H as <- <-. apply extends_refl.
    + (* STRING_LITERAL *)
      simpl in H. destruct data; try discriminate.
      injection H as <- <-. apply extends_refl.
Qed.

Lemma create_parameters_extends parameters : forall table table',
  create_parameters table parameters = Ok table' ->
  extends SYMBOL_PARAMETER (symbols table) (symbols table') (names_of parameters)
  /\ length (names_of parameters) = length parameters
  /\ backup (hashmap table') = backup (hashmap table).
Proof.
  induction parameters as [|p r IH]; intros table table' H; simpl in H.
  - injection H as <-. split; [apply extends_refl | auto].
  - destruct p as [|t d s c]; [discriminate|].
    destruct (node_type_eqb t IDENTIFIER); [|discriminate]. simpl in H.
    destruct d; try discriminate. simpl in H.
    destruct (entries (hashmap table) !! id) eqn:E.
    + rewrite create_symbol_collision in H by eauto. discriminate.
    + rewrite create_symbol_fresh in H by exact E.
      apply IH in H as (H1 & H2 & H3). simpl in *. split; [|split; [lia | exact H3]].
      change (id :: names_of r) with ([id] ++ names_of r).
      eapply extends_trans; [|exact H1]. apply extends_one. reflexivity.
Qed.

Lemma map_sym_type_replicate type (l : list symbol_t) :
  Forall (fun s => sym_type s = type) l -> map sym_type l = replicate (length l) type.
Proof. induction 1 as [|s r Hs _ IH]; simpl; [reflexivity|]. rewrite Hs, IH. reflexivity. Qed.

(** C6: in the table built for a function, the symbols stand in
    declaration order, the parameters (left to right) before every local
    variable, the local variables in the order the blocks of the body declare
    them, sibling blocks included; the sequence numbers are 0, 1, 2, ...
    along that order, so they increase strictly and none is used twice. *)
Theorem sequence_numbers_follow_declaration_order :
  forall global_symbols strings type data symbol name ptype pdata psymbol parameters
         block_node rest st function_node',
    create_function_table (function_symtable_init global_symbols) strings
      (Node type data symbol
            (name :: Node ptype pdata psymbol parameters :: block_node :: rest))
    = Ok (st, function_node') ->
    let table := symbols (local_symbols st) in
    map sym_name table = names_of parameters ++ declared_locals block_node
    /\ map sym_type table
       = replicate (length parameters) SYMBOL_PARAMETER
         ++ replicate (length (declared_locals block_node)) SYMBOL_LOCAL_VAR
    /\ map sequence_number table = seq 0 (length table)
    /\ NoDup (map sequence_number table).
Proof.
  intros global_symbols strings type data symbol name ptype pdata psymbol parameters
         block_node rest st function_node' H table.
  unfold create_function_table in H.
  destruct (create_parameters (function_symtable_init global_symbols) parameters)
    as [table1|] eqn:E1; [|discriminate].
  simpl in H.
  destruct (bind_names (mk_state table1 strings) block_node) as [[st2 block']|] eqn:E2;
    [|discriminate].
  simpl in H. injection H as <- <-.
  apply create_parameters_extends in E1 as ((newp & Hp1 & Hp2 & Hp3 & Hp4) & Hlen & _).
  apply bind_names_extends in E2 as (newl & Hl1 & Hl2 & Hl3 & Hl4).
  simpl in *. subst table. rewrite Hl1, Hp1. simpl.
  rewrite Hp1 in Hl3. simpl in Hl3, Hp3.
  assert (Hseq : map sequence_number (newp ++ newl) = seq 0 (length (newp ++ newl))).
  { rewrite map_app, Hp3, Hl3, length_app, seq_app. reflexivity. }
  repeat split.
  - rewrite map_app, Hp2, Hl2. reflexivity.
  - rewrite map_app, (map_sym_type_replicate _ _ Hp4), (map_sym_type_replicate _ _ Hl4).
    rewrite <- Hlen, <- Hp2, <- Hl2, !length_map. reflexivity.
  - exact Hseq.
  - rewrite Hseq. apply NoDup_ListNoDup, seq_NoDup.
Qed.

Lemma sequence_numbers_follow_declaration_order_witness :
  match create_function_table (function_symtable_init symbol_table_init) []
                              sibling_blocks_function with
  | Ok (st, _) =>
      map sym_name (symbols (local_symbols st)) = ["a"; "b"; "x"; "x"]
      /\ map sequence_number (symbols (local_symbols st)) = [0; 1; 2; 3]%nat
  | Fatal _ => False
  end.
Proof.
  destruct (create_function_table (function_symtable_init symbol_table_init) []
                                  sibling_blocks_function) as [[st node']|e] eqn:E.
  - destruct (sequence_numbers_follow_declaration_order _ _ _ _ _ _ _ _ _ _ _ _ _ _ E)
      as (H1 & _ & H3 & _).
    split; [exact H1|].
    rewrite H3. rewrite <- (length_map sym_name), H1. reflexivity.
  - vm_compute in E. discriminate.
Defined.

(** *** Collisions and shadowing *)

Lemma declarable_cons_inv_fresh (scope : gmap string symbol_t) name names symbol :
  scope !! name = None ->
  (declarable (<[name := symbol]> scope) names <-> declarable scope (name :: names)).
Proof.
  intros Hnone. unfold declarable. split.
  - intros [Hnd Hfresh]. split.
    + constructor; [|exact Hnd].
      intros Hin. specialize (Hfresh _ Hin). rewrite lookup_insert_eq in Hfresh. discriminate.
    + intros n Hn. apply elem_of_cons in Hn as [->|Hn]; [exact Hnone|].
      specialize (Hfresh _ Hn).
      destruct (decide (name = n)) as [->|Hne].
      * rewrite lookup_insert_eq in Hfresh. discriminate.
      * rewrite lookup_insert_ne in Hfresh by exact Hne. exact Hfresh.
  - intros [Hnd Hfresh]. apply NoDup_cons in Hnd as [Hnotin Hnd]. split; [exact Hnd|].
    intros n Hn.
    rewrite lookup_insert_ne by (intros ->; contradiction).
    apply Hfresh. apply elem_of_cons. auto.
Qed.

Lemma declared_cons (scope scope' : gmap string symbol_t) name names symbol :
  declared (<[name := symbol]> scope) scope' names -> declared scope scope' (name :: names).
Proof.
  intros H n. rewrite (H n), elem_of_cons.
  destruct (decide (name = n)) as [->|Hne].
  - rewrite lookup_insert_eq. split; [auto|]. intros _. left. eauto.
  - rewrite lookup_insert_ne by exact Hne. split; intros [?|?]; auto.
    destruct H0 as [->|?]; [contradiction | auto].
Qed.

(** A list of well-formed identifiers is declared when its names are
    declarable in the current scope map, and is a collision otherwise. *)
Lemma declare_identifiers_cases block identifiers : forall table,
  forallb is_identifier_node identifiers = true ->
  (exists table',
      declare_identifiers block table identifiers = Ok table'
      /\ declarable (entries (hashmap table)) (names_of identifiers)
      /\ declared (entries (hashmap table)) (entries (hashmap table')) (names_of identifiers))
  \/ (declare_identifiers block table identifiers = Fatal COLLISION
      /\ ~ declarable (entries (hashmap table)) (names_of identifiers)).
Proof.
  induction identifiers as [|i r IH]; intros table Hwf; simpl in *.
  - left. exists table. split; [reflexivity|]. split.
    + split; [constructor | intros n Hn; inversion Hn].
    + intros n. split; [auto | intros [?|Hn]; [auto | inversion Hn]].
  - apply andb_true_iff in Hwf as [Hi Hr].
    destruct i as [|t d s c]; [discriminate|]. destruct d; try discriminate. simpl.
    destruct (entries (hashmap table) !! id) eqn:E.
    + right. rewrite create_symbol_collision by eauto. split; [reflexivity|].
      intros [_ Hfresh]. rewrite Hfresh in E by (apply elem_of_cons; auto). discriminate.
    + rewrite create_symbol_fresh by exact E.
      match goal with |- context [declare_identifiers block ?t r] =>
        destruct (IH t Hr) as [(table' & H1 & H2 & H3) | (H1 & H2)] end; simpl in *.
      * left. exists table'. split; [exact H1|]. split.
        -- eapply declarable_cons_inv_fresh; [exact E | exact H2].
        -- eapply declared_cons. exact H3.
      * right. split; [exact H1|]. intros Hd. apply H2.
        eapply declarable_cons_inv_fresh; [exact E | exact Hd].
Qed.

Lemma declarable_app (scope scope' : gmap string symbol_t) names1 names2 :
  declared scope scope' names1 ->
  (declarable scope (names1 ++ names2)
   <-> declarable scope names1 /\ declarable scope' names2).
Proof.
  intros Hd. unfold declarable. rewrite NoDup_app. split.
  - intros [(H1 & H2 & H3) Hfresh]. repeat split; auto.
    + intros n Hn. apply Hfresh. apply elem_of_app. auto.
    + intros n Hn. apply eq_None_not_Some. rewrite (Hd n). intros [Hs|Hin].
      * rewrite Hfresh in Hs by (apply elem_of_app; auto). destruct Hs; discriminate.
      * exact (H2 _ Hin Hn).
  - intros [[H1 Hf1] [H2 Hf2]]. repeat split; auto.
    + intros n Hn1 Hn2. specialize (Hf2 _ Hn2).
      apply eq_None_not_Some in Hf2. apply Hf2. apply Hd. auto.
    + intros n Hn. apply elem_of_app in Hn as [Hn|Hn]; [auto|].
      specialize (Hf2 _ Hn). apply eq_None_not_Some. intros Hs.
      apply eq_None_not_Some in Hf2. apply Hf2. apply Hd. auto.
Qed.

Lemma declared_app (scope scope1 scope2 : gmap string symbol_t) names1 names2 :
  declared scope scope1 names1 -> declared scope1 scope2 names2 ->
  declared scope scope2 (names1 ++ names2).
Proof.
  intros H1 H2 n. rewrite (H2 n), (H1 n), elem_of_app. tauto.
Qed.

Lemma declare_lists_cases block lists : forall table,
  forallb is_identifier_list lists = true ->
  (exists table',
      declare_lists block table lists = Ok table'
      /\ declarable (entries (hashmap table)) (declaration_names lists)
      /\ declared (entries (hashmap table)) (entries (hashmap table')) (declaration_names lists))
  \/ (declare_lists block table lists = Fatal COLLISION
      /\ ~ declarable (entries (hashmap table)) (declaration_names lists)).
Proof.
  induction lists as [|l r IH]; intros table Hwf; simpl in *.
  - left. exists table. split; [reflexivity|]. split.
    + split; [constructor | intros n Hn; inversion Hn].
    + intros n. split; [auto | intros [?|Hn]; [auto | inversion Hn]].
  - apply andb_true_iff in Hwf as [Hl Hr].
    destruct l as [|t d s identifiers]; [discriminate|]. simpl in Hl.
    unfold declaration_names. simpl. fold (declaration_names r).
    destruct (declare_identifiers_cases block identifiers table Hl)
      as [(table1 & H1 & H2 & H3) | (H1 & H2)].
    + rewrite H1. simpl.
      destruct (IH table1 Hr) as [(table2 & H4 & H5 & H6) | (H4 & H5)].
      * left. exists table2. split; [exact H4|]. split.
        -- apply (declarable_app _ _ _ _ H3). auto.
        -- eapply declared_app; eauto.
      * right. split; [exact H4|]. intros Hd. apply H5.
        apply (declarable_app _ _ _ _ H3) in Hd. tauto.
    + right. rewrite H1. split; [reflexivity|]. intros Hd. apply H2.
      destruct Hd as [Hnd Hfresh]. apply NoDup_app in Hnd as (Hnd & _ & _).
      split; [exact Hnd|]. intros n Hn. apply Hfresh. apply elem_of_app. auto.
Qed.

Lemma declarable_empty names : declarable (∅ : gmap string symbol_t) names <-> NoDup names.
Proof.
  unfold declarable. split; [tauto|]. intros H. split; [exact H|].
  intros n _. apply lookup_empty.
Qed.

(** C7: a symbol whose name is already in the current scope map is
    refused by [create_symbol]; so, while a block is bound, a name declared
    twice among the block's own declarations is a fatal collision, whatever
    the enclosing scopes hold.  A block that declares a name once is bound
    without error whatever the enclosing scopes hold for that name, a use of
    the name inside the block resolves to the symbol the block has just
    created (a local variable carrying the table's next sequence number),
    and the enclosing scope map is back in place when the block is left. *)
Theorem same_scope_collides_nested_scope_shadows :
  forall st : bind_state,
    (forall node name type,
        is_Some (entries (hashmap (local_symbols st)) !! name) ->
        create_symbol node name type (local_symbols st) = (None, local_symbols st))
    /\ (forall data symbol ftype fdata fsymbol identifier_lists second_child,
          forallb is_identifier_list identifier_lists = true ->
          ~ NoDup (declaration_names identifier_lists) ->
          bind_names st
            (Node BLOCK data symbol [Node ftype fdata fsymbol identifier_lists; second_child])
          = Fatal COLLISION)
    /\ (forall name,
          exists inner,
            sym_type inner = SYMBOL_LOCAL_VAR
            /\ sym_name inner = name
            /\ sequence_number inner = n_symbols (local_symbols st)
            /\ bind_names st
                 (block_declaring [name]
                    (node_create RETURN_STATEMENT [identifier_use name None]))
               = Ok (mk_state (mk_table (symbols (local_symbols st) ++ [inner])
                                        (hashmap (local_symbols st)))
                              (string_list st),
                     block_declaring [name]
                       (node_create RETURN_STATEMENT [identifier_use name (Some inner)]))).
Proof.
  intros st. split; [|split].
  - intros node name type H. apply create_symbol_collision. exact H.
  - intros data symbol ftype fdata fsymbol identifier_lists second_child Hwf Hdup.
    simpl.
    match goal with |- context [declare_lists ?b ?t identifier_lists] =>
      destruct (declare_lists_cases b identifier_lists t Hwf)
        as [(table' & _ & H & _) | (H & _)] end.
    + simpl in H. apply declarable_empty in H. contradiction.
    + rewrite H. reflexivity.
  - intros name. eexists. split; [|split; [|split]]; cycle 3.
    + unfold block_declaring, identifier_use, node_create. simpl.
      rewrite create_symbol_fresh by apply lookup_empty. simpl.
      rewrite lookup_insert_eq. reflexivity.
    + reflexivity.
    + reflexivity.
    + reflexivity.
Qed.

Lemma same_scope_collides_nested_scope_shadows_witness :
  forallb is_identifier_list
    [node_create LIST [Node IDENTIFIER (identifier "x") None [];
                       Node IDENTIFIER (identifier "x") None []]] = true
  /\ ~ NoDup ["x"; "x"]
  /\ bind_names (mk_state symbol_table_init [])
       (block_declaring ["x"; "x"] (node_create RETURN_STATEMENT [identifier_use "x" None]))
     = Fatal COLLISION.
Proof.
  assert (Hdup : ~ NoDup ["x"; "x"]).
  { apply (bool_decide_unpack _). vm_compute. reflexivity. }
  split; [reflexivity|]. split; [exact Hdup|].
  exact (proj1 (proj2 (same_scope_collides_nested_scope_shadows (mk_state symbol_table_init [])))
           no_data None LIST no_data None
           [node_create LIST [Node IDENTIFIER (identifier "x") None [];
                              Node IDENTIFIER (identifier "x") None []]]
           (node_create LIST [node_create RETURN_STATEMENT [identifier_use "x" None]])
           eq_refl Hdup).
Defined.

Example shadowing_function_bound :
  match create_function_table (function_symtable_init symbol_table_init) []
                              shadowing_function with
  | Ok (_, function_node') =>
      function_node'
      = node_create FUNCTION
          [ Node IDENTIFIER (identifier "f") None [];
            node_create LIST [Node IDENTIFIER (identifier "x") None []];
            node_create BLOCK
              [ node_create LIST
                  [ block_declaring ["x"]
                      (node_create RETURN_STATEMENT
                         [identifier_use "x" (Some (mk_symbol SYMBOL_LOCAL_VAR "x" 1 1))]);
                    node_create RETURN_STATEMENT
                      [identifier_use "x" (Some (mk_symbol SYMBOL_PARAMETER "x" 0 0))] ] ] ]
  | Fatal _ => False
  end.
Proof. vm_compute. reflexivity. Qed.

End SymbolsFacts.

(** ** Code generation *)

Module GeneratorFacts.
Import Generator GeneratorSpec.

(** *** Stack offsets *)

Lemma to_int_to_size_t v : in_int v -> to_int (to_size_t v) = v.
Proof.
  unfold in_int, INT_MIN, INT_MAX, to_int, to_size_t, wrap_signed. intros H.
  replace (2 ^ 64) with (2 ^ 32 * 2 ^ 32) by reflexivity.
  rewrite <- Zplus_mod_idemp_l.
  rewrite Z.rem_mul_r by lia.
  rewrite Z.mul_comm, Z.mod_add by lia.
  rewrite Z.mod_mod by lia.
  rewrite Zplus_mod_idemp_l.
  rewrite Z.mod_small; lia.
Qed.

(** What [get_stack_offset] computes for a local variable, as long as the
    frame fits an [int]. *)
Lemma get_stack_offset_local function number :
  (FUNC_PARAM_COUNT function <= number)%nat ->
  Z.of_nat number < 2 ^ 27 ->
  get_stack_offset function number
  = - 8 * (Z.of_nat (Nat.max (FUNC_PARAM_COUNT function) 6)
           + Z.of_nat (number - FUNC_PARAM_COUNT function) + 1).
Proof.
  intros Hle Hsmall. unfold get_stack_offset.
  destruct (number <? FUNC_PARAM_COUNT function)%nat eqn:E;
    [apply Nat.ltb_lt in E; lia|].
  assert (Hmax : find_max (FUNC_PARAM_COUNT function) NUM_REGISTER_PARAMS
                 = Nat.max (FUNC_PARAM_COUNT function) 6).
  { unfold find_max, NUM_REGISTER_PARAMS.
    destruct (6 <? FUNC_PARAM_COUNT function)%nat eqn:E6;
      [apply Nat.ltb_lt in E6 | apply Nat.ltb_ge in E6]; lia. }
  rewrite Hmax, to_int_to_size_t; [lia|].
  unfold in_int, INT_MIN, INT_MAX. lia.
Qed.

Lemma frame_slots_pushes operands : forall rsp,
  frame_slots (map PUSHQ operands) (Some rsp) = slots_from operands rsp.
Proof.
  induction operands as [|o r IH]; intros rsp; simpl; [reflexivity|].
  rewrite IH. reflexivity.
Qed.

Lemma zero_slots_kept n : forall rsp,
  List.filter is_zero_push (slots_from (replicate n (literal "$0")) rsp)
  = slots_from (replicate n (literal "$0")) rsp.
Proof.
  induction n as [|n IHn]; intros rsp; simpl; [reflexivity|].
  rewrite IHn. reflexivity.
Qed.

Lemma zero_slots_after_registers registers n : forall rsp,
  forallb is_register registers = true ->
  List.filter is_zero_push (slots_from (registers ++ replicate n (literal "$0")) rsp)
  = slots_from (replicate n (literal "$0")) (rsp - 8 * Z.of_nat (length registers)).
Proof.
  induction registers as [|o r IH]; intros rsp H.
  - simpl app. rewrite zero_slots_kept. f_equal; simpl; lia.
  - simpl in H. apply andb_true_iff in H as [Ho Hr].
    simpl slots_from.
    destruct o; simpl in Ho; try discriminate; simpl;
      rewrite (IH _ Hr); f_equal; lia.
Qed.

Lemma zero_slot_lookup n : forall rsp k,
  (k < n)%nat ->
  map snd (slots_from (replicate n (literal "$0")) rsp) !! k
  = Some (rsp - 8 * (Z.of_nat k + 1)).
Proof.
  induction n as [|n IH]; intros rsp k Hk; [lia|].
  destruct k as [|k]; simpl.
  - f_equal; lia.
  - rewrite IH by lia. f_equal; lia.
Qed.

Lemma index_of_seq start n k :
  (k < n)%nat -> index_of (start + k) (seq start n) = Some k.
Proof.
  revert start k. induction n as [|n IH]; intros start k Hk; [lia|].
  simpl. destruct k as [|k].
  - rewrite Nat.add_0_r, Nat.eqb_refl. reflexivity.
  - destruct (Nat.eqb start (start + S k)) eqn:E; [apply Nat.eqb_eq in E; lia|].
    replace (start + S k)%nat with (S start + k)%nat by lia.
    rewrite IH by lia. reflexivity.
Qed.

Lemma zero_pushes_of_table parameters locals :
  Forall (fun s => sym_type s = SYMBOL_PARAMETER) parameters ->
  Forall (fun s => sym_type s = SYMBOL_LOCAL_VAR) locals ->
  flat_map (fun symbol =>
              if symtype_eqb (sym_type symbol) SYMBOL_LOCAL_VAR
              then [PUSHQ (literal "$0")] else [])
           (parameters ++ locals)
  = map PUSHQ (replicate (length locals) (literal "$0"))
  /\ List.filter is_local (parameters ++ locals) = locals.
Proof.
  intros Hp Hl. rewrite flat_map_app, List.filter_app.
  assert (H1 : flat_map (fun symbol =>
              if symtype_eqb (sym_type symbol) SYMBOL_LOCAL_VAR
              then [PUSHQ (literal "$0")] else []) parameters = []
              /\ List.filter is_local parameters = []).
  { induction Hp as [|s r Hs _ [IH1 IH2]]; [auto|]. simpl.
    unfold is_local at 1. rewrite Hs. simpl. auto. }
  assert (H2 : flat_map (fun symbol =>
              if symtype_eqb (sym_type symbol) SYMBOL_LOCAL_VAR
              then [PUSHQ (literal "$0")] else []) locals
              = map PUSHQ (replicate (length locals) (literal "$0"))
              /\ List.filter is_local locals = locals).
  { induction Hl as [|s r Hs _ [IH1 IH2]]; [auto|]. simpl.
    unfold is_local at 1. rewrite Hs. simpl. rewrite IH1, IH2. auto. }
  destruct H1 as [-> ->], H2 as [-> ->]. auto.
Qed.

(** Where the prologue puts the k-th local variable: right below the
    min(6, parameter count) register parameters it has pushed. *)
Lemma local_slot_of_table function parameters locals k :
  table_of parameters locals ->
  length parameters = FUNC_PARAM_COUNT function ->
  (k < length locals)%nat ->
  local_slot function (parameters ++ locals) (FUNC_PARAM_COUNT function + k)
  = Some (- 8 * (Z.of_nat (Nat.min 6 (FUNC_PARAM_COUNT function)) + Z.of_nat k + 1)).
Proof.
  intros (Hp & Hl & Hseq) Hlen Hk.
  destruct (zero_pushes_of_table parameters locals Hp Hl) as [Hz Hf].
  assert (Hlocals : map sequence_number locals = seq (length parameters) (length locals)).
  { rewrite map_app, seq_app in Hseq. apply app_inj_1 in Hseq; [tauto|].
    rewrite length_map, length_seq. reflexivity. }
  remember (Nat.min 6 (FUNC_PARAM_COUNT function)) as m eqn:Hm.
  unfold local_slot, generate_prologue. rewrite Hz, Hf, Hlocals, Hlen.
  rewrite index_of_seq by exact Hk. simpl.
  rewrite <- map_app, frame_slots_pushes.
  rewrite zero_slots_after_registers.
  - rewrite zero_slot_lookup by exact Hk. f_equal.
    rewrite length_take. unfold find_min, NUM_REGISTER_PARAMS, REGISTER_PARAMS. simpl length.
    destruct (6 <? FUNC_PARAM_COUNT function)%nat eqn:E;
      [apply Nat.ltb_lt in E | apply Nat.ltb_ge in E]; lia.
  - unfold find_min, NUM_REGISTER_PARAMS, REGISTER_PARAMS.
    destruct (6 <? FUNC_PARAM_COUNT function)%nat; [reflexivity|].
    destruct (FUNC_PARAM_COUNT function) as [|[|[|[|[|[|[|n]]]]]]]; reflexivity.
Qed.

(** The generator's offset for a local variable is the prologue's slot
    only for a function of exactly six parameters. *)
Lemma local_offset_matches_slot_iff function parameters locals k :
  table_of parameters locals ->
  length parameters = FUNC_PARAM_COUNT function ->
  (k < length locals)%nat ->
  Z.of_nat (FUNC_PARAM_COUNT function + k) < 2 ^ 27 ->
  (local_slot function (parameters ++ locals) (FUNC_PARAM_COUNT function + k)
   = Some (get_stack_offset function (FUNC_PARAM_COUNT function + k))
   <-> FUNC_PARAM_COUNT function = 6%nat).
Proof.
  intros Ht Hlen Hk Hsmall.
  rewrite (local_slot_of_table _ _ _ _ Ht Hlen Hk).
  rewrite get_stack_offset_local by (exact Hsmall || lia).
  replace (FUNC_PARAM_COUNT function + k - FUNC_PARAM_COUNT function)%nat with k by lia.
  destruct (Nat.min_spec 6 (FUNC_PARAM_COUNT function)) as [[? Hmin]|[? Hmin]];
    destruct (Nat.max_spec (FUNC_PARAM_COUNT function) 6) as [[? Hmax]|[? Hmax]];
    rewrite Hmin, Hmax; (split; [intros Heq; apply (f_equal (default 0)) in Heq; simpl in Heq; lia | intros Heq; f_equal; lia]).
Qed.

(** C1: the offset the generator computes for a local variable should be
    the frame slot the prologue pushed for it.  In a function without
    parameters and with one local variable the prologue pushes the zeroed
    slot at [-8(%rbp)], right below the frame pointer, while
    [get_stack_offset] answers -56: it skips max(parameter count, 6) slots
    where the prologue pushed min(6, parameter count) parameters. *)
Theorem local_offset_misses_prologue_slot :
  generate_prologue function_without_parameters [its_local]
  = [LABEL ".%s" [arg_string "f"]; PUSHQ RBP; MOVQ RSP RBP; PUSHQ (literal "$0")]
  /\ local_slot function_without_parameters [its_local] 0 = Some (-8)
  /\ get_stack_offset function_without_parameters 0 = -56.
Proof. repeat split. Qed.


(** *** Statements *)

(** After the code of a statement itself, the walker goes on into the
    children of the statement, whatever its type. *)
Lemma generate_statement_unfold current_function type data symbol children :
  generate_statement current_function (Node type data symbol children)
  = (own_code ←
       match type with
       | ASSIGNMENT_STATEMENT =>
           generate_assignment_statement current_function (Node type data symbol children)
       | PRINT_STATEMENT =>
           generate_print_statement current_function (Node type data symbol children)
       | RETURN_STATEMENT =>
           generate_return_statement current_function (Node type data symbol children)
       | FUNCTION_CALL =>
           generate_function_call current_function (Node type data symbol children)
       | _ => Some []
       end;
     children_code ← generate_children (generate_statement current_function) children;
     Some (own_code ++ children_code)).
Proof. reflexivity. Qed.

(** C3: a function call inside the expression of an assignment should be
    emitted once, as part of the expression.  For [x := g()] the generator
    emits the call, the store to [x], and then the call a second time: after
    the code of the assignment the walker goes on into the children of the
    assignment and meets the FUNCTION_CALL node again. *)
Theorem call_in_assignment_emitted_twice :
  forall current_function,
    generate_statement current_function assign_call
    = Some [ EMIT "call .%s" [arg_string "g"];
             EMIT "movq %s, .%s(%s)" [arg_operand RAX; arg_string "x"; arg_operand RIP];
             EMIT "call .%s" [arg_string "g"] ]
    /\ generate_assignment_statement current_function assign_call
       = Some [ EMIT "call .%s" [arg_string "g"];
                EMIT "movq %s, .%s(%s)" [arg_operand RAX; arg_string "x"; arg_operand RIP] ]
    /\ count_calls "g"
         (default [] (generate_statement current_function assign_call)) = 2%nat.
Proof. intros current_function. repeat split. Qed.

(** The same happens to the call of [return g()]. *)
Example call_in_return_emitted_twice :
  forall current_function,
    count_calls "g"
      (default [] (generate_statement current_function
                     (node_create RETURN_STATEMENT [call_g]))) = 2%nat.
Proof. reflexivity. Qed.

End GeneratorFacts.

(** ** The null placeholder *)

Module Placeholder.

(** C10: every pass that walks the tree returns at once on a null node:
    folding and unreachable-code removal hand the null node back (the latter
    with the answer false), binding leaves its state as it was, and the
    statement and expression generators emit nothing.  Met as a child, the
    null node is kept in place and the pass goes on with the next child from
    the state it was in. *)
Theorem passes_return_on_null :
  Tree.constant_fold_subtree NULL = Some NULL
  /\ (forall st, Symbols.bind_names st NULL = Symbols.Ok (st, NULL))
  /\ Tree.remove_unreachable_code NULL = Some (false, NULL)
  /\ (forall current_function, Generator.generate_statement current_function NULL = Some [])
  /\ (forall current_function, Generator.generate_expression current_function NULL = Some [])
  /\ (forall rest,
        Tree.for_each_child Tree.constant_fold_subtree (NULL :: rest)
        = cons NULL <$> Tree.for_each_child Tree.constant_fold_subtree rest)
  /\ (forall st rest,
        Symbols.bind_children Symbols.bind_names st (NULL :: rest)
        = match Symbols.bind_children Symbols.bind_names st rest with
          | Symbols.Ok (st', rest') => Symbols.Ok (st', NULL :: rest')
          | Symbols.Fatal e => Symbols.Fatal e
          end)
  /\ (forall rest,
        Tree.scan_statements Tree.remove_unreachable_code (NULL :: rest)
        = match Tree.scan_statements Tree.remove_unreachable_code rest with
          | Some (b, rest') => Some (b, NULL :: rest')
          | None => None
          end)
  /\ (forall current_function rest,
        Generator.generate_children (Generator.generate_statement current_function) (NULL :: rest)
        = Generator.generate_children (Generator.generate_statement current_function) rest).
Proof.
  split; [reflexivity|]. split; [reflexivity|]. split; [reflexivity|].
  split; [reflexivity|]. split; [reflexivity|].
  split; [|split; [|split]].
  - intros rest. simpl.
    destruct (Tree.for_each_child Tree.constant_fold_subtree rest); reflexivity.
  - intros st rest. simpl.
    destruct (Symbols.bind_children Symbols.bind_names st rest) as [[? ?]|]; reflexivity.
  - intros rest. simpl.
    destruct (Tree.scan_statements Tree.remove_unreachable_code rest) as [[? ?]|]; reflexivity.
  - intros current_function rest. simpl.
    destruct (Generator.generate_children _ rest); reflexivity.
Qed.

End Placeholder.

(** ** Further properties of the tree passes *)

Module TreeListFacts.
Import TreeList.

Lemma allocation_size_loop_spec fuel : forall k min_allocation_size,
  0 <= k -> (64 <= Z.of_nat fuel + k) ->
  min_allocation_size <= 2 ^ 63 ->
  (k = 0 \/ 2 ^ (k - 1) < min_allocation_size) ->
  exists j,
    k <= j <= 63
    /\ allocation_size_loop fuel (2 ^ k) min_allocation_size = Some (2 ^ j)
    /\ min_allocation_size <= 2 ^ j
    /\ (j = 0 \/ 2 ^ (j - 1) < min_allocation_size).
Proof.
  induction fuel as [|fuel IH]; intros k m Hk Hfuel Hm Hinv.
  - simpl. assert (2 ^ 63 <= 2 ^ k) by (apply Z.pow_le_mono_r; lia).
    destruct (2 ^ k <? m) eqn:E; [apply Z.ltb_lt in E; lia|].
    apply Z.ltb_ge in E.
    assert (k = 64 \/ 64 < k) as [->|Hbig] by lia.
    + exfalso. assert (2 ^ 63 < 2 ^ 64) by (apply Z.pow_lt_mono_r; lia). 
      destruct Hinv as [?|Hinv]; [lia|]. simpl in Hinv. lia.
    + exfalso. destruct Hinv as [?|Hinv]; [lia|].
      assert (2 ^ 63 <= 2 ^ (k - 1)) by (apply Z.pow_le_mono_r; lia). lia.
  - simpl. destruct (2 ^ k <? m) eqn:E.
    + apply Z.ltb_lt in E.
      assert (k < 63).
      { destruct (Z.lt_ge_cases k 63) as [?|Hge]; [assumption|].
        assert (2 ^ 63 <= 2 ^ k) by (apply Z.pow_le_mono_r; lia). lia. }
      assert (Hdouble : Generator.to_size_t (2 ^ k * 2) = 2 ^ (k + 1)).
      { unfold Generator.to_size_t. rewrite Z.pow_add_r by lia.
        rewrite Z.pow_1_r. apply Z.mod_small. split; [lia|].
        rewrite <- (Z.pow_1_r 2) at 2. rewrite <- Z.pow_add_r by lia.
        apply Z.pow_lt_mono_r; lia. }
      rewrite Hdouble.
      destruct (IH (k + 1) m) as (j & Hj & Hloop & Hle & Hlow); try lia.
      { right. replace (k + 1 - 1) with k by lia. exact E. }
      exists j. repeat split; try lia; assumption.
    + apply Z.ltb_ge in E. 
      assert (k <= 63).
      { destruct Hinv as [->|Hinv]; [lia|].
        destruct (Z.le_gt_cases k 63) as [?|Hgt]; [assumption|].
        assert (2 ^ 63 <= 2 ^ (k - 1)) by (apply Z.pow_le_mono_r; lia). lia. }
      exists k. repeat split; try lia; assumption.
Qed.

Lemma allocation_size_of_count n :
  0 <= n < 2 ^ 63 ->
  exists j,
    0 <= j <= 63
    /\ allocation_size (Generator.to_size_t (n + 1)) = Some (2 ^ j)
    /\ n < 2 ^ j
    /\ (j = 0 \/ 2 ^ (j - 1) <= n).
Proof.
  intros Hn. unfold allocation_size.
  assert (Hmin : Generator.to_size_t (n + 1) = n + 1).
  { unfold Generator.to_size_t. apply Z.mod_small.
    assert (2 ^ 63 < 2 ^ 64) by (apply Z.pow_lt_mono_r; lia). lia. }
  rewrite Hmin.
  destruct (allocation_size_loop_spec 65 0 (n + 1)) as (j & Hj & Hloop & Hle & Hlow);
    try lia.
  change (2 ^ 0) with 1 in Hloop.
  exists j. repeat split; try lia. exact Hloop.
Qed.

(** X1: appending to a LIST node with [n] children (fewer than 2^60) puts the
    element behind the children already there, and the array is resized to
    hold a power of two of pointers: more than [n], and not more than
    needed, since half of it would not hold [n + 1] children. *)
Theorem append_to_list_node_fits :
  forall data symbol children element,
    Z.of_nat (length children) < 2 ^ 60 ->
    exists j,
      0 <= j <= 60
      /\ append_to_list_node (Node LIST data symbol children) element
         = Some (Node LIST data symbol (children ++ [element]), 2 ^ j * sizeof_node_pointer)
      /\ Z.of_nat (length children) < 2 ^ j
      /\ (j = 0 \/ 2 ^ (j - 1) <= Z.of_nat (length children)).
Proof.
  intros data symbol children element Hn.
  assert (H60 : 2 ^ 60 < 2 ^ 63) by (apply Z.pow_lt_mono_r; lia).
  destruct (allocation_size_of_count (Z.of_nat (length children)))
    as (j & Hj & Hsize & Hfits & Hlow); [lia|].
  assert (Hj60 : j <= 60).
  { destruct Hlow as [->|Hlow]; [lia|].
    destruct (Z.le_gt_cases j 60) as [?|Hgt]; [assumption|].
    assert (2 ^ 60 <= 2 ^ (j - 1)) by (apply Z.pow_le_mono_r; lia). lia. }
  assert (Hpow : 0 < 2 ^ j <= 2 ^ 60)
    by (split; [apply Z.pow_pos_nonneg; lia | apply Z.pow_le_mono_r; lia]).
  assert (H64 : 2 ^ 64 = 2 ^ 60 * 16) by reflexivity.
  unfold append_to_list_node. simpl negb. cbv iota zeta.
  rewrite Hsize. cbn [mbind option_bind].
  assert (Hbytes : Generator.to_size_t (2 ^ j * sizeof_node_pointer)
                   = 2 ^ j * sizeof_node_pointer).
  { unfold Generator.to_size_t, sizeof_node_pointer. apply Z.mod_small. lia. }
  rewrite Hbytes.
  destruct (Z.leb_spec ((Z.of_nat (length children) + 1) * sizeof_node_pointer)
                       (2 ^ j * sizeof_node_pointer)) as [_|Hbad];
    [|unfold sizeof_node_pointer in Hbad; lia].
  exists j. repeat split; try lia.
Qed.

Lemma append_to_list_node_fits_witness :
  Z.of_nat (length [NULL; NULL]) < 2 ^ 60
  /\ exists j,
       append_to_list_node (Node LIST no_data None [NULL; NULL]) NULL
       = Some (Node LIST no_data None [NULL; NULL; NULL], 2 ^ j * sizeof_node_pointer)
       /\ 2 < 2 ^ j.
Proof.
  assert (H : Z.of_nat (length [NULL; NULL]) < 2 ^ 60) by (vm_compute; reflexivity).
  split; [exact H|].
  destruct (append_to_list_node_fits no_data None [NULL; NULL] NULL H)
    as (j & _ & H1 & H2 & _).
  exists j. split; [exact H1 | exact H2].
Defined.

(** From 2^60 children on the byte count wraps around in [size_t]:
    [realloc] is asked for 0 bytes and the element is stored past the end
    of the allocation. *)
Lemma append_to_list_node_overflows data symbol children element :
  2 ^ 60 <= Z.of_nat (length children) < 2 ^ 63 ->
  append_to_list_node (Node LIST data symbol children) element = None.
Proof.
  intros Hn.
  destruct (allocation_size_of_count (Z.of_nat (length children)))
    as (j & Hj & Hsize & Hfits & Hlow); [lia|].
  assert (Hj61 : 61 <= j).
  { destruct (Z.le_gt_cases 61 j) as [?|Hlt]; [assumption|].
    assert (2 ^ j <= 2 ^ 60) by (apply Z.pow_le_mono_r; lia). lia. }
  unfold append_to_list_node. simpl negb. cbv iota zeta.
  rewrite Hsize. cbn [mbind option_bind].
  assert (Hbytes : Generator.to_size_t (2 ^ j * sizeof_node_pointer) = 0).
  { unfold Generator.to_size_t, sizeof_node_pointer.
    replace j with (61 + (j - 61)) by lia. rewrite Z.pow_add_r by lia.
    replace (2 ^ 61 * 2 ^ (j - 61) * 8) with (2 ^ (j - 61) * 2 ^ 64)
      by (change (2 ^ 64) with (2 ^ 61 * 8); lia).
    apply Z.mod_mul. lia. }
  rewrite Hbytes.
  destruct (Z.leb_spec ((Z.of_nat (length children) + 1) * sizeof_node_pointer) 0)
    as [Hbad|_]; [unfold sizeof_node_pointer in Hbad; lia | reflexivity].
Qed.

(** Appending to anything but a LIST node trips the assertion. *)
Lemma append_to_non_list type data symbol children element :
  type <> LIST -> append_to_list_node (Node type data symbol children) element = None.
Proof. intros H. destruct type; try reflexivity. contradiction. Qed.

End TreeListFacts.

Module FoldFacts.
Import Tree TreeSpec TreeFacts FoldSpec.

Lemma for_each_child_Forall2 (f : node_t -> option node_t) children children' :
  for_each_child f children = Some children' ->
  Forall2 (fun c c' => f c = Some c') children children'.
Proof.
  revert children'. induction children as [|c r IH]; intros children' H; simpl in H.
  - injection H as <-. constructor.
  - destruct (f c) as [c'|] eqn:Ec; [|discriminate].
    destruct (for_each_child f r) as [r'|]; [|discriminate].
    injection H as <-. constructor; auto.
Qed.

Lemma for_each_child_fixed (f : node_t -> option node_t) children :
  Forall (fun c => f c = Some c) children -> for_each_child f children = Some children.
Proof.
  induction 1 as [|c r Hc _ IH]; simpl; [reflexivity|]. rewrite Hc, IH. reflexivity.
Qed.

(** What the folder of one node can return. *)
Lemma constant_fold_operator_result node result :
  constant_fold_operator node = Some result ->
  result = node \/ exists value, result = lit value.
Proof.
  unfold constant_fold_operator. destruct node as [|type data symbol children]; [discriminate|].
  destruct (negb (node_type_eqb type OPERATOR)); [discriminate|].
  destruct (all_number_literals children) as [[|]|]; try discriminate.
  - destruct data; try discriminate.
    destruct children as [|c0 rest]; [discriminate|].
    destruct (number_literal_of c0); [|discriminate].
    destruct (match rest with [] => Some 0 | c1 :: _ => number_literal_of c1 end); [|discriminate].
    destruct (get_operator_func op (length (c0 :: rest))) as [f|].
    + destruct (f _ _); [|discriminate]. intros [= <-]. right. eexists. reflexivity.
    + intros [= <-]. auto.
  - intros [= <-]. auto.
Qed.

Lemma constant_fold_if_result type data symbol children result :
  constant_fold_if (Node type data symbol children) = Some result ->
  (result = Node type data symbol children /\ literal_condition children = false)
  \/ result = NULL \/ In result children.
Proof.
  unfold constant_fold_if. destruct type; try discriminate.
  destruct children as [|c rest]; [discriminate|].
  destruct c as [|ctype cdata csymbol cchildren]; [discriminate|].
  destruct (node_type_eqb ctype NUMBER_LITERAL) eqn:E; simpl.
  - destruct cdata; try discriminate.
    destruct (value =? 0); simpl.
    + destruct rest as [|t [|e r]]; intros [= <-]; simpl; tauto.
    + destruct rest as [|t r]; [discriminate|]. intros [= <-]. simpl. tauto.
  - intros [= <-]. left. split; [reflexivity|]. destruct ctype; try reflexivity; discriminate.
Qed.

Lemma constant_fold_while_result type data symbol children result :
  constant_fold_while (Node type data symbol children) = Some result ->
  (result = Node type data symbol children /\ zero_condition children = false)
  \/ result = NULL.
Proof.
  unfold constant_fold_while. destruct type; try discriminate.
  destruct children as [|c rest]; [discriminate|].
  destruct c as [|ctype cdata csymbol cchildren]; [discriminate|].
  destruct (node_type_eqb ctype NUMBER_LITERAL) eqn:E; simpl.
  - destruct cdata; try discriminate.
    destruct (value =? 0) eqn:Ev; intros [= <-]; auto.
    left. split; [reflexivity|]. destruct ctype; try discriminate. simpl. rewrite ?Ev. reflexivity.
  - intros [= <-]. left. split; [reflexivity|]. destruct ctype; try reflexivity; discriminate.
Qed.

Lemma constant_fold_subtree_Node type data symbol children :
  constant_fold_subtree (Node type data symbol children)
  = match for_each_child constant_fold_subtree children with
    | None => None
    | Some children' =>
        match type with
        | OPERATOR => constant_fold_operator (Node type data symbol children')
        | IF_STATEMENT => constant_fold_if (Node type data symbol children')
        | WHILE_STATEMENT => constant_fold_while (Node type data symbol children')
        | _ => Some (Node type data symbol children')
        end
    end.
Proof.
  change (constant_fold_subtree (Node type data symbol children))
    with (match for_each_child
                  (fun child =>
                     match child with
                     | NULL => Some NULL
                     | Node _ _ _ _ => constant_fold_subtree child
                     end) children with
          | None => None
          | Some children' =>
              match type with
              | OPERATOR => constant_fold_operator (Node type data symbol children')
              | IF_STATEMENT => constant_fold_if (Node type data symbol children')
              | WHILE_STATEMENT => constant_fold_while (Node type data symbol children')
              | _ => Some (Node type data symbol children')
              end
          end).
  rewrite for_each_child_fold. reflexivity.
Qed.

Lemma folded_facts_children children children' :
  Forall folded_facts children ->
  for_each_child constant_fold_subtree children = Some children' ->
  Forall (fun c => constant_fold_subtree c = Some c) children'
  /\ existsb has_constant_branch children' = false.
Proof.
  intros HF H. apply for_each_child_Forall2 in H.
  induction H as [|c c' r r' Hc _ IH]; [split; [constructor | reflexivity]|].
  inversion HF as [|? ? Hfc Hfr]; subst.
  destruct (Hfc _ Hc) as [H1 H2]. destruct (IH Hfr) as [H3 H4].
  split; [constructor; assumption|]. simpl. rewrite H2, H4. reflexivity.
Qed.

Lemma constant_fold_subtree_facts node : folded_facts node.
Proof.
  induction node as [|type data symbol children IH] using node_t_ind'; intros node' H.
  - injection H as <-. split; reflexivity.
  - rewrite constant_fold_subtree_Node in H.
    destruct (for_each_child constant_fold_subtree children) as [children'|] eqn:E;
      [|discriminate].
    destruct (folded_facts_children _ _ IH E) as [Hfix Hfree].
    assert (Hchild : forall r, In r children' ->
              constant_fold_subtree r = Some r /\ has_constant_branch r = false).
    { intros r Hr. split.
      - rewrite List.Forall_forall in Hfix. auto.
      - destruct (has_constant_branch r) eqn:Er; [|reflexivity].
        assert (existsb has_constant_branch children' = true)
          by (apply existsb_exists; eauto). congruence. }
    assert (Hsame : forall t, 
              (match t with
               | OPERATOR => constant_fold_operator (Node t data symbol children')
               | IF_STATEMENT => constant_fold_if (Node t data symbol children')
               | WHILE_STATEMENT => constant_fold_while (Node t data symbol children')
               | _ => Some (Node t data symbol children')
               end) = Some (Node t data symbol children') ->
              (match t with
               | IF_STATEMENT => literal_condition children'
               | WHILE_STATEMENT => zero_condition children'
               | _ => false
               end) = false ->
              constant_fold_subtree (Node t data symbol children')
              = Some (Node t data symbol children')
              /\ has_constant_branch (Node t data symbol children') = false).
    { intros t Hdisp Hcond. split.
      - rewrite constant_fold_subtree_Node, (for_each_child_fixed _ _ Hfix). exact Hdisp.
      - simpl. rewrite Hcond, Hfree. reflexivity. }
    assert (Hlit : forall v, constant_fold_subtree (lit v) = Some (lit v)
                             /\ has_constant_branch (lit v) = false)
      by (intros v; split; reflexivity).
    destruct type; cbv beta iota zeta in H;
      try (injection H as <-; apply Hsame; reflexivity).
    + (* IF *)
      destruct (constant_fold_if_result _ _ _ _ _ H) as [[Heq Hc]|[Heq|Hin]];
        try subst node'.
      * apply Hsame; assumption.
      * split; reflexivity.
      * apply Hchild; assumption.
    + (* WHILE *)
      destruct (constant_fold_while_result _ _ _ _ _ H) as [[Heq Hc]|Heq]; subst node'.
      * apply Hsame; assumption.
      * split; reflexivity.
    + (* OPERATOR *)
      destruct (constant_fold_operator_result _ _ H) as [Heq|[v Heq]]; subst node'.
      * apply Hsame; [exact H | reflexivity].
      * apply Hlit.
Qed.

(** X2: folding once is enough: folding a folded tree returns it unchanged. *)
Theorem constant_fold_subtree_idempotent :
  forall node node',
    constant_fold_subtree node = Some node' ->
    constant_fold_subtree node' = Some node'.
Proof. intros node node' H. exact (proj1 (constant_fold_subtree_facts node node' H)). Qed.

Lemma constant_fold_subtree_idempotent_witness :
  constant_fold_subtree (lit 14) = Some (lit 14).
Proof.
  apply (constant_fold_subtree_idempotent
           (Node OPERATOR (operator "+") None
              [lit 2; Node OPERATOR (operator "*") None [lit 3; lit 4]])).
  reflexivity.
Defined.

(** X3: a folded tree holds no if with a number literal as its condition and
    no while with the literal 0 as its condition, at any depth. *)
Theorem folded_tree_has_no_constant_branch :
  forall node node',
    constant_fold_subtree node = Some node' ->
    has_constant_branch node' = false.
Proof. intros node node' H. exact (proj2 (constant_fold_subtree_facts node node' H)). Qed.

Lemma folded_tree_has_no_constant_branch_witness :
  has_constant_branch
    (Node IF_STATEMENT no_data None
       [lit 1; node_create BLOCK [node_create LIST []]]) = true
  /\ has_constant_branch (node_create BLOCK [node_create LIST []]) = false.
Proof.
  split; [reflexivity|].
  apply (folded_tree_has_no_constant_branch
           (Node IF_STATEMENT no_data None
              [Node OPERATOR (operator "<") None [lit 1; lit 2];
               node_create BLOCK [node_create LIST []]])).
  reflexivity.
Defined.

(** X4: the folder divides without looking at the divisor: a division whose
    divisor is 0 once narrowed to [int] stops the compiler, also when the
    64-bit divisor is not 0. *)
Theorem constant_fold_division_by_zero :
  forall symbol a b,
    to_int b = 0 ->
    constant_fold_operator (Node OPERATOR (operator "/") symbol [lit a; lit b]) = None.
Proof.
  intros symbol a b Hb. unfold constant_fold_operator, get_operator_func. cbn.
  rewrite Hb. reflexivity.
Qed.

Lemma constant_fold_division_by_zero_witness :
  constant_fold_operator (Node OPERATOR (operator "/") None [lit 1; lit 4294967296]) = None.
Proof. apply constant_fold_division_by_zero. vm_compute. reflexivity. Defined.

(** X5: an operator the table does not list for the number of operands at
    hand is left alone, literal operands or not. *)
Theorem constant_fold_unknown_operator_unchanged :
  forall op symbol values,
    values <> [] ->
    get_operator_func op (length values) = None ->
    let node := Node OPERATOR (operator op) symbol (map lit values) in
    constant_fold_operator node = Some node.
Proof.
  intros op symbol values Hne Hnone node. unfold node, constant_fold_operator. simpl negb. cbv iota.
  assert (Hall : all_number_literals (map lit values) = Some true)
    by (clear; induction values; simpl; auto).
  rewrite Hall. destruct values as [|v0 rest]; [contradiction|]. simpl map.
  simpl number_literal_of. 
  assert (Hv2 : exists v2, match map lit rest with
                           | [] => Some 0
                           | c1 :: _ => number_literal_of c1
                           end = Some v2)
    by (destruct rest; simpl; eauto).
  destruct Hv2 as [v2 ->].
  change (length (lit v0 :: map lit rest)) with (S (length (map lit rest))).
  rewrite length_map. simpl in Hnone. rewrite Hnone. reflexivity.
Qed.

Lemma constant_fold_unknown_operator_unchanged_witness :
  constant_fold_operator (Node OPERATOR (operator "+") None [lit 1; lit 2; lit 3])
  = Some (Node OPERATOR (operator "+") None [lit 1; lit 2; lit 3]).
Proof.
  apply (constant_fold_unknown_operator_unchanged "+" None [1; 2; 3]).
  - discriminate.
  - reflexivity.
Defined.

End FoldFacts.

Module ReachFacts.
Import Tree TreeSpec TreeFacts ReachSpec.

Lemma keep_reachable_facts statements :
  Forall clean_facts statements ->
  keep_reachable cleaned (keep_reachable cleaned statements) = keep_reachable cleaned statements
  /\ only_last_diverts (keep_reachable cleaned statements) = true
  /\ forallb no_dead_code (keep_reachable cleaned statements) = true
  /\ (forallb statement_shape statements = true ->
      forallb statement_shape (keep_reachable cleaned statements) = true).
Proof.
  induction 1 as [|s r (Hs1 & Hs2 & Hs3) _ (IH1 & IH2 & IH3 & IH4)]; simpl.
  - auto.
  - destruct (cleaning_preserves s) as [Hd _].
    destruct (diverts s) eqn:E; simpl.
    + rewrite Hd, Hs1, Hs2. repeat split; auto.
      intros H. apply andb_true_iff in H as [H _]. rewrite (Hs3 H). reflexivity.
    + rewrite Hd, Hs1, Hs2, IH1, IH3. simpl. repeat split; auto.
      * destruct (keep_reachable cleaned r) eqn:Er; [reflexivity|]. exact IH2.
      * intros H. apply andb_true_iff in H as [H1 H2]. rewrite (Hs3 H1), (IH4 H2). reflexivity.
Qed.

Lemma map_last_child_twice f children :
  map_last_child f (map_last_child f children) = map_last_child (fun x => f (f x)) children.
Proof.
  induction children as [|a [|b r] IH]; try reflexivity.
  change (map_last_child f (a :: b :: r)) with (a :: map_last_child f (b :: r)).
  change (map_last_child (fun x => f (f x)) (a :: b :: r))
    with (a :: map_last_child (fun x => f (f x)) (b :: r)).
  rewrite <- IH.
  destruct (map_last_child f (b :: r)) eqn:E; [destruct r; discriminate|]. reflexivity.
Qed.

Lemma map_last_child_ext f g children :
  Forall (fun x => f x = g x) children -> map_last_child f children = map_last_child g children.
Proof.
  induction children as [|a [|b r] IH]; intros H.
  - reflexivity.
  - inversion H; subst. simpl. congruence.
  - inversion H; subst.
    change (a :: map_last_child f (b :: r) = a :: map_last_child g (b :: r)). f_equal. auto.
Qed.

Lemma last_child_satisfies_impl f g children :
  Forall (fun x => f x = true -> g x = true) children ->
  last_child_satisfies f children = true -> last_child_satisfies g children = true.
Proof.
  induction children as [|a [|b r] IH]; intros H Hf.
  - discriminate.
  - inversion H; subst. simpl in *. auto.
  - inversion H; subst.
    change (last_child_satisfies g (b :: r) = true).
    change (last_child_satisfies f (b :: r) = true) in Hf. auto.
Qed.

Lemma last_child_satisfies_false children :
  last_child_satisfies (fun _ => false) children = false.
Proof. induction children as [|a [|b r] IH]; try reflexivity. exact IH. Qed.

Lemma cleaned_facts node : clean_facts node.
Proof.
  induction node as [|type data symbol children IH IHs] using node_statements_ind.
  - split; [reflexivity|split; [reflexivity|auto]].
  - destruct type; try (split; [reflexivity|split; [reflexivity|auto]]; fail).
    + (* BLOCK *)
      assert (Hlists : Forall (fun statement_list =>
                match statement_list with
                | NULL => True
                | Node _ _ _ statements =>
                    keep_reachable cleaned (keep_reachable cleaned statements)
                    = keep_reachable cleaned statements
                    /\ only_last_diverts (keep_reachable cleaned statements) = true
                    /\ forallb no_dead_code (keep_reachable cleaned statements) = true
                    /\ (forallb statement_shape statements = true ->
                        forallb statement_shape (keep_reachable cleaned statements) = true)
                end) children).
      { eapply Forall_impl; [exact IHs|].
        intros [|lt ld ls statements] Hx; [exact I|]. apply keep_reachable_facts. exact Hx. }
      split; [|split].
      * simpl. f_equal. rewrite map_last_child_twice. apply map_last_child_ext.
        eapply Forall_impl; [exact Hlists|].
        intros [|lt ld ls statements] Hx; [reflexivity|]. simpl. f_equal. tauto.
      * simpl. rewrite last_child_satisfies_map.
        erewrite last_child_satisfies_ext with (g := fun _ => false).
        -- rewrite last_child_satisfies_false. reflexivity.
        -- eapply Forall_impl; [exact Hlists|].
           intros [|lt ld ls statements] Hx; [reflexivity|].
           destruct Hx as (_ & H2 & H3 & _). rewrite H2, H3. reflexivity.
      * simpl. intros Hshape. rewrite last_child_satisfies_map.
        revert Hshape. apply last_child_satisfies_impl.
        eapply Forall_impl; [exact Hlists|].
        intros [|lt ld ls statements] Hx; [auto|]. tauto.
    + (* IF *)
      destruct children as [|c [|t [|e rest]]]; try (split; [reflexivity|split; [reflexivity|auto]]; fail).
      * inversion IH as [|? ? _ IH1]; subst. inversion IH1 as [|? ? (H1 & H2 & H3) _]; subst.
        repeat split; simpl; auto. rewrite H1. reflexivity.
      * inversion IH as [|? ? _ IH1]; subst. inversion IH1 as [|? ? (H1 & H2 & H3) IH2]; subst.
        inversion IH2 as [|? ? (H4 & H5 & H6) _]; subst.
        repeat split; simpl.
        -- rewrite H1, H4. reflexivity.
        -- rewrite H2, H5. reflexivity.
        -- intros H. apply andb_true_iff in H as [Ha Hb]. rewrite (H3 Ha), (H6 Hb). reflexivity.
    + (* WHILE *)
      destruct children as [|c [|b rest]]; try (split; [reflexivity|split; [reflexivity|auto]]; fail).
      inversion IH as [|? ? _ IH1]; subst. inversion IH1 as [|? ? (H1 & H2 & H3) _]; subst.
      repeat split; simpl; auto. rewrite H1. reflexivity.
Qed.

(** X6: after the pass no block is left with a statement behind a diverting
    one, in the function body and in every block, if branch and while body
    below it. *)
Theorem remove_unreachable_code_leaves_no_dead_code :
  forall node b node',
    statement_shape node = true ->
    remove_unreachable_code node = Some (b, node') ->
    no_dead_code node' = true.
Proof.
  intros node b node' Hshape H.
  rewrite (remove_unreachable_code_spec node Hshape) in H. injection H as _ <-.
  exact (proj1 (proj2 (cleaned_facts node))).
Qed.

Lemma remove_unreachable_code_leaves_no_dead_code_witness :
  no_dead_code return_then_print = false
  /\ no_dead_code (node_create BLOCK [node_create LIST [node_create RETURN_STATEMENT [lit 1]]])
     = true.
Proof.
  split; [reflexivity|].
  exact (remove_unreachable_code_leaves_no_dead_code return_then_print true _
           eq_refl eq_refl).
Defined.

(** X7: the pass is idempotent: run on its own result it gives the same answer
    and changes nothing. *)
Theorem remove_unreachable_code_idempotent :
  forall node b node',
    statement_shape node = true ->
    remove_unreachable_code node = Some (b, node') ->
    remove_unreachable_code node' = Some (b, node').
Proof.
  intros node b node' Hshape H.
  rewrite (remove_unreachable_code_spec node Hshape) in H. injection H as <- <-.
  destruct (cleaned_facts node) as (H1 & _ & H3).
  destruct (cleaning_preserves node) as [Hd _].
  rewrite (remove_unreachable_code_spec _ (H3 Hshape)), H1, Hd. reflexivity.
Qed.

Lemma remove_unreachable_code_idempotent_witness :
  remove_unreachable_code
    (node_create BLOCK [node_create LIST [node_create RETURN_STATEMENT [lit 1]]])
  = Some (true, node_create BLOCK [node_create LIST [node_create RETURN_STATEMENT [lit 1]]]).
Proof.
  exact (remove_unreachable_code_idempotent return_then_print true _ eq_refl eq_refl).
Defined.


Lemma remove_unreachable_code_function_stable child :
  function_shape child = true ->
  exists child',
    remove_unreachable_code_function child = Some child'
    /\ function_shape child' = true
    /\ function_returns child' = true
    /\ remove_unreachable_code_function child' = Some child'.
Proof.
  intros Hshape. destruct child as [|type data symbol children]; [discriminate|].
  destruct (node_type_eqb type FUNCTION) eqn:Et.
  - destruct type; try discriminate. simpl in Hshape.
    destruct children as [|name [|parameters [|body rest]]]; try discriminate.
    unfold remove_unreachable_code_function. simpl negb. cbv iota.
    rewrite (remove_unreachable_code_spec _ Hshape).
    destruct (cleaned_facts body) as (H1 & _ & H3).
    destruct (cleaning_preserves body) as [Hd _].
    eexists. split; [reflexivity|].
    destruct (diverts body) eqn:E.
    + simpl. rewrite (H3 Hshape), Hd.
      rewrite (remove_unreachable_code_spec _ (H3 Hshape)), H1, Hd. auto.
    + assert (Hw : statement_shape (wrap_function_body (cleaned body)) = true)
        by (simpl; rewrite (H3 Hshape); reflexivity).
      assert (Hc : cleaned (wrap_function_body (cleaned body))
                   = wrap_function_body (cleaned body))
        by (simpl; rewrite Hd, H1; reflexivity).
      assert (Hdw : diverts (wrap_function_body (cleaned body)) = true)
        by (simpl; rewrite Hd; reflexivity).
      split; [exact Hw|]. split; [exact Hdw|].
      unfold remove_unreachable_code_function. simpl negb. cbv iota.
      rewrite (remove_unreachable_code_spec _ Hw), Hc, Hdw. reflexivity.
  - exists (Node type data symbol children).
    unfold remove_unreachable_code_function. rewrite Et. simpl.
    destruct type; try discriminate; auto.
Qed.

(** X8: after the pass over the whole tree every function body diverts, so
    none is wrapped twice: a second pass changes nothing. *)
Theorem remove_unreachable_code_syntax_tree_stable :
  forall type data symbol children,
    forallb function_shape children = true ->
    exists children',
      remove_unreachable_code_syntax_tree (Node type data symbol children)
      = Some (Node type data symbol children')
      /\ length children' = length children
      /\ forallb function_returns children' = true
      /\ remove_unreachable_code_syntax_tree (Node type data symbol children')
         = Some (Node type data symbol children').
Proof.
  intros type data symbol children Hshape.
  assert (H : exists children',
             for_each_child remove_unreachable_code_function children = Some children'
             /\ length children' = length children
             /\ forallb function_returns children' = true
             /\ for_each_child remove_unreachable_code_function children' = Some children').
  { induction children as [|c r IH]; simpl in *.
    - exists []. auto.
    - apply andb_true_iff in Hshape as [Hc Hr].
      destruct (remove_unreachable_code_function_stable c Hc) as (c' & H1 & H2 & H3 & H4).
      destruct (IH Hr) as (r' & H5 & H6 & H7 & H8).
      exists (c' :: r'). rewrite H1, H5. simpl. rewrite H3, H4, H7, H8, H6. auto. }
  destruct H as (children' & H1 & H2 & H3 & H4).
  exists children'. simpl. rewrite H1, H4. auto.
Qed.

Lemma remove_unreachable_code_syntax_tree_stable_witness :
  exists children',
    remove_unreachable_code_syntax_tree
      (node_create LIST
         [node_create GLOBAL_DECLARATION [];
          node_create FUNCTION
            [Node IDENTIFIER (identifier "f") None []; node_create LIST []; print_body]])
    = Some (node_create LIST children')
    /\ forallb function_returns children' = true.
Proof.
  destruct (remove_unreachable_code_syntax_tree_stable LIST no_data None
              [node_create GLOBAL_DECLARATION [];
               node_create FUNCTION
                 [Node IDENTIFIER (identifier "f") None []; node_create LIST []; print_body]]
              eq_refl) as (children' & H1 & _ & H3 & _).
  exists children'. split; [exact H1 | exact H3].
Defined.

End ReachFacts.

(** ** Further properties of the binder *)

Module BindFacts.
Import Symbols SymbolsSpec SymbolsFacts BindSpec.

Ltac bind_case H f :=
  match type of H with
  | context [f ?a ?b ?c] =>
      let E := fresh "E" in
      destruct (f a b c) as [?|?] eqn:E; [|discriminate]
  | context [f ?a ?b] =>
      let E := fresh "E" in
      destruct (f a b) as [?|?] eqn:E; [|discriminate]
  end.

(** *** Scopes are balanced *)

Lemma bind_children_balanced children :
  Forall balanced children ->
  forall st st' children',
    bind_children bind_names st children = Ok (st', children') ->
    hashmap (local_symbols st') = hashmap (local_symbols st).
Proof.
  induction 1 as [|c r Hc _ IH]; intros st st' children' H; simpl in H.
  - injection H as <- <-. reflexivity.
  - destruct (bind_names st c) as [[st1 c']|] eqn:E1; [|discriminate]. simpl in H.
    destruct (bind_children bind_names st1 r) as [[st2 r']|] eqn:E2; [|discriminate].
    simpl in H. injection H as <- <-.
    rewrite (IH _ _ _ E2). exact (Hc _ _ _ E1).
Qed.

Lemma bind_names_Node st type data symbol children :
  bind_names st (Node type data symbol children)
  = let node := Node type data symbol children in
    let scope_hashmap := hashmap (local_symbols st) in
    match type with
    | BLOCK =>
        let st0 := set_hashmap st (Hashmap ∅ (Some scope_hashmap)) in
        '(st', children') ←
          (match children with
           | [first_child; second_child] =>
               match first_child with
               | NULL => Fatal CRASH
               | Node _ _ _ identifier_lists =>
                   table' ← declare_lists node (local_symbols st0) identifier_lists;
                   '(st2, rest') ←
                     bind_children bind_names (mk_state table' (string_list st0))
                                   [second_child];
                   Ok (st2, first_child :: rest')
               end
           | _ => bind_children bind_names st0 children
           end);
        Ok (set_hashmap st' scope_hashmap, Node type data symbol children')
    | IDENTIFIER =>
        name ← identifier_of node;
        match symbol_hashmap_lookup scope_hashmap name with
        | None => Fatal UNRESOLVED
        | Some lookup_symbol => Ok (st, Node type data (Some lookup_symbol) children)
        end
    | STRING_LITERAL =>
        match data with
        | string_literal string =>
            let (index, strings') := add_string (string_list st) string in
            Ok (mk_state (local_symbols st) strings',
                Node STRING_LIST_REFERENCE (string_list_index index) symbol children)
        | _ => Fatal CRASH
        end
    | _ =>
        '(st', children') ← bind_children bind_names st children;
        Ok (st', Node type data symbol children')
    end.
Proof. destruct type; reflexivity. Qed.

Lemma bind_names_balanced node : balanced node.
Proof.
  induction node as [|type data symbol children IH] using node_t_ind'; intros st st' node' H.
  - injection H as <- <-. reflexivity.
  - rewrite bind_names_Node in H. cbv zeta in H.
    destruct type;
      try (destruct (bind_children bind_names st children) as [[st1 c1]|] eqn:E;
           [|discriminate]; simpl in H; injection H as <- <-;
           exact (bind_children_balanced _ IH _ _ _ E)).
    + (* BLOCK *)
      match type of H with (?m ≫= _) = _ => destruct m as [[st1 c1]|] end; [|discriminate].
      simpl in H. injection H as <- <-. reflexivity.
    + (* IDENTIFIER *)
      destruct (identifier_of (Node IDENTIFIER data symbol children)); [|discriminate].
      simpl in H.
      destruct (symbol_hashmap_lookup (hashmap (local_symbols st)) a); [|discriminate].
      injection H as <- <-. reflexivity.
    + (* STRING_LITERAL *)
      destruct data; try discriminate. simpl in H. injection H as <- <-. reflexivity.
Qed.

(** X9: whatever is bound, the scope map in force afterwards is the one in
    force before: every scope a block opens is closed again when the block
    is left, so the names a block declares are not visible behind it. *)
Theorem bind_names_restores_scope :
  forall st node st' node',
    bind_names st node = Ok (st', node') ->
    hashmap (local_symbols st') = hashmap (local_symbols st)
    /\ forall name,
         symbol_hashmap_lookup (hashmap (local_symbols st')) name
         = symbol_hashmap_lookup (hashmap (local_symbols st)) name.
Proof.
  intros st node st' node' H.
  pose proof (bind_names_balanced node _ _ _ H) as Hb.
  split; [exact Hb|]. intros name. rewrite Hb. reflexivity.
Qed.

Lemma bind_names_restores_scope_witness :
  match bind_names (mk_state symbol_table_init [])
          (block_declaring ["x"] (node_create RETURN_STATEMENT [identifier_use "x" None])) with
  | Ok (st', _) => symbol_hashmap_lookup (hashmap (local_symbols st')) "x" = None
  | Fatal _ => False
  end.
Proof.
  destruct (bind_names (mk_state symbol_table_init [])
              (block_declaring ["x"] (node_create RETURN_STATEMENT [identifier_use "x" None])))
    as [[st' node']|e] eqn:E.
  - rewrite (proj2 (bind_names_restores_scope _ _ _ _ E)). reflexivity.
  - vm_compute in E. discriminate.
Defined.

(** *** The string list *)

Lemma bind_children_pools children :
  Forall pools_in_order children ->
  forall st st' children',
    bind_children bind_names st children = Ok (st', children') ->
    string_list st' = string_list st ++ flat_map string_literals children.
Proof.
  induction 1 as [|c r Hc _ IH]; intros st st' children' H; simpl in H.
  - injection H as <- <-. rewrite app_nil_r. reflexivity.
  - destruct (bind_names st c) as [[st1 c']|] eqn:E1; [|discriminate]. simpl in H.
    destruct (bind_children bind_names st1 r) as [[st2 r']|] eqn:E2; [|discriminate].
    simpl in H. injection H as <- <-.
    rewrite (IH _ _ _ E2), (Hc _ _ _ E1). simpl. rewrite app_assoc. reflexivity.
Qed.

Lemma bind_names_pools node : pools_in_order node.
Proof.
  induction node as [|type data symbol children IH] using node_t_ind'; intros st st' node' H.
  - injection H as <- <-. simpl. rewrite app_nil_r. reflexivity.
  - rewrite bind_names_Node in H. cbv zeta in H.
    destruct type;
      try (destruct (bind_children bind_names st children) as [[st1 c1]|] eqn:E;
           [|discriminate]; simpl in H; injection H as <- <-;
           exact (bind_children_pools _ IH _ _ _ E)).
    + (* BLOCK *)
      destruct children as [|a [|b [|c r]]].
      * simpl in H. injection H as <- <-. simpl. rewrite app_nil_r. reflexivity.
      * destruct (bind_children bind_names
                    (set_hashmap st (Hashmap ∅ (Some (hashmap (local_symbols st))))) [a])
          as [[st1 c1]|] eqn:E; [|discriminate].
        simpl in H. injection H as <- <-.
        exact (bind_children_pools _ IH _ _ _ E).
      * destruct a as [|ft fd fs identifier_lists]; [discriminate|].
        match type of H with context [declare_lists ?x ?t ?l] =>
          destruct (declare_lists x t l) as [table1|] eqn:E1; [|discriminate] end.
        simpl in H.
        match type of H with context [bind_names ?s b] =>
          destruct (bind_names s b) as [[st2 b']|] eqn:E2; [|discriminate] end.
        simpl in H. injection H as <- <-.
        inversion IH as [|? ? _ IH1]; subst. inversion IH1 as [|? ? Hb _]; subst.
        apply Hb in E2. simpl in *. exact E2.
      * destruct (bind_children bind_names
                    (set_hashmap st (Hashmap ∅ (Some (hashmap (local_symbols st)))))
                    (a :: b :: c :: r))
          as [[st1 c1]|] eqn:E; [|discriminate].
        simpl in H. injection H as <- <-.
        exact (bind_children_pools _ IH _ _ _ E).
    + (* IDENTIFIER *)
      destruct (identifier_of (Node IDENTIFIER data symbol children)); [|discriminate].
      simpl in H.
      destruct (symbol_hashmap_lookup (hashmap (local_symbols st)) a); [|discriminate].
      injection H as <- <-. simpl. rewrite app_nil_r. reflexivity.
    + (* STRING_LITERAL *)
      destruct data; try discriminate. simpl in H. injection H as <- <-. reflexivity.
Qed.

(** X10: binding only ever appends to the string list: afterwards it is the
    list from before followed by the string literals of the tree in the
    order binding meets them, a literal that occurs twice being entered
    twice. *)
Theorem bind_names_appends_strings :
  forall st node st' node',
    bind_names st node = Ok (st', node') ->
    string_list st' = string_list st ++ string_literals node.
Proof. intros st node st' node' H. exact (bind_names_pools node _ _ _ H). Qed.

Lemma bind_names_appends_strings_witness :
  match bind_names (mk_state symbol_table_init []) print_hi_bye_hi with
  | Ok (st', _) => string_list st' = ["hi"; "bye"; "hi"]
  | Fatal _ => False
  end.
Proof.
  destruct (bind_names (mk_state symbol_table_init []) print_hi_bye_hi)
    as [[st' node']|e] eqn:E.
  - exact (bind_names_appends_strings _ _ _ _ E).
  - vm_compute in E. discriminate.
Defined.

(** *** Reading the string list back *)

Lemma unbind_unbound strings node : unbound node = true -> unbind strings node = node.
Proof.
  induction node as [|type data symbol children IH] using node_t_ind'; intros H.
  - reflexivity.
  - simpl in H. apply andb_true_iff in H as [Ht Hc].
    assert (Hmap : map (unbind strings) children = children).
    { clear Ht. induction IH as [|c r Hcr _ IHr]; [reflexivity|].
      simpl in Hc. apply andb_true_iff in Hc as [H1 H2].
      simpl. rewrite (Hcr H1), (IHr H2). reflexivity. }
    simpl. rewrite Hmap.
    destruct type; try reflexivity; try discriminate.
    destruct symbol; [discriminate | reflexivity].
Qed.

Lemma bind_children_reads_back children :
  Forall reads_back children ->
  forall st st' children' extra,
    forallb unbound children = true ->
    bind_children bind_names st children = Ok (st', children') ->
    map (unbind (string_list st' ++ extra)) children' = children.
Proof.
  induction 1 as [|c r Hc _ IH]; intros st st' children' extra Hu H; simpl in H.
  - injection H as <- <-. reflexivity.
  - simpl in Hu. apply andb_true_iff in Hu as [Hu1 Hu2].
    destruct (bind_names st c) as [[st1 c']|] eqn:E1; [|discriminate]. simpl in H.
    destruct (bind_children bind_names st1 r) as [[st2 r']|] eqn:E2; [|discriminate].
    simpl in H. injection H as <- <-.
    simpl. rewrite (IH _ _ _ _ Hu2 E2).
    f_equal.
    assert (Hs : string_list st2 = string_list st1 ++ flat_map string_literals r).
    { eapply bind_children_pools; [|exact E2].
      apply List.Forall_forall. intros x _. apply bind_names_pools. }
    rewrite Hs, <- app_assoc. exact (Hc _ _ _ _ Hu1 E1).
Qed.

Lemma map_unbind_unbound strings children :
  forallb unbound children = true -> map (unbind strings) children = children.
Proof.
  induction children as [|c r IH]; intros H; [reflexivity|].
  simpl in H. apply andb_true_iff in H as [H1 H2].
  simpl. rewrite (unbind_unbound _ _ H1), (IH H2). reflexivity.
Qed.

Lemma bind_names_reads_back node : reads_back node.
Proof.
  induction node as [|type data symbol children IH] using node_t_ind';
    intros st st' node' extra Hu H.
  - injection H as <- <-. reflexivity.
  - rewrite bind_names_Node in H. cbv zeta in H.
    simpl in Hu. apply andb_true_iff in Hu as [Ht Hc].
    destruct type; try discriminate;
      try (destruct (bind_children bind_names st children) as [[st1 c1]|] eqn:E;
           [|discriminate]; simpl in H; injection H as <- <-;
           simpl; rewrite (bind_children_reads_back _ IH _ _ _ _ Hc E); reflexivity).
    + (* BLOCK *)
      destruct children as [|a [|b [|c r]]].
      * simpl in H. injection H as <- <-. reflexivity.
      * destruct (bind_children bind_names
                    (set_hashmap st (Hashmap ∅ (Some (hashmap (local_symbols st))))) [a])
          as [[st1 c1]|] eqn:E; [|discriminate].
        simpl in H. injection H as <- <-.
        simpl unbind. rewrite <- (bind_children_reads_back _ IH _ _ _ extra Hc E). reflexivity.
      * destruct a as [|ft fd fs identifier_lists]; [discriminate|].
        match type of H with context [declare_lists ?x ?t ?l] =>
          destruct (declare_lists x t l) as [table1|] eqn:E1; [|discriminate] end.
        simpl in H.
        match type of H with context [bind_names ?s b] =>
          destruct (bind_names s b) as [[st2 b']|] eqn:E2; [|discriminate] end.
        simpl in H. injection H as <- <-.
        inversion IH as [|? ? _ IH1]; subst. inversion IH1 as [|? ? Hb _]; subst.
        change (unbound (Node ft fd fs identifier_lists) && (unbound b && true) = true) in Hc.
        apply andb_true_iff in Hc as [Ha Hc].
        apply andb_true_iff in Hc as [Hbu _].
        pose proof (unbind_unbound (string_list st2 ++ extra) _ Ha) as Hfirst.
        pose proof (Hb _ _ _ extra Hbu E2) as Hsecond.
        change (Node BLOCK data symbol
                  [unbind (string_list st2 ++ extra) (Node ft fd fs identifier_lists);
                   unbind (string_list st2 ++ extra) b']
                = Node BLOCK data symbol [Node ft fd fs identifier_lists; b]).
        rewrite Hfirst, Hsecond. reflexivity.
      * destruct (bind_children bind_names
                    (set_hashmap st (Hashmap ∅ (Some (hashmap (local_symbols st)))))
                    (a :: b :: c :: r))
          as [[st1 c1]|] eqn:E; [|discriminate].
        simpl in H. injection H as <- <-.
        simpl unbind. rewrite <- (bind_children_reads_back _ IH _ _ _ extra Hc E). reflexivity.
    + (* IDENTIFIER *)
      destruct (identifier_of (Node IDENTIFIER data symbol children)); [|discriminate].
      simpl in H.
      destruct (symbol_hashmap_lookup (hashmap (local_symbols st)) a); [|discriminate].
      injection H as <- <-. simpl. rewrite (map_unbind_unbound _ _ Hc).
      destruct symbol; [discriminate | reflexivity].
    + (* STRING_LITERAL *)
      destruct data; try discriminate. simpl in H. injection H as <- <-.
      simpl. rewrite <- app_assoc.
      rewrite (lookup_app_r (string_list st) _ (length (string_list st))) by lia.
      rewrite Nat.sub_diag. simpl. rewrite (map_unbind_unbound _ _ Hc). reflexivity.
Qed.

(** X11: binding loses no string: in a tree fresh from the parser, taking the
    symbols off the identifiers again and reading every string reference
    back from the string list gives the tree from before binding. *)
Theorem bind_names_strings_read_back :
  forall st node st' node',
    unbound node = true ->
    bind_names st node = Ok (st', node') ->
    unbind (string_list st') node' = node.
Proof.
  intros st node st' node' Hu H.
  pose proof (bind_names_reads_back node st st' node' [] Hu H) as Hr.
  rewrite app_nil_r in Hr. exact Hr.
Qed.

Lemma bind_names_strings_read_back_witness :
  unbound print_hi_bye_hi = true
  /\ match bind_names (mk_state symbol_table_init ["old"]) print_hi_bye_hi with
     | Ok (st', node') =>
         node' = node_create PRINT_STATEMENT
                   [node_create LIST
                      [Node STRING_LIST_REFERENCE (string_list_index 1) None [];
                       Node STRING_LIST_REFERENCE (string_list_index 2) None [];
                       Node STRING_LIST_REFERENCE (string_list_index 3) None []]]
         /\ unbind (string_list st') node' = print_hi_bye_hi
     | Fatal _ => False
     end.
Proof.
  split; [reflexivity|].
  destruct (bind_names (mk_state symbol_table_init ["old"]) print_hi_bye_hi)
    as [[st' node']|e] eqn:E.
  - split.
    + vm_compute in E. injection E as _ <-. reflexivity.
    + exact (bind_names_strings_read_back _ print_hi_bye_hi _ _ eq_refl E).
  - vm_compute in E. discriminate.
Defined.

(** *** Every use is bound *)

Lemma consistent_new_scope h : consistent h -> consistent (Hashmap ∅ (Some h)).
Proof. intros H name symbol. simpl. rewrite lookup_empty. apply H. Qed.

Lemma consistent_insert e b name symbol :
  sym_name symbol = name ->
  consistent (Hashmap e b) -> consistent (Hashmap (<[name := symbol]> e) b).
Proof.
  intros Hname H n s. simpl.
  destruct (decide (name = n)) as [->|Hne].
  - rewrite lookup_insert_eq. intros [= <-]. exact Hname.
  - rewrite lookup_insert_ne by exact Hne. apply (H n s).
Qed.

Lemma create_symbol_consistent node name type table symbol table' :
  consistent (hashmap table) ->
  create_symbol node name type table = (Some symbol, table') ->
  consistent (hashmap table').
Proof.
  intros Hc H. unfold create_symbol, symbol_table_insert in H. simpl in H.
  destruct (entries (hashmap table) !! name) eqn:E; [discriminate|].
  injection H as _ <-. simpl.
  apply consistent_insert; [reflexivity|]. destruct (hashmap table). exact Hc.
Qed.

Lemma declare_identifiers_consistent block identifiers : forall table table',
  consistent (hashmap table) ->
  declare_identifiers block table identifiers = Ok table' ->
  consistent (hashmap table').
Proof.
  induction identifiers as [|i r IH]; intros table table' Hc H; simpl in H.
  - injection H as <-. exact Hc.
  - destruct (identifier_of i) as [name|]; [|discriminate]. simpl in H.
    destruct (create_symbol block name SYMBOL_LOCAL_VAR table) as [[s|] table1] eqn:E;
      [|discriminate].
    eapply IH; [|exact H]. eapply create_symbol_consistent; eauto.
Qed.

Lemma declare_lists_consistent block lists : forall table table',
  consistent (hashmap table) ->
  declare_lists block table lists = Ok table' ->
  consistent (hashmap table').
Proof.
  induction lists as [|l r IH]; intros table table' Hc H; simpl in H.
  - injection H as <-. exact Hc.
  - destruct l as [|t d s identifiers]; [discriminate|].
    destruct (declare_identifiers block table identifiers) as [table1|] eqn:E; [|discriminate].
    simpl in H. eapply IH; [|exact H]. eapply declare_identifiers_consistent; eauto.
Qed.

Lemma bind_children_binds_uses children :
  Forall binds_uses children ->
  forall st st' children',
    consistent (hashmap (local_symbols st)) ->
    bind_children bind_names st children = Ok (st', children') ->
    forallb uses_bound children' = true.
Proof.
  induction 1 as [|c r Hc _ IH]; intros st st' children' Hcons H; simpl in H.
  - injection H as <- <-. reflexivity.
  - destruct (bind_names st c) as [[st1 c']|] eqn:E1; [|discriminate]. simpl in H.
    destruct (bind_children bind_names st1 r) as [[st2 r']|] eqn:E2; [|discriminate].
    simpl in H. injection H as <- <-.
    simpl. rewrite (Hc _ _ _ Hcons E1). simpl.
    eapply IH; [|exact E2]. rewrite (bind_names_balanced c _ _ _ E1). exact Hcons.
Qed.

Lemma bind_names_binds_uses node : binds_uses node.
Proof.
  induction node as [|type data symbol children IH] using node_t_ind';
    intros st st' node' Hcons H.
  - injection H as <- <-. reflexivity.
  - rewrite bind_names_Node in H. cbv zeta in H.
    destruct type;
      try (destruct (bind_children bind_names st children) as [[st1 c1]|] eqn:E;
           [|discriminate]; simpl in H; injection H as <- <-;
           first [reflexivity
                 | exact (bind_children_binds_uses _ IH _ _ _ Hcons E)]).
    + (* BLOCK *)
      pose proof (consistent_new_scope _ Hcons) as Hnew.
      destruct children as [|a [|b [|c r]]].
      * simpl in H. injection H as <- <-. reflexivity.
      * destruct (bind_children bind_names
                    (set_hashmap st (Hashmap ∅ (Some (hashmap (local_symbols st))))) [a])
          as [[st1 c1]|] eqn:E; [|discriminate].
        simpl in H. injection H as <- <-.
        pose proof (bind_children_binds_uses _ IH (set_hashmap st (Hashmap ∅ (Some (hashmap (local_symbols st))))) _ _ Hnew E) as Hu.
        pose proof E as E'. simpl in E'.
        destruct (bind_names _ a) as [[? ?]|]; [|discriminate]. simpl in E'.
        injection E' as <- <-. exact Hu.
      * destruct a as [|ft fd fs identifier_lists]; [discriminate|].
        match type of H with context [declare_lists ?x ?t ?l] =>
          destruct (declare_lists x t l) as [table1|] eqn:E1; [|discriminate] end.
        simpl in H.
        match type of H with context [bind_names ?s b] =>
          destruct (bind_names s b) as [[st2 b']|] eqn:E2; [|discriminate] end.
        simpl in H. injection H as <- <-.
        inversion IH as [|? ? _ IH1]; subst. inversion IH1 as [|? ? Hb _]; subst.
        simpl. eapply Hb; [|exact E2]. simpl.
        eapply declare_lists_consistent; [|exact E1]. exact Hnew.
      * destruct (bind_children bind_names
                    (set_hashmap st (Hashmap ∅ (Some (hashmap (local_symbols st)))))
                    (a :: b :: c :: r))
          as [[st1 c1]|] eqn:E; [|discriminate].
        simpl in H. injection H as <- <-.
        pose proof (bind_children_binds_uses _ IH (set_hashmap st (Hashmap ∅ (Some (hashmap (local_symbols st))))) _ _ Hnew E) as Hu.
        pose proof E as E'. simpl in E'.
        destruct (bind_names _ a) as [[? ?]|]; [|discriminate]. simpl in E'.
        destruct (bind_names _ b) as [[? ?]|]; [|discriminate]. simpl in E'.
        destruct (bind_names _ c) as [[? ?]|]; [|discriminate]. simpl in E'.
        destruct (bind_children bind_names _ r) as [[? ?]|]; [|discriminate]. simpl in E'.
        injection E' as <- <-. exact Hu.
    + (* IDENTIFIER *)
      destruct data; try discriminate. simpl in H.
      destruct (symbol_hashmap_lookup (hashmap (local_symbols st)) id) eqn:E; [|discriminate].
      injection H as <- <-. simpl. apply String.eqb_eq. exact (Hcons _ _ E).
    + (* STRING_LITERAL *)
      destruct data; try discriminate. simpl in H. injection H as <- <-. reflexivity.
Qed.
End BindFacts.

Module UseFacts.
Import Symbols SymbolsSpec SymbolsFacts BindSpec BindFacts UseSpec.

Lemma bind_children_resolves children :
  Forall resolves children ->
  forall st,
    forallb plain children = true ->
    if forallb (visible (hashmap (local_symbols st))) (flat_map used_names children)
    then exists children',
           bind_children bind_names st children
           = Ok (mk_state (local_symbols st)
                          (string_list st ++ flat_map string_literals children), children')
    else bind_children bind_names st children = Fatal UNRESOLVED.
Proof.
  induction 1 as [|c r Hc _ IH]; intros st Hp; simpl in *.
  - rewrite app_nil_r. destruct st. eexists. reflexivity.
  - apply andb_true_iff in Hp as [Hp1 Hp2].
    rewrite forallb_app.
    specialize (Hc st Hp1).
    destruct (forallb (visible (hashmap (local_symbols st))) (used_names c)).
    + destruct Hc as [c' Hc]. rewrite Hc. simpl.
      specialize (IH (mk_state (local_symbols st) (string_list st ++ string_literals c)) Hp2).
      simpl in IH.
      destruct (forallb (visible (hashmap (local_symbols st))) (flat_map used_names r)).
      * destruct IH as [r' IH]. rewrite IH. simpl. rewrite app_assoc. eexists. reflexivity.
      * rewrite IH. reflexivity.
    + rewrite Hc. reflexivity.
Qed.

Lemma bind_names_resolves node : resolves node.
Proof.
  induction node as [|type data symbol children IH] using node_t_ind'; intros st Hp.
  - simpl. rewrite app_nil_r. destruct st. eexists. reflexivity.
  - rewrite bind_names_Node. cbv zeta.
    destruct type; try discriminate;
      try (pose proof (bind_children_resolves _ IH st Hp) as Hr;
           change (used_names (Node ?t data symbol children))
             with (flat_map used_names children);
           simpl used_names; simpl string_literals;
           destruct (forallb (visible (hashmap (local_symbols st)))
                             (flat_map used_names children));
           [destruct Hr as [children' Hr]; rewrite Hr; simpl; eexists; reflexivity
           |rewrite Hr; reflexivity]).
    + (* IDENTIFIER *)
      simpl in Hp. destruct data; try discriminate. simpl.
      unfold visible.
      destruct (symbol_hashmap_lookup (hashmap (local_symbols st)) id); simpl.
      * rewrite app_nil_r. destruct st. eexists. reflexivity.
      * reflexivity.
    + (* STRING_LITERAL *)
      simpl in Hp. destruct data; try discriminate. simpl. eexists. reflexivity.
Qed.

(** X12: binding a tree without blocks succeeds exactly when every name it uses
    is visible through the scope chain: then the table is left as it was
    and only the string list grows; otherwise the compiler stops on the
    unresolved identifier. *)
Theorem bind_names_succeeds_iff_visible :
  forall st node,
    plain node = true ->
    (forallb (visible (hashmap (local_symbols st))) (used_names node) = true ->
     exists node',
       bind_names st node
       = Ok (mk_state (local_symbols st) (string_list st ++ string_literals node), node'))
    /\ (forallb (visible (hashmap (local_symbols st))) (used_names node) = false ->
        bind_names st node = Fatal UNRESOLVED).
Proof.
  intros st node Hp. pose proof (bind_names_resolves node st Hp) as H.
  destruct (forallb (visible (hashmap (local_symbols st))) (used_names node)).
  - split; [intros _; exact H | discriminate].
  - split; [discriminate | intros _; exact H].
Qed.

Lemma bind_names_succeeds_iff_visible_witness :
  plain assign_sum = true
  /\ forallb (visible (hashmap symbol_table_init)) (used_names assign_sum) = false
  /\ bind_names (mk_state symbol_table_init []) assign_sum = Fatal UNRESOLVED.
Proof.
  split; [reflexivity|]. split; [reflexivity|].
  exact (proj2 (bind_names_succeeds_iff_visible (mk_state symbol_table_init []) assign_sum
                  eq_refl) eq_refl).
Defined.

End UseFacts.

Module GlobalsFacts.
Import Symbols SymbolsSpec SymbolsFacts Globals GlobalsSpec BindSpec BindFacts.

Lemma combine_snoc {A B} (l1 : list A) (l2 : list B) a b :
  length l2 = length l1 -> combine (l1 ++ [a]) (l2 ++ [b]) = combine l1 l2 ++ [(a, b)].
Proof.
  revert l2. induction l1 as [|x l1 IH]; intros [|y l2] H; simpl in *; try discriminate.
  - reflexivity.
  - rewrite IH by lia. reflexivity.
Qed.

Lemma create_symbol_globals_ok node name type globals symbol table' index :
  globals_ok globals ->
  create_symbol node name type (global_symbols globals) = (Some symbol, table') ->
  let globals' := mk_globals table' (symbol_nodes globals ++ [index]) in
  globals_ok globals'
  /\ map sym_name (symbols table') = map sym_name (symbols (global_symbols globals)) ++ [name]
  /\ function_indices (entries_of globals')
     = function_indices (entries_of globals)
       ++ (if symtype_eqb type SYMBOL_FUNCTION then [index] else []).
Proof.
  intros (Hlen & Hseq & Hnd & Hdom & Hcons) H.
  pose proof (create_symbol_consistent _ _ _ _ _ _ Hcons H) as Hcons'.
  unfold create_symbol, symbol_table_insert in H. simpl in H.
  destruct (entries (hashmap (global_symbols globals)) !! name) eqn:E; [discriminate|].
  injection H as _ <-. simpl.
  split; [|split].
  - unfold globals_ok. simpl. rewrite !length_app, !map_app. simpl.
    split; [lia|]. split; [|split; [|split]].
    + rewrite Hseq. unfold n_symbols.
      replace (length (symbols (global_symbols globals)) + 1)%nat
        with (S (length (symbols (global_symbols globals)))) by lia.
      rewrite seq_S. reflexivity.
    + apply NoDup_app. split; [exact Hnd|]. split; [|apply NoDup_singleton].
      intros n Hn Hin. apply list_elem_of_singleton in Hin as ->.
      apply Hdom in Hn. rewrite E in Hn. destruct Hn; discriminate.
    + intros n Hn. apply elem_of_app in Hn as [Hn|Hn].
      * destruct (decide (name = n)) as [->|Hne].
        -- rewrite lookup_insert_eq. eauto.
        -- rewrite lookup_insert_ne by exact Hne. apply Hdom, Hn.
      * apply list_elem_of_singleton in Hn as ->. rewrite lookup_insert_eq. eauto.
    + exact Hcons'.
  - rewrite map_app. reflexivity.
  - unfold entries_of, function_indices. simpl.
    rewrite combine_snoc by exact Hlen.
    rewrite List.filter_app, map_app. simpl.
    destruct (symtype_eqb type SYMBOL_FUNCTION); reflexivity.
Qed.

Lemma declare_globals_spec index declarations : forall globals globals',
  globals_ok globals ->
  declare_globals index globals declarations = Ok globals' ->
  globals_ok globals'
  /\ map sym_name (symbols (global_symbols globals'))
     = map sym_name (symbols (global_symbols globals)) ++ global_declaration_names declarations
  /\ function_indices (entries_of globals') = function_indices (entries_of globals).
Proof.
  induction declarations as [|d r IH]; intros globals globals' Hok H; simpl in H.
  - injection H as <-. rewrite app_nil_r. auto.
  - destruct d as [|type data symbol children]; [discriminate|].
    destruct (node_type_eqb type IDENTIFIER) eqn:Ti.
    + destruct type; try discriminate.
      destruct data; try discriminate. simpl in H.
      destruct (create_symbol _ _ _ _) as [[s|] table'] eqn:E; [|discriminate].
      destruct (create_symbol_globals_ok _ _ _ _ _ _ index Hok E) as (Hok' & Hn & Hf).
      destruct (IH _ _ Hok' H) as (Hok2 & Hn2 & Hf2).
      split; [exact Hok2|]. split.
      * rewrite Hn2. simpl. rewrite Hn, <- app_assoc. reflexivity.
      * rewrite Hf2, Hf. simpl. apply app_nil_r.
    + destruct (node_type_eqb type ARRAY_INDEXING) eqn:Ta.
      * destruct type; try discriminate.
        destruct children as [|array_identifier_node rest]; [discriminate|].
        destruct array_identifier_node as [|t1 d1 s1 c1]; [discriminate|].
        destruct d1; try discriminate. simpl in H.
        destruct (create_symbol _ _ _ _) as [[s|] table'] eqn:E; [|discriminate].
        destruct (create_symbol_globals_ok _ _ _ _ _ _ index Hok E) as (Hok' & Hn & Hf).
        destruct (IH _ _ Hok' H) as (Hok2 & Hn2 & Hf2).
        split; [exact Hok2|]. split.
        -- rewrite Hn2. simpl. rewrite Hn, <- app_assoc. reflexivity.
        -- rewrite Hf2, Hf. simpl. apply app_nil_r.
      * destruct (IH _ _ Hok H) as (Hok2 & Hn2 & Hf2).
        split; [exact Hok2|]. split; [|exact Hf2].
        rewrite Hn2. destruct type; try discriminate; reflexivity.
Qed.

Lemma find_globals_loop_spec children : forall index globals globals',
  globals_ok globals ->
  find_globals_loop index globals children = Ok globals' ->
  globals_ok globals'
  /\ map sym_name (symbols (global_symbols globals'))
     = map sym_name (symbols (global_symbols globals)) ++ global_names children
  /\ function_indices (entries_of globals')
     = function_indices (entries_of globals) ++ function_positions index children.
Proof.
  induction children as [|c r IH]; intros index globals globals' Hok H; simpl in H.
  - injection H as <-. rewrite !app_nil_r. auto.
  - destruct c as [|type data symbol node_children]; [discriminate|].
    destruct type;
      try (destruct (IH _ _ _ Hok H) as (Hok2 & Hn2 & Hf2);
           split; [exact Hok2|]; split; [exact Hn2 | exact Hf2]).
    + (* GLOBAL_DECLARATION *)
      destruct node_children as [|declaration_list_node rest]; [discriminate|].
      destruct declaration_list_node as [|t1 d1 s1 declarations]; [discriminate|].
      destruct (declare_globals index globals declarations) as [globals1|] eqn:E;
        [|discriminate].
      simpl in H.
      destruct (declare_globals_spec _ _ _ _ Hok E) as (Hok1 & Hn1 & Hf1).
      destruct (IH _ _ _ Hok1 H) as (Hok2 & Hn2 & Hf2).
      split; [exact Hok2|]. split.
      * rewrite Hn2, Hn1. simpl. rewrite <- app_assoc. reflexivity.
      * rewrite Hf2, Hf1. reflexivity.
    + (* FUNCTION *)
      destruct node_children as [|function_identifier_node rest]; [discriminate|].
      destruct function_identifier_node as [|t1 d1 s1 c1]; [discriminate|].
      destruct d1; try discriminate. simpl in H.
      destruct (create_symbol _ _ _ _) as [[s|] table'] eqn:E; [|discriminate].
      destruct (create_symbol_globals_ok _ _ _ _ _ _ index Hok E) as (Hok' & Hn & Hf).
      destruct (IH _ _ _ Hok' H) as (Hok2 & Hn2 & Hf2).
      split; [exact Hok2|]. split.
      * rewrite Hn2. simpl. rewrite Hn, <- app_assoc. reflexivity.
      * rewrite Hf2, Hf. simpl. rewrite <- app_assoc. reflexivity.
Qed.

Lemma globals_ok_init : globals_ok (mk_globals symbol_table_init []).
Proof.
  unfold globals_ok. simpl. repeat split; try constructor.
  - intros name Hin. inversion Hin.
  - intros name symbol. simpl. rewrite lookup_empty. discriminate.
Qed.

Lemma find_globals_spec type data symbol children globals :
  find_globals (Node type data symbol children) = Ok globals ->
  globals_ok globals
  /\ map sym_name (symbols (global_symbols globals)) = global_names children
  /\ function_indices (entries_of globals) = function_positions 0 children.
Proof.
  unfold find_globals. destruct (negb (node_type_eqb type LIST)); [discriminate|].
  intros H. exact (find_globals_loop_spec _ _ _ _ globals_ok_init H).
Qed.

(** X13: the global table lists the globals of the program in program order,
    whatever their kind, numbered from 0; the table is built only if their
    names differ from one another. *)
Theorem find_globals_in_program_order :
  forall type data symbol children globals,
    find_globals (Node type data symbol children) = Ok globals ->
    let table := symbols (global_symbols globals) in
    map sym_name table = global_names children
    /\ map sequence_number table = seq 0 (length (global_names children))
    /\ NoDup (global_names children).
Proof.
  intros type data symbol children globals H.
  destruct (find_globals_spec _ _ _ _ _ H) as ((_ & Hseq & Hnd & _) & Hn & _).
  cbv zeta. rewrite <- Hn. rewrite length_map. auto.
Qed.

Lemma find_globals_in_program_order_witness :
  match find_globals two_function_program with
  | Ok globals =>
      map sym_name (symbols (global_symbols globals)) = ["x"; "a"; "main"; "f"]
      /\ map sequence_number (symbols (global_symbols globals)) = [0; 1; 2; 3]%nat
      /\ NoDup ["x"; "a"; "main"; "f"]
  | Fatal _ => False
  end.
Proof.
  destruct (find_globals two_function_program) as [globals|] eqn:E.
  - exact (find_globals_in_program_order _ _ _ _ _ E).
  - vm_compute in E. discriminate.
Defined.

Lemma create_parameters_consistent parameters : forall table table',
  consistent (hashmap table) ->
  create_parameters table parameters = Ok table' ->
  consistent (hashmap table').
Proof.
  induction parameters as [|p r IH]; intros table table' Hc H; simpl in H.
  - injection H as <-. exact Hc.
  - destruct p as [|t d s c]; [discriminate|].
    destruct (negb (node_type_eqb t IDENTIFIER)); [discriminate|].
    destruct (identifier_of (Node t d s c)) as [name|]; [|discriminate]. simpl in H.
    destruct (create_symbol (Node t d s c) name SYMBOL_PARAMETER table) as [[s1|] table1] eqn:E;
      [|discriminate].
    eapply IH; [|exact H]. eapply create_symbol_consistent; eauto.
Qed.

Lemma create_function_table_binds globals strings function_node st function_node' :
  consistent (hashmap globals) ->
  create_function_table (function_symtable_init globals) strings function_node
  = Ok (st, function_node') ->
  uses_bound (function_body function_node') = true
  /\ is_function function_node' = is_function function_node.
Proof.
  intros Hcons H. unfold create_function_table in H.
  destruct function_node as [|type data symbol children]; [discriminate|].
  destruct children as [|name [|parameter_list_node [|block_node rest]]]; try discriminate.
  destruct parameter_list_node as [|pt pd ps parameters]; [discriminate|].
  destruct (create_parameters _ parameters) as [table|] eqn:Ep; [|discriminate].
  simpl in H.
  destruct (bind_names (mk_state table strings) block_node) as [[st1 block']|] eqn:Eb;
    [|discriminate].
  simpl in H. injection H as <- <-. split; [|reflexivity].
  simpl. eapply (bind_names_binds_uses block_node (mk_state table strings)); [|exact Eb].
  simpl. eapply create_parameters_consistent; [|exact Ep].
  simpl. apply consistent_new_scope, Hcons.
Qed.

Lemma create_tables_loop_spec globals entries : forall strings children strings' children',
  consistent (hashmap globals) ->
  NoDup (function_indices entries) ->
  create_tables_loop globals entries strings children = Ok (strings', children') ->
  (forall j, j ∉ function_indices entries -> children' !! j = children !! j)
  /\ (forall j, j ∈ function_indices entries ->
        exists node', children' !! j = Some node'
                      /\ uses_bound (function_body node') = true)
  /\ (forall j node', children' !! j = Some node' ->
        exists node, children !! j = Some node /\ is_function node' = is_function node).
Proof.
  intros strings children strings' children' Hcons.
  revert strings children strings' children'.
  induction entries as [|[symbol index] rest IH];
    intros strings children strings' children' Hnd H; simpl in H.
  - injection H as <- <-. split; [auto|]. split.
    + intros j Hj. inversion Hj.
    + intros j node' Hj. eauto.
  - unfold function_indices in Hnd |- *. simpl in Hnd |- *.
    destruct (symtype_eqb (sym_type symbol) SYMBOL_FUNCTION); [|exact (IH _ _ _ _ Hnd H)].
    simpl in Hnd |- *. apply NoDup_cons in Hnd as [Hnotin Hnd].
    fold (function_indices rest) in Hnotin, Hnd |- *.
    destruct (children !! index) as [function_node|] eqn:Ei; [|discriminate].
    destruct (create_function_table _ strings function_node) as [[st function_node']|] eqn:Ef;
      [|discriminate].
    simpl in H.
    destruct (create_function_table_binds _ _ _ _ _ Hcons Ef) as [Hbound Htype].
    destruct (IH _ _ _ _ Hnd H) as (Hout & Hin & Hkeep).
    assert (Hlt : (index < length children)%nat) by (eapply lookup_lt_Some; exact Ei).
    split; [|split].
    + intros j Hj. rewrite not_elem_of_cons in Hj. destruct Hj as [Hne Hj].
      rewrite (Hout j Hj). apply list_lookup_insert_ne. congruence.
    + intros j Hj. apply elem_of_cons in Hj as [->|Hj]; [|exact (Hin j Hj)].
      exists function_node'. split; [|exact Hbound].
      rewrite (Hout index Hnotin). apply list_lookup_insert_eq. exact Hlt.
    + intros j node' Hj. destruct (Hkeep j node' Hj) as (node & Hnode & Hsame).
      destruct (decide (index = j)) as [<-|Hne].
      * rewrite list_lookup_insert_eq in Hnode by exact Hlt. injection Hnode as <-.
        exists function_node. split; [exact Ei|]. congruence.
      * rewrite list_lookup_insert_ne in Hnode by exact Hne. eauto.
Qed.

Lemma function_positions_bound children : forall index j,
  j ∈ function_positions index children -> (index <= j)%nat.
Proof.
  induction children as [|c r IH]; intros index j Hj; simpl in Hj.
  - inversion Hj.
  - apply elem_of_app in Hj as [Hj|Hj].
    + destruct (is_function c); [|inversion Hj].
      apply list_elem_of_singleton in Hj as ->. lia.
    + apply IH in Hj. lia.
Qed.

Lemma function_positions_NoDup children : forall index,
  NoDup (function_positions index children).
Proof.
  induction children as [|c r IH]; intros index; simpl.
  - constructor.
  - destruct (is_function c); simpl; [|apply IH].
    apply NoDup_cons. split; [|apply IH].
    intros Hin. apply function_positions_bound in Hin. lia.
Qed.

Lemma function_positions_complete children : forall index j node,
  children !! j = Some node -> is_function node = true ->
  (index + j)%nat ∈ function_positions index children.
Proof.
  induction children as [|c r IH]; intros index j node Hj Hf; [discriminate|].
  simpl. destruct j as [|j]; simpl in Hj.
  - injection Hj as ->. rewrite Hf. rewrite Nat.add_0_r. apply elem_of_app. left.
    apply list_elem_of_singleton. reflexivity.
  - apply elem_of_app. right.
    replace (index + S j)%nat with (S index + j)%nat by lia. eapply IH; eauto.
Qed.

(** X14: when [create_tables] succeeds, every identifier used in the body of
    every function of the program is bound to a symbol, and the symbol
    bears the identifier's name. *)
Theorem create_tables_binds_every_use :
  forall root globals strings root',
    create_tables root = Ok (globals, strings, root') ->
    forall function_node,
      function_node ∈ children_of root' ->
      is_function function_node = true ->
      uses_bound (function_body function_node) = true.
Proof.
  intros root globals strings root' H function_node Hin Hf.
  unfold create_tables in H.
  destruct (find_globals root) as [g|] eqn:Eg; [|discriminate]. simpl in H.
  destruct root as [|type data symbol children]; [discriminate|].
  destruct (create_tables_loop _ _ _ _) as [[strings1 children1]|] eqn:El; [|discriminate].
  simpl in H. injection H as <- <- <-. simpl in Hin.
  destruct (find_globals_spec _ _ _ _ _ Eg) as ((_ & _ & _ & _ & Hcons) & _ & Hfi).
  fold (entries_of g) in El.
  assert (Hnd : NoDup (function_indices (entries_of g)))
    by (rewrite Hfi; apply function_positions_NoDup).
  destruct (create_tables_loop_spec _ _ _ _ _ _ Hcons Hnd El) as (_ & Hbound & Hkeep).
  apply list_elem_of_lookup in Hin as [j Hj].
  destruct (Hkeep j _ Hj) as (node & Hnode & Hsame).
  rewrite Hf in Hsame. symmetry in Hsame.
  pose proof (function_positions_complete _ 0 _ _ Hnode Hsame) as Hpos.
  simpl in Hpos. rewrite <- Hfi in Hpos.
  destruct (Hbound j Hpos) as (node' & Hnode' & Hb).
  rewrite Hj in Hnode'. injection Hnode' as <-. exact Hb.
Qed.

Lemma create_tables_binds_every_use_witness :
  match create_tables two_function_program with
  | Ok (_, _, root') =>
      forall function_node,
        function_node ∈ children_of root' ->
        is_function function_node = true ->
        uses_bound (function_body function_node) = true
  | Fatal _ => False
  end.
Proof.
  destruct (create_tables two_function_program) as [[[globals strings] root']|] eqn:E.
  - exact (create_tables_binds_every_use _ _ _ _ E).
  - vm_compute in E. discriminate.
Defined.

(** A function may use a function declared after it: the scope maps of all
    functions fall back on the one global map, complete when the bodies are
    bound. *)
Example create_tables_forward_reference :
  match create_tables two_function_program with
  | Ok (_, _, Node _ _ _ (_ :: main_node :: _)) =>
      function_body main_node
      = node_create BLOCK
          [ node_create LIST
              [ node_create RETURN_STATEMENT
                  [ node_create FUNCTION_CALL
                      [ identifier_use "f" (Some (mk_symbol SYMBOL_FUNCTION "f" 3 1));
                        node_create LIST
                          [identifier_use "x" (Some (mk_symbol SYMBOL_GLOBAL_VAR "x" 0 0))] ] ] ] ]
  | _ => False
  end.
Proof. vm_compute. reflexivity. Qed.

End GlobalsFacts.

Module StringListFacts.
Import Globals.

Lemma add_strings_bounds new_strings : forall strings,
  Z.of_nat (length (stored_strings strings) + length new_strings) < 2 ^ 60 - 4 ->
  Z.of_nat (length (stored_strings strings)) <= string_list_capacity strings
    <= 2 * Z.of_nat (length (stored_strings strings)) + 8 ->
  string_list_bytes strings = string_list_capacity strings * sizeof_string_pointer ->
  exists capacity,
    add_strings strings new_strings
    = Some (mk_string_list (stored_strings strings ++ new_strings) capacity
                           (capacity * sizeof_string_pointer))
    /\ Z.of_nat (length (stored_strings strings) + length new_strings) <= capacity
       <= 2 * Z.of_nat (length (stored_strings strings) + length new_strings) + 8.
Proof.
  assert (H60 : 2 ^ 60 * 16 = 2 ^ 64) by reflexivity.
  induction new_strings as [|s r IH]; intros [items capacity bytes] Hsmall Hinv Hbytes;
    cbn [stored_strings string_list_capacity string_list_bytes] in *.
  - exists capacity. cbn [add_strings length]. rewrite app_nil_r, Nat.add_0_r, Hbytes.
    split; [reflexivity | exact Hinv].
  - cbn [length] in Hsmall.
    cbn [add_strings]. unfold add_string_allocated.
    cbn [stored_strings string_list_capacity string_list_bytes].
    assert (Hlen : Generator.to_size_t (Z.of_nat (length items) + 1)
                   = Z.of_nat (length items) + 1)
      by (unfold Generator.to_size_t; apply Z.mod_small; lia).
    rewrite Hlen.
    set (resize := Z.of_nat (length items) + 1 >=? capacity).
    set (capacity' := if resize then Generator.to_size_t (capacity * 2 + 8) else capacity).
    set (bytes' := if resize then Generator.to_size_t (capacity' * sizeof_string_pointer)
                   else bytes).
    assert (Hc : Z.of_nat (length items) + 1 <= capacity'
                 <= 2 * (Z.of_nat (length items) + 1) + 8).
    { subst capacity' resize.
      destruct (Z.geb_spec (Z.of_nat (length items) + 1) capacity) as [Hge|Hlt].
      - unfold Generator.to_size_t. rewrite Z.mod_small by lia. lia.
      - lia. }
    assert (Hb : bytes' = capacity' * sizeof_string_pointer).
    { subst bytes' capacity' resize.
      destruct (Z.of_nat (length items) + 1 >=? capacity); [|exact Hbytes].
      unfold Generator.to_size_t at 1. unfold sizeof_string_pointer.
      apply Z.mod_small. lia. }
    destruct (Z.leb_spec ((Z.of_nat (length items) + 1) * sizeof_string_pointer) bytes')
      as [_|Hbad]; [|rewrite Hb in Hbad; unfold sizeof_string_pointer in Hbad; lia].
    destruct (IH (mk_string_list (items ++ [s]) capacity' bytes')) as (final & Hrun & Hfinal).
    + cbn [stored_strings]. rewrite length_app. cbn [length]. lia.
    + cbn [stored_strings string_list_capacity]. rewrite length_app. cbn [length]. lia.
    + exact Hb.
    + cbn [stored_strings] in Hrun, Hfinal. rewrite length_app in Hfinal.
      cbn [length] in Hfinal.
      exists final. rewrite <- app_assoc in Hrun. cbn [app] in Hrun.
      split; [exact Hrun|]. cbn [length]. lia.
Qed.

(** X15: the string list does not outgrow its allocation: starting from the
    empty list, each of fewer than 2^60 - 4 strings is stored inside the
    bytes last asked of [realloc], the strings stand in the order they were
    added, the capacity ends between the length and twice the length plus
    8, and the allocation holds that many pointers. *)
Theorem add_string_stays_in_capacity (new_strings : list string) :
  Z.of_nat (length new_strings) < 2 ^ 60 - 4 ->
  exists capacity,
    add_strings (mk_string_list [] 0 0) new_strings
    = Some (mk_string_list new_strings capacity (capacity * sizeof_string_pointer))
    /\ Z.of_nat (length new_strings) <= capacity <= 2 * Z.of_nat (length new_strings) + 8.
Proof.
  intros Hsmall.
  destruct (add_strings_bounds new_strings (mk_string_list [] 0 0)) as (capacity & Hrun & Hc).
  - cbn [stored_strings length]. exact Hsmall.
  - cbn [stored_strings string_list_capacity length]. lia.
  - reflexivity.
  - exists capacity. cbn [stored_strings length app] in Hrun, Hc. auto.
Qed.

Lemma add_string_stays_in_capacity_witness :
  Z.of_nat (length (replicate 9 "s")) < 2 ^ 60 - 4
  /\ exists capacity,
       add_strings (mk_string_list [] 0 0) (replicate 9 "s")
       = Some (mk_string_list (replicate 9 "s") capacity (capacity * sizeof_string_pointer))
       /\ Z.of_nat (length (replicate 9 "s")) <= capacity
          <= 2 * Z.of_nat (length (replicate 9 "s")) + 8.
Proof.
  assert (H : Z.of_nat (length (replicate 9 "s")) < 2 ^ 60 - 4) by (vm_compute; reflexivity).
  split; [exact H | exact (add_string_stays_in_capacity (replicate 9 "s") H)].
Defined.

End StringListFacts.

(** ** Further properties of the generator *)

Module FrameFacts.
Import Generator GeneratorSpec GeneratorFacts.

Lemma in_int_small v : - 2 ^ 31 <= v < 2 ^ 31 -> in_int v.
Proof. unfold in_int, INT_MIN, INT_MAX. lia. Qed.

(** What [get_stack_offset] computes, as long as the frame fits an [int]:
    the three kinds of slot. *)
Lemma get_stack_offset_cases function number :
  Z.of_nat number < 2 ^ 27 ->
  let param_count := FUNC_PARAM_COUNT function in
  ((number < param_count)%nat /\ (5 < number)%nat
   /\ get_stack_offset function number = 8 * (Z.of_nat number - 4))
  \/ ((number < param_count)%nat /\ (number <= 5)%nat
      /\ get_stack_offset function number = - 8 * (Z.of_nat number + 1))
  \/ ((param_count <= number)%nat
      /\ get_stack_offset function number
         = - 8 * (Z.of_nat (Nat.max param_count 6)
                  + Z.of_nat (number - param_count) + 1)).
Proof.
  intros Hsmall param_count.
  destruct (Nat.ltb_spec number param_count) as [Hlt|Hge].
  - unfold get_stack_offset. fold param_count.
    destruct (number <? param_count)%nat eqn:E; [|apply Nat.ltb_ge in E; lia].
    destruct (Nat.ltb_spec 5 number) as [H5|H5].
    + left. split; [exact Hlt|]. split; [exact H5|].
      rewrite to_int_to_size_t by (apply in_int_small; lia). lia.
    + right. left. split; [exact Hlt|]. split; [exact H5|].
      rewrite to_int_to_size_t by (apply in_int_small; lia). lia.
  - right. right. split; [exact Hge|].
    apply get_stack_offset_local; [exact Hge | exact Hsmall].
Qed.

(** X16: two symbols of a function never share a frame slot, and no symbol is
    given the slot of the saved frame pointer (offset 0) or of the return
    address (offset 8). *)
Theorem get_stack_offset_injective function n1 n2 :
  Z.of_nat n1 < 2 ^ 27 -> Z.of_nat n2 < 2 ^ 27 ->
  (get_stack_offset function n1 = get_stack_offset function n2 -> n1 = n2)
  /\ get_stack_offset function n1 <> 0
  /\ get_stack_offset function n1 <> 8.
Proof.
  intros H1 H2.
  pose proof (get_stack_offset_cases function n1 H1) as C1.
  pose proof (get_stack_offset_cases function n2 H2) as C2.
  cbv zeta in C1, C2.
  destruct C1 as [(A1 & B1 & E1)|[(A1 & B1 & E1)|(A1 & E1)]];
    destruct C2 as [(A2 & B2 & E2)|[(A2 & B2 & E2)|(A2 & E2)]];
    rewrite E1, E2; (split; [intros E | split]); lia.
Qed.

Lemma get_stack_offset_injective_witness :
  Z.of_nat 2 < 2 ^ 27 /\ Z.of_nat 9 < 2 ^ 27
  /\ (get_stack_offset (mk_symbol SYMBOL_FUNCTION "f" 0 8) 2
      = get_stack_offset (mk_symbol SYMBOL_FUNCTION "f" 0 8) 9 -> 2%nat = 9%nat)
  /\ get_stack_offset (mk_symbol SYMBOL_FUNCTION "f" 0 8) 2 <> 0
  /\ get_stack_offset (mk_symbol SYMBOL_FUNCTION "f" 0 8) 2 <> 8.
Proof.
  assert (H1 : Z.of_nat 2 < 2 ^ 27) by (vm_compute; reflexivity).
  assert (H2 : Z.of_nat 9 < 2 ^ 27) by (vm_compute; reflexivity).
  split; [exact H1|]. split; [exact H2|].
  exact (get_stack_offset_injective (mk_symbol SYMBOL_FUNCTION "f" 0 8) 2 9 H1 H2).
Defined.

Lemma frame_slots_app_pushes operands rest : forall rsp,
  frame_slots (map PUSHQ operands ++ rest) (Some rsp)
  = slots_from operands rsp
    ++ frame_slots rest (Some (rsp - 8 * Z.of_nat (length operands))).
Proof.
  induction operands as [|o r IH]; intros rsp.
  - cbn [map app slots_from length].
    replace (rsp - 8 * Z.of_nat 0) with rsp by lia. reflexivity.
  - cbn [map app frame_slots slots_from length]. rewrite IH, Nat2Z.inj_succ.
    replace (rsp - 8 - 8 * Z.of_nat (length r))
      with (rsp - 8 * Z.succ (Z.of_nat (length r))) by lia.
    reflexivity.
Qed.

Lemma slots_from_lookup operands : forall rsp i o,
  operands !! i = Some o ->
  slots_from operands rsp !! i = Some (o, rsp - 8 * (Z.of_nat i + 1)).
Proof.
  induction operands as [|x r IH]; intros rsp i o H; [discriminate|].
  destruct i as [|i]; simpl in H; cbn [slots_from lookup list_lookup].
  - injection H as ->. replace (rsp - 8 * (Z.of_nat 0 + 1)) with (rsp - 8) by lia.
    reflexivity.
  - rewrite (IH _ _ _ H), Nat2Z.inj_succ.
    replace (rsp - 8 - 8 * (Z.of_nat i + 1)) with (rsp - 8 * (Z.succ (Z.of_nat i) + 1)) by lia.
    reflexivity.
Qed.

(** X17: a parameter passed in a register is read from the frame slot into
    which the prologue pushed that register: the [i]-th push after the
    frame is set up stores [REGISTER_PARAMS[i]] at the offset
    [get_stack_offset] gives the parameter number [i]. *)
Theorem register_parameter_offset_is_prologue_slot function function_symbols i register :
  (i < FUNC_PARAM_COUNT function)%nat ->
  REGISTER_PARAMS !! i = Some register ->
  frame_slots (generate_prologue function function_symbols) None !! i
  = Some (register, get_stack_offset function i).
Proof.
  intros Hi Hreg.
  assert (Hi6 : (i < 6)%nat) by (apply lookup_lt_Some in Hreg; exact Hreg).
  assert (Hoff : get_stack_offset function i = - 8 * (Z.of_nat i + 1)).
  { assert (Hsmall : Z.of_nat i < 2 ^ 27) by lia.
    pose proof (get_stack_offset_cases function i Hsmall) as C. cbv zeta in C.
    destruct C as [(A & B & E)|[(A & B & E)|(A & E)]]; [lia | exact E | lia]. }
  rewrite Hoff. unfold generate_prologue.
  cbn [app frame_slots]. rewrite frame_slots_app_pushes.
  rewrite lookup_app_l.
  - rewrite (slots_from_lookup _ 0 i register);
      [replace (0 - 8 * (Z.of_nat i + 1)) with (- 8 * (Z.of_nat i + 1)) by lia; reflexivity|].
    rewrite lookup_take_lt; [exact Hreg|].
    unfold find_min, NUM_REGISTER_PARAMS.
    destruct (6 <? FUNC_PARAM_COUNT function)%nat; lia.
  - assert (Hlen : forall operands rsp, length (slots_from operands rsp) = length operands).
    { induction operands as [|x r IH]; intros rsp; simpl; [reflexivity|].
      rewrite IH. reflexivity. }
    rewrite Hlen, length_take.
    unfold find_min, NUM_REGISTER_PARAMS. simpl length.
    destruct (6 <? FUNC_PARAM_COUNT function)%nat; lia.
Qed.

Lemma register_parameter_offset_is_prologue_slot_witness :
  (2 < FUNC_PARAM_COUNT (mk_symbol SYMBOL_FUNCTION "f" 0 3))%nat
  /\ REGISTER_PARAMS !! 2%nat = Some RDX
  /\ frame_slots (generate_prologue (mk_symbol SYMBOL_FUNCTION "f" 0 3) []) None !! 2%nat
     = Some (RDX, get_stack_offset (mk_symbol SYMBOL_FUNCTION "f" 0 3) 2).
Proof.
  assert (H1 : (2 < FUNC_PARAM_COUNT (mk_symbol SYMBOL_FUNCTION "f" 0 3))%nat)
    by (vm_compute; lia).
  assert (H2 : REGISTER_PARAMS !! 2%nat = Some RDX) by reflexivity.
  split; [exact H1|]. split; [exact H2|].
  exact (register_parameter_offset_is_prologue_slot _ [] 2 RDX H1 H2).
Defined.

End FrameFacts.

Module CodeFacts.
Import Generator GeneratorSpec GeneratorFacts TreeSpec TreeFacts CodeSpec.

Lemma stack_effect_app code1 code2 :
  stack_effect (code1 ++ code2) = stack_effect code1 + stack_effect code2.
Proof. induction code1 as [|l r IH]; simpl; [reflexivity|]. rewrite IH. lia. Qed.

Ltac stack_effects :=
  repeat first [rewrite stack_effect_app | progress cbn [app stack_effect stack_effect_of]].

Lemma stack_effect_pops registers :
  stack_effect (map POPQ registers) = - Z.of_nat (length registers).
Proof.
  induction registers as [|o r IH]; [reflexivity|].
  cbn [map stack_effect stack_effect_of length]. rewrite IH, Nat2Z.inj_succ. lia.
Qed.

Lemma find_min_min a b : find_min a b = Nat.min a b.
Proof. unfold find_min. destruct (Nat.ltb_spec a b); lia. Qed.

Lemma binary_operation_effect op operation :
  binary_operation op = Some operation ->
  stack_effect operation = 0 /\ Forall (fun line => expression_line line = true) operation.
Proof.
  unfold binary_operation. intros H.
  destruct (String.eqb op "+"); [injection H as <-; split; [reflexivity | repeat constructor]|].
  destruct (String.eqb op "-"); [injection H as <-; split; [reflexivity | repeat constructor]|].
  destruct (String.eqb op "*"); [injection H as <-; split; [reflexivity | repeat constructor]|].
  destruct (String.eqb op "/"); [injection H as <-; split; [reflexivity | repeat constructor]|].
  destruct (String.eqb op "<");
    [simpl in H; injection H as <-; split; [reflexivity | repeat constructor]|].
  destruct (String.eqb op "<=");
    [simpl in H; injection H as <-; split; [reflexivity | repeat constructor]|].
  destruct (String.eqb op ">");
    [simpl in H; injection H as <-; split; [reflexivity | repeat constructor]|].
  destruct (String.eqb op ">=");
    [simpl in H; injection H as <-; split; [reflexivity | repeat constructor]|].
  destruct (String.eqb op "==");
    [simpl in H; injection H as <-; split; [reflexivity | repeat constructor]|].
  destruct (String.eqb op "!=");
    [simpl in H; injection H as <-; split; [reflexivity | repeat constructor]|].
  discriminate.
Qed.

Lemma unary_operation_effect op operation :
  unary_operation op = Some operation ->
  stack_effect operation = 0 /\ Forall (fun line => expression_line line = true) operation.
Proof.
  unfold unary_operation. intros H.
  destruct (String.eqb op "-"); [injection H as <-; split; [reflexivity|repeat constructor]|].
  destruct (String.eqb op "!"); [injection H as <-; split; [reflexivity|repeat constructor]|].
  discriminate.
Qed.

Lemma generate_arguments_effect generate (effect : node_t -> Z) arguments :
  Forall (fun argument => forall code,
            generate argument = Some code ->
            stack_effect code = effect argument
            /\ Forall (fun line => expression_line line = true) code) arguments ->
  forall code,
    generate_arguments generate arguments = Some code ->
    stack_effect code
    = fold_right (fun argument total => effect argument + total) 0 arguments
      + Z.of_nat (length arguments)
    /\ Forall (fun line => expression_line line = true) code.
Proof.
  induction 1 as [|a r Ha _ IH]; intros code H; simpl in H.
  - injection H as <-. split; [reflexivity | constructor].
  - destruct (generate_arguments generate r) as [rest_code|] eqn:Er; [|discriminate].
    simpl in H. destruct (generate a) as [a_code|] eqn:Ea; [|discriminate].
    simpl in H. injection H as <-.
    destruct (IH _ eq_refl) as [IH1 IH2]. destruct (Ha _ eq_refl) as [Ha1 Ha2].
    split.
    + rewrite !stack_effect_app, IH1, Ha1.
      cbn [fold_right length stack_effect stack_effect_of]. rewrite Nat2Z.inj_succ. lia.
    + apply Forall_app. split; [exact IH2|]. apply Forall_app. split; [exact Ha2|].
      repeat constructor.
Qed.

Lemma generate_function_call_effect current_function type data symbol children :
  Forall (fun child => Forall (expression_facts current_function) (statements_of child))
         children ->
  forall code,
    generate_function_call_with (generate_expression current_function)
                                (Node type data symbol children) = Some code ->
    stack_effect code = unpopped_arguments (Node FUNCTION_CALL data symbol children)
    /\ Forall (fun line => expression_line line = true) code.
Proof.
  intros IHs code H. unfold generate_function_call_with in H.
  destruct children as [|identifier_node [|parameter_list_node rest]]; try discriminate.
  destruct (symbol_of identifier_node) as [function_identifier_symbol|] eqn:Es;
    [|discriminate].
  simpl in H.
  destruct (negb (symtype_eqb (sym_type function_identifier_symbol) SYMBOL_FUNCTION));
    [discriminate|].
  destruct parameter_list_node as [|lt ld ls arguments]; [discriminate|].
  destruct (generate_arguments _ arguments) as [argument_code|] eqn:Ea; [|discriminate].
  simpl in H. injection H as <-.
  inversion IHs as [|? ? _ IHs1]; subst. inversion IHs1 as [|? ? Hargs _]; subst.
  simpl in Hargs.
  destruct (generate_arguments_effect _ unpopped_arguments _ Hargs _ Ea) as [E1 E2].
  split.
  - rewrite !stack_effect_app, E1, stack_effect_pops, length_take, find_min_min.
    cbn [unpopped_arguments]. unfold callee_parameters. rewrite Es.
    cbn [stack_effect stack_effect_of]. unfold NUM_REGISTER_PARAMS, REGISTER_PARAMS.
    cbn [length]. lia.
  - apply Forall_app. split; [exact E2|]. apply Forall_app. split.
    + apply List.Forall_forall. intros line Hin. apply in_map_iff in Hin as (o & <- & _).
      reflexivity.
    + repeat constructor.
Qed.

Lemma generate_expression_facts current_function expression :
  expression_facts current_function expression.
Proof.
  induction expression as [|type data symbol children IH IHs] using node_statements_ind;
    intros code H.
  - injection H as <-. split; [reflexivity | constructor].
  - destruct type; simpl in H;
      try (injection H as <-; split; [reflexivity | constructor]).
    + (* ARRAY_INDEXING *)
      destruct children as [|array_identifier_node [|index_node rest]]; try discriminate.
      inversion IH as [|? ? _ IH1]; subst. inversion IH1 as [|? ? Hi _]; subst.
      destruct (generate_expression current_function index_node) as [c|] eqn:Ei;
        [|discriminate].
      simpl in H.
      destruct (identifier_of array_identifier_node) as [name|]; [|discriminate].
      simpl in H. injection H as <-.
      destruct (Hi _ Ei) as [H1 H2].
      split.
      * stack_effects. rewrite H1. cbn [unpopped_arguments]. lia.
      * apply Forall_cons. split; [reflexivity|]. apply Forall_app. split; [exact H2|].
        repeat constructor.
    + (* OPERATOR *)
      destruct children as [|lhs [|rhs rest]]; [discriminate| |].
      * inversion IH as [|? ? Hl _]; subst.
        destruct (generate_expression current_function lhs) as [c|] eqn:El; [|discriminate].
        simpl in H. destruct data; try discriminate. simpl in H.
        destruct (unary_operation _) as [operation|] eqn:Eo; [|discriminate].
        simpl in H. injection H as <-.
        destruct (Hl _ El) as [H1 H2]. destruct (unary_operation_effect _ _ Eo) as [H3 H4].
        split; [stack_effects; rewrite H1, H3; cbn [unpopped_arguments]; lia|].
        apply Forall_app. auto.
      * inversion IH as [|? ? Hl IH1]; subst. inversion IH1 as [|? ? Hr _]; subst.
        destruct (generate_expression current_function lhs) as [c1|] eqn:El; [|discriminate].
        simpl in H.
        destruct (generate_expression current_function rhs) as [c2|] eqn:Er; [|discriminate].
        simpl in H. destruct data; try discriminate. simpl in H.
        destruct (binary_operation _) as [operation|] eqn:Eo; [|discriminate].
        simpl in H. injection H as <-.
        destruct (Hl _ El) as [H1 H2]. destruct (Hr _ Er) as [H3 H4].
        destruct (binary_operation_effect _ _ Eo) as [H5 H6].
        split.
        -- stack_effects. rewrite H1, H3, H5. cbn [unpopped_arguments]. lia.
        -- apply Forall_app. split; [exact H2|]. apply Forall_cons. split; [reflexivity|].
           apply Forall_app. split; [exact H4|]. apply Forall_cons. split; [reflexivity|].
           exact H6.
    + (* IDENTIFIER *)
      destruct symbol as [identifier_symbol|]; [|discriminate]. simpl in H.
      destruct (symtype_eqb (sym_type identifier_symbol) SYMBOL_GLOBAL_VAR).
      * destruct data; try discriminate. simpl in H. injection H as <-.
        split; [reflexivity | repeat constructor].
      * injection H as <-. split; [reflexivity | repeat constructor].
    + (* NUMBER_LITERAL *)
      destruct data; try discriminate. injection H as <-.
      split; [reflexivity | repeat constructor].
    + (* FUNCTION_CALL *)
      exact (generate_function_call_effect _ FUNCTION_CALL _ _ _ IHs _ H).
Qed.

Lemma unpopped_arguments_zero arguments :
  Forall fits_facts arguments ->
  forallb calls_fit arguments = true ->
  fold_right (fun argument total => unpopped_arguments argument + total) 0 arguments = 0.
Proof.
  induction 1 as [|a r Ha _ IHr]; intros Hall; [reflexivity|].
  simpl in Hall |- *. apply andb_true_iff in Hall as [H1 H2].
  rewrite (Ha H1), (IHr H2). reflexivity.
Qed.

Lemma calls_fit_unpopped expression : fits_facts expression.
Proof.
  induction expression as [|type data symbol children IH IHs] using node_statements_ind;
    intros H; [reflexivity|].
  destruct type; try reflexivity; simpl in H |- *.
  - (* ARRAY_INDEXING *)
    destruct children as [|array_identifier_node [|index_node rest]]; try reflexivity.
    inversion IH as [|? ? _ IH1]; subst. inversion IH1 as [|? ? Hi _]; subst. auto.
  - (* OPERATOR *)
    destruct children as [|lhs [|rhs rest]]; [reflexivity| |].
    + inversion IH; subst. auto.
    + inversion IH as [|? ? Hl IH1]; subst. inversion IH1 as [|? ? Hr _]; subst.
      apply andb_true_iff in H as [H1 H2]. rewrite (Hl H1), (Hr H2). reflexivity.
  - (* FUNCTION_CALL *)
    destruct children as [|identifier_node [|[|lt ld ls arguments] rest]]; try reflexivity.
    apply andb_true_iff in H as [H Hsix]. apply andb_true_iff in H as [Hall Hlen].
    apply Nat.eqb_eq in Hlen. apply Nat.leb_le in Hsix.
    inversion IHs as [|? ? _ IHs1]; subst. inversion IHs1 as [|? ? Hargs _]; subst.
    simpl in Hargs.
    rewrite (unpopped_arguments_zero _ Hargs Hall). lia.
Qed.

(** X18: the code of an expression leaves on the stack exactly the arguments
    its calls push beyond the parameters the callee takes in registers:
    nothing when every call passes as many arguments as the callee has
    parameters and six at most, one quadword per further argument
    otherwise. *)
Theorem generate_expression_stack_effect :
  forall current_function expression code,
    generate_expression current_function expression = Some code ->
    stack_effect code = unpopped_arguments expression
    /\ (calls_fit expression = true -> stack_effect code = 0).
Proof.
  intros current_function expression code H.
  destruct (generate_expression_facts _ _ _ H) as [E _].
  split; [exact E|]. intros Hfit. rewrite E. exact (calls_fit_unpopped _ Hfit).
Qed.

Lemma generate_expression_stack_effect_witness :
  match generate_expression function_of_seven call_with_seven,
        generate_expression function_of_seven sum_with_call with
  | Some code7, Some code =>
      (stack_effect code7 = 1 /\ (calls_fit call_with_seven = true -> stack_effect code7 = 0))
      /\ (stack_effect code = 0 /\ (calls_fit sum_with_call = true -> stack_effect code = 0))
      /\ calls_fit call_with_seven = false
      /\ calls_fit sum_with_call = true
  | _, _ => False
  end.
Proof.
  destruct (generate_expression function_of_seven call_with_seven) as [code7|] eqn:E7;
    [|vm_compute in E7; discriminate].
  destruct (generate_expression function_of_seven sum_with_call) as [code|] eqn:E;
    [|vm_compute in E; discriminate].
  split; [exact (generate_expression_stack_effect _ _ _ E7)|].
  split; [exact (generate_expression_stack_effect _ _ _ E)|].
  split; reflexivity.
Defined.

Lemma expression_line_plain line :
  expression_line line = true ->
  is_label line = false /\ is_jump line = false
  /\ is_emit "call safe_printf" line = false /\ is_emit "call putchar" line = false.
Proof.
  destruct line; try discriminate; try (intros _; repeat split; reflexivity).
  unfold expression_line, expression_formats. cbn [existsb]. intros H.
  repeat match type of H with
         | (String.eqb ?a ?b || _)%bool = true =>
             let E := fresh "E" in
             destruct (String.eqb a b) eqn:E;
             [apply String.eqb_eq in E; subst; repeat split;
              first [reflexivity | destruct args; reflexivity]
             | simpl in H]
         end.
  discriminate.
Qed.

Lemma body_line_facts name line :
  body_line name line ->
  is_label line = false
  /\ (is_jump line = true -> line = EMIT "jmp .%s.epilogue" [arg_string name]).
Proof.
  intros [H|[(format & args & Hline & H)|Hline]]; try subst line.
  - destruct (expression_line_plain _ H) as (Hl & Hj & _). split; [exact Hl|].
    rewrite Hj. discriminate.
  - split; [reflexivity|]. unfold statement_formats in H. cbn [existsb] in H.
    repeat match type of H with
           | (String.eqb ?a ?b || _)%bool = true =>
               let E := fresh "E" in
               destruct (String.eqb a b) eqn:E;
               [apply String.eqb_eq in E; subst; discriminate | simpl in H]
           end.
    discriminate.
  - split; [reflexivity | intros _; reflexivity].
Qed.

Lemma expression_body_lines name code :
  Forall (fun line => expression_line line = true) code -> Forall (body_line name) code.
Proof. intros H. eapply Forall_impl; [exact H|]. intros line Hline. left. exact Hline. Qed.

Lemma statement_format_line name format args :
  existsb (String.eqb format) statement_formats = true -> body_line name (EMIT format args).
Proof. intros H. right. left. eauto. Qed.

Lemma generate_assignment_statement_lines current_function statement code :
  generate_assignment_statement current_function statement = Some code ->
  Forall (body_line (sym_name current_function)) code.
Proof.
  intros H. unfold generate_assignment_statement in H.
  destruct statement as [|type data symbol children]; [discriminate|].
  destruct children as [|left_side [|right_side rest]]; try discriminate.
  destruct (generate_expression current_function right_side) as [rhs_code|] eqn:Er;
    [|discriminate].
  simpl in H.
  pose proof (expression_body_lines (sym_name current_function) _
                (proj2 (generate_expression_facts _ _ _ Er))) as Hr.
  destruct left_side as [|ltype ldata lsymbol lchildren]; [discriminate|].
  destruct (node_type_eqb ltype IDENTIFIER).
  - destruct lsymbol as [identifier_symbol|]; [|discriminate]. simpl in H.
    destruct (symtype_eqb (sym_type identifier_symbol) SYMBOL_GLOBAL_VAR);
      injection H as <-; apply Forall_app; (split; [exact Hr|]);
      (apply Forall_cons; split; [apply statement_format_line; reflexivity | constructor]).
  - destruct (negb (node_type_eqb ltype ARRAY_INDEXING)); [discriminate|].
    destruct lchildren as [|array_identifier_node [|index_node lrest]]; try discriminate.
    destruct (generate_expression current_function index_node) as [index_code|] eqn:Ei;
      [|discriminate].
    simpl in H.
    pose proof (expression_body_lines (sym_name current_function) _
                  (proj2 (generate_expression_facts _ _ _ Ei))) as Hi.
    destruct (symbol_of array_identifier_node) as [array_identifier_symbol|];
      [|discriminate].
    simpl in H. injection H as <-.
    apply Forall_app. split; [exact Hr|].
    apply Forall_cons. split; [left; reflexivity|].
    apply Forall_app. split; [exact Hi|].
    apply Forall_cons. split; [left; reflexivity|].
    apply Forall_cons. split; [left; reflexivity|].
    apply Forall_cons. split; [left; reflexivity|].
    apply Forall_cons. split; [left; reflexivity|].
    apply Forall_cons. split; [left; reflexivity|].
    apply Forall_cons. split; [apply statement_format_line; reflexivity | constructor].
Qed.

Lemma expression_lines_print_nothing code :
  Forall (fun line => expression_line line = true) code ->
  List.filter (is_emit "call safe_printf") code = []
  /\ List.filter (is_emit "call putchar") code = [].
Proof.
  induction 1 as [|l r Hl _ [IH1 IH2]]; [split; reflexivity|]. simpl.
  destruct (expression_line_plain _ Hl) as (_ & _ & -> & ->). auto.
Qed.

Lemma generate_print_items_lines current_function items : forall code,
  generate_print_items current_function items = Some code ->
  Forall (body_line (sym_name current_function)) code
  /\ count_emitted "call safe_printf" code = length items
  /\ count_emitted "call putchar" code = 0%nat.
Proof.
  induction items as [|item rest IH]; intros code H; simpl in H.
  - injection H as <-. repeat split. constructor.
  - destruct item as [|type data symbol children]; [discriminate|].
    match type of H with
    | (?m ≫= _) = _ => destruct m as [item_code|] eqn:Ei; [|discriminate]
    end.
    simpl in H.
    destruct (generate_print_items current_function rest) as [rest_code|] eqn:Er;
      [|discriminate].
    simpl in H. injection H as <-.
    destruct (IH _ eq_refl) as (IH1 & IH2 & IH3).
    assert (Hitem : Forall (body_line (sym_name current_function)) item_code
                    /\ List.filter (is_emit "call safe_printf") item_code = []
                    /\ List.filter (is_emit "call putchar") item_code = []).
    { destruct (node_type_eqb type STRING_LIST_REFERENCE).
      - destruct data; try discriminate. injection Ei as <-.
        split; [|split; reflexivity].
        repeat (apply Forall_cons; split; [apply statement_format_line; reflexivity|]).
        constructor.
      - destruct (generate_expression current_function (Node type data symbol children))
          as [c|] eqn:Ec; [|discriminate].
        simpl in Ei. injection Ei as <-.
        pose proof (proj2 (generate_expression_facts _ _ _ Ec)) as Hc.
        split; [|split].
        + apply Forall_app. split; [apply expression_body_lines; exact Hc|].
          apply Forall_cons. split; [apply statement_format_line; reflexivity|].
          apply Forall_cons. split; [left; reflexivity | constructor].
        + rewrite List.filter_app. simpl. rewrite app_nil_r.
          exact (proj1 (expression_lines_print_nothing _ Hc)).
        + rewrite List.filter_app. simpl. rewrite app_nil_r.
          exact (proj2 (expression_lines_print_nothing _ Hc)). }
    destruct Hitem as (Hi1 & Hi2 & Hi3).
    split; [|split].
    + apply Forall_app. split; [exact Hi1|].
      apply Forall_cons. split; [apply statement_format_line; reflexivity | exact IH1].
    + unfold count_emitted in *. rewrite List.filter_app, Hi2. simpl. rewrite IH2. reflexivity.
    + unfold count_emitted in *. rewrite List.filter_app, Hi3. simpl. exact IH3.
Qed.


Lemma generate_children_lines (P : asm_line -> Prop) generate children :
  Forall (fun child => forall code, generate child = Some code -> Forall P code) children ->
  forall code, generate_children generate children = Some code -> Forall P code.
Proof.
  induction 1 as [|c r Hc _ IH]; intros code H; simpl in H.
  - injection H as <-. constructor.
  - destruct (generate c) as [c_code|] eqn:Ec; [|discriminate]. simpl in H.
    destruct (generate_children generate r) as [r_code|] eqn:Er; [|discriminate].
    simpl in H. injection H as <-. apply Forall_app. auto.
Qed.

Lemma generate_function_call_lines current_function call code :
  generate_function_call current_function call = Some code ->
  Forall (fun line => expression_line line = true) code.
Proof.
  unfold generate_function_call. intros H.
  destruct call as [|type data symbol children]; [discriminate|].
  refine (proj2 (generate_function_call_effect _ _ _ _ _ _ _ H)).
  apply List.Forall_forall. intros child _. apply List.Forall_forall. intros argument _.
  apply generate_expression_facts.
Qed.

Lemma generate_statement_lines current_function node : forall code,
  generate_statement current_function node = Some code ->
  Forall (body_line (sym_name current_function)) code.
Proof.
  induction node as [|type data symbol children IH] using node_t_ind'; intros code H.
  - injection H as <-. constructor.
  - rewrite generate_statement_unfold in H.
    match type of H with
    | (?m ≫= _) = _ => destruct m as [own_code|] eqn:Eo; [|discriminate]
    end.
    simpl in H.
    destruct (generate_children (generate_statement current_function) children)
      as [children_code|] eqn:Ec; [|discriminate].
    simpl in H. injection H as <-.
    apply Forall_app. split; [|exact (generate_children_lines _ _ _ IH _ Ec)].
    destruct type; try (injection Eo as <-; constructor).
    + (* RETURN_STATEMENT *)
      unfold generate_return_statement in Eo.
      destruct children as [|expression rest]; [discriminate|].
      destruct (generate_expression current_function expression) as [c|] eqn:Ee;
        [|discriminate].
      simpl in Eo. injection Eo as <-.
      apply Forall_app. split.
      * apply expression_body_lines. exact (proj2 (generate_expression_facts _ _ _ Ee)).
      * apply Forall_cons. split; [right; right; reflexivity | constructor].
    + (* PRINT_STATEMENT *)
      unfold generate_print_statement in Eo.
      destruct children as [|[|lt ld ls items] rest]; try discriminate.
      destruct (generate_print_items current_function items) as [items_code|] eqn:Ei;
        [|discriminate].
      simpl in Eo. injection Eo as <-.
      apply Forall_app. split; [exact (proj1 (generate_print_items_lines _ _ _ Ei))|].
      apply Forall_cons. split; [left; reflexivity|].
      apply Forall_cons. split; [apply statement_format_line; reflexivity | constructor].
    + (* ASSIGNMENT_STATEMENT *)
      exact (generate_assignment_statement_lines _ _ _ Eo).
    + (* FUNCTION_CALL *)
      apply expression_body_lines. exact (generate_function_call_lines _ _ _ Eo).
Qed.





Lemma prologue_labels function function_symbols :
  List.filter is_label (generate_prologue function function_symbols)
  = [LABEL ".%s" [arg_string (sym_name function)]]
  /\ List.filter is_jump (generate_prologue function function_symbols) = [].
Proof.
  unfold generate_prologue. rewrite !List.filter_app.
  assert (H1 : forall operands,
             List.filter is_label (map PUSHQ operands) = []
             /\ List.filter is_jump (map PUSHQ operands) = []).
  { induction operands as [|o r [IH1 IH2]]; [split; reflexivity|]. simpl. auto. }
  assert (H2 : List.filter is_label
                 (flat_map (fun symbol =>
                    if symtype_eqb (sym_type symbol) SYMBOL_LOCAL_VAR
                    then [PUSHQ (literal "$0")] else []) function_symbols) = []
               /\ List.filter is_jump
                 (flat_map (fun symbol =>
                    if symtype_eqb (sym_type symbol) SYMBOL_LOCAL_VAR
                    then [PUSHQ (literal "$0")] else []) function_symbols) = []).
  { induction function_symbols as [|s r [IH1 IH2]]; [split; reflexivity|]. simpl.
    destruct (symtype_eqb (sym_type s) SYMBOL_LOCAL_VAR); simpl; auto. }
  destruct (H1 (take (find_min NUM_REGISTER_PARAMS (FUNC_PARAM_COUNT function))
                     REGISTER_PARAMS)) as [-> ->].
  destruct H2 as [-> ->]. split; reflexivity.
Qed.

Lemma body_lines_labels_jumps name body :
  Forall (body_line name) body ->
  List.filter is_label body = []
  /\ Forall (fun line => line = EMIT "jmp .%s.epilogue" [arg_string name])
            (List.filter is_jump body).
Proof.
  induction 1 as [|l r Hline _ [IH1 IH2]]; [split; [reflexivity | constructor]|].
  simpl. destruct (body_line_facts _ _ Hline) as [-> Hjump].
  split; [exact IH1|].
  destruct (is_jump l); [apply Forall_cons; split; [apply Hjump; reflexivity | exact IH2]
                        | exact IH2].
Qed.

(** X20: the code of a function carries two labels, the function's own at its
    head and that of its epilogue after the body, and every jump in it, one
    per return statement, goes to that epilogue: control never leaves a
    function but through its own epilogue. *)
Theorem generate_function_jumps_to_own_epilogue :
  forall function function_node function_symbols code,
    generate_function function function_node function_symbols = Some code ->
    List.filter is_label code
    = [ LABEL ".%s" [arg_string (sym_name function)];
        LABEL ".%s.epilogue" [arg_string (sym_name function)] ]
    /\ Forall (fun line => line = EMIT "jmp .%s.epilogue" [arg_string (sym_name function)])
              (List.filter is_jump code)
    /\ last code = Some RET.
Proof.
  intros function function_node function_symbols code H. unfold generate_function in H.
  destruct (generate_statement function function_node) as [body|] eqn:Eb; [|discriminate].
  assert (Hcode : code = generate_prologue function function_symbols
                         ++ body
                         ++ [LABEL ".%s.epilogue" [arg_string (sym_name function)];
                             MOVQ RBP RSP; POPQ RBP; RET])
    by (injection H as <-; reflexivity).
  clear H. rewrite Hcode. clear Hcode.
  pose proof (generate_statement_lines _ _ _ Eb) as Hbody.
  destruct (prologue_labels function function_symbols) as [Hl Hj].
  pose proof (body_lines_labels_jumps _ _ Hbody) as Hb.
  destruct Hb as [Hb1 Hb2].
  split; [|split].
  - rewrite !List.filter_app, Hl, Hb1. reflexivity.
  - rewrite !List.filter_app, Hj. simpl. rewrite app_nil_r. exact Hb2.
  - rewrite !app_assoc.
    change ([LABEL ".%s.epilogue" [arg_string (sym_name function)]; MOVQ RBP RSP; POPQ RBP; RET])
      with ([LABEL ".%s.epilogue" [arg_string (sym_name function)]; MOVQ RBP RSP; POPQ RBP]
            ++ [RET]).
    rewrite app_assoc. apply last_snoc.
Qed.

Lemma generate_function_jumps_to_own_epilogue_witness :
  match generate_function function_f function_f_node [parameter_x] with
  | Some code =>
      List.filter is_label code
      = [LABEL ".%s" [arg_string "f"]; LABEL ".%s.epilogue" [arg_string "f"]]
      /\ Forall (fun line => line = EMIT "jmp .%s.epilogue" [arg_string "f"])
                (List.filter is_jump code)
      /\ last code = Some RET
  | None => False
  end.
Proof.
  destruct (generate_function function_f function_f_node [parameter_x]) as [code|] eqn:E.
  - exact (generate_function_jumps_to_own_epilogue _ _ _ _ E).
  - vm_compute in E. discriminate.
Defined.

End CodeFacts.

Module ProgramFacts.
Import Generator Program ProgramSpec CodeSpec.

Lemma generate_functions_main node_of symtable_of global_symbols :
  forall main_function code main_function',
    generate_functions node_of symtable_of global_symbols main_function
    = Some (code, main_function') ->
    main_function' = match main_function with
                     | Some symbol => Some symbol
                     | None => List.find is_function_symbol global_symbols
                     end.
Proof.
  induction global_symbols as [|symbol rest IH]; intros main_function code main_function' H;
    simpl in H.
  - injection H as _ <-. destruct main_function; reflexivity.
  - cbn [List.find]. unfold is_function_symbol at 1.
    destruct (symtype_eqb (sym_type symbol) SYMBOL_FUNCTION).
    + destruct (generate_function symbol _ _) as [function_code|]; [|discriminate].
      simpl in H.
      destruct (generate_functions node_of symtable_of rest _) as [[rest_code main]|] eqn:Er;
        [|discriminate].
      simpl in H. injection H as _ <-.
      rewrite (IH _ _ _ Er). destruct main_function; reflexivity.
    + exact (IH _ _ _ H).
Qed.

(** X21: the entry point of the program is the first function of the global
    table: the emitted program ends with the wrapper [main] made for that
    function.  A program without any function is refused, by the [assert]
    on [main_function]. *)
Theorem generate_program_enters_first_function :
  forall node_of symtable_of string_list global_symbols,
    match List.find is_function_symbol global_symbols with
    | None => generate_program node_of symtable_of string_list global_symbols = None
    | Some first =>
        forall code,
          generate_program node_of symtable_of string_list global_symbols = Some code ->
          exists before, code = before ++ generate_main first
    end.
Proof.
  intros node_of symtable_of string_list global_symbols. unfold generate_program.
  destruct (generate_global_variables node_of global_symbols) as [globals_code|].
  - simpl.
    destruct (generate_functions node_of symtable_of global_symbols None)
      as [[functions_code main_function]|] eqn:Ef.
    + rewrite (generate_functions_main _ _ _ _ _ _ Ef). simpl.
      destruct (List.find is_function_symbol global_symbols) as [first|].
      * simpl. intros code H. injection H as <-.
        exists (generate_stringtable string_list ++ globals_code ++ [DIRECTIVE ".text" []]
                ++ map Asm functions_code).
        rewrite <- !app_assoc. reflexivity.
      * reflexivity.
    + simpl. destruct (List.find is_function_symbol global_symbols); [|reflexivity].
      intros code H. discriminate.
  - simpl. destruct (List.find is_function_symbol global_symbols); [|reflexivity].
    intros code H. discriminate.
Qed.

(** The program [var x  func f(x) ...] is generated, and ends with the
    wrapper for [f]. *)
Example generate_program_one_function :
  match generate_program one_function_node_of one_function_symtable_of ["hello"]
                         one_function_globals with
  | Some code => drop 28 code = generate_main (mk_symbol SYMBOL_FUNCTION "f" 1 1)
  | None => False
  end.
Proof. vm_compute. reflexivity. Qed.

(** The program whose one function is [f() { break }] passes the binder
    unchanged, and the code generated for [f] runs from its prologue
    straight into its epilogue: no pass refuses a break outside a loop. *)
Example break_function_compiles :
  match Globals.create_tables (node_create LIST [TreeSpec.break_function]) with
  | Symbols.Ok (_, _, root) => root = node_create LIST [TreeSpec.break_function]
  | Symbols.Fatal _ => False
  end
  /\ generate_function (mk_symbol SYMBOL_FUNCTION "f" 0 0) TreeSpec.break_function []
     = Some [ LABEL ".%s" [arg_string "f"]; PUSHQ RBP; MOVQ RSP RBP;
              LABEL ".%s.epilogue" [arg_string "f"]; MOVQ RBP RSP; POPQ RBP; RET ].
Proof. split; vm_compute; reflexivity. Qed.

End ProgramFacts.
